(** * Bookstore inventory ingestion and reporting

    A shallow embedding of the CSV ingestion pipeline
    (workers/csvParserWorker.js, services/inventoryService.js,
    routes/inventory.js) and of the two ranking queries of
    services/reportService.js, with the properties of the specification
    stated over it; and, for the further properties at the end, of the
    error middleware (middleware/errorHandler.js) and of the report's
    file name and cell texts.

    Modelling conventions.
    - A JavaScript string is a [string]; every character stands for one
      code unit below 256.
    - A JavaScript number that the code obtains from [parseFloat] is an
      IEEE-754 binary64 value ([spec_float] with precision 53); integers
      (ids, counters, page counts, copies) are [Z].
    - A CSV record is a JavaScript object used as a map from header to
      cell text: [gmap string string]; a missing key reads [None]
      ([undefined]).
    - The relational store is the four tables of src/models as lists of
      records in insertion order, together with the id sequences.  A
      transaction is a snapshot of the tables that [rollback] restores.
      The columns are those that src/models declares for the postgres
      dialect: an INTEGER holds 32 bits, a STRING(n) at most n
      characters, and the DECIMAL(10, 2) price is a number of hundredths,
      rounded when it is written; a statement that breaks one of these
      fails.  Timestamps are not part of the model; a commit cannot
      fail. *)

From Stdlib Require Import ZArith String Ascii List Bool Lia.
From Stdlib Require Import Floats.SpecFloat.
From stdpp Require Import base option list strings gmap fin_maps pretty sorting.

Local Open Scope string_scope.
Local Open Scope Z_scope.

(** ** JavaScript built-ins used by the code *)

Module JS.

Definition number := spec_float.

Definition prec : Z := 53.
Definition emax : Z := 1024.

Definition NaN : number := S754_nan.
Definition zero : number := S754_zero false.

Definition isNaN (x : number) : bool :=
  match x with S754_nan => true | _ => false end.

Definition isFinite (x : number) : bool :=
  match x with
  | S754_zero _ | S754_finite _ _ _ => true
  | S754_infinity _ | S754_nan => false
  end.

(** [x < y] on numbers; false as soon as one side is NaN. *)
Definition lt (x y : number) : bool := SFltb x y.

(** The number denoted by the decimal [m * 10^e], [m >= 0], with sign
    [neg], rounded to nearest, ties to even.  For [e < 0] the quotient
    is taken with 64 extra bits and a sticky bit, so that the single
    rounding of [binary_round] is the rounding of the exact value.  The
    two early exits only skip arithmetic whose result is known: beyond
    [10^310] every value overflows, below [2^-1075] every value rounds
    to zero. *)
Definition ofDecimal (neg : bool) (m e : Z) : number :=
  match m with
  | Zpos _ =>
      if 310 <=? e then S754_infinity neg
      else if Z.log2 m + 3 * e <? -1080 then S754_zero neg
      else if 0 <=? e then
        match m * 10 ^ e with
        | Zpos p => binary_round prec emax neg p 0
        | _ => S754_zero neg
        end
      else
        let d := 10 ^ (- e) in
        let s := 64 + Z.log2_up d in
        let n := Z.shiftl m s in
        let sticky := if n mod d =? 0 then 0 else 1 in
        match 2 * (n / d) + sticky with
        | Zpos p => binary_round prec emax neg p (- (s + 1))
        | _ => S754_zero neg
        end
  | _ => S754_zero neg
  end.

Definition code (c : ascii) : Z := Z.of_N (N_of_ascii c).

(** WhiteSpace and LineTerminator code units below 256:
    TAB, LF, VT, FF, CR, SP, NBSP. *)
Definition isWhiteSpace (c : ascii) : bool :=
  let n := code c in
  ((9 <=? n) && (n <=? 13)) || (n =? 32) || (n =? 160).

Definition isDigit (c : ascii) : bool :=
  let n := code c in (48 <=? n) && (n <=? 57).

Definition digitVal (c : ascii) : Z := code c - 48.

Fixpoint trimStart (s : string) : string :=
  match s with
  | String c s' => if isWhiteSpace c then trimStart s' else s
  | EmptyString => EmptyString
  end.

Fixpoint trimEnd (s : string) : string :=
  match s with
  | EmptyString => EmptyString
  | String c s' =>
      match trimEnd s' with
      | EmptyString => if isWhiteSpace c then EmptyString else String c EmptyString
      | t => String c t
      end
  end.

(** String.prototype.trim *)
Definition trim (s : string) : string := trimEnd (trimStart s).

(** The longest run of decimal digits at the head of [s]: its value on
    top of [acc], the number of digits read, and the rest. *)
Fixpoint readDigits (s : string) (acc n : Z) : Z * Z * string :=
  match s with
  | String c s' =>
      if isDigit c then readDigits s' (10 * acc + digitVal c) (n + 1)
      else (acc, n, s)
  | EmptyString => (acc, n, EmptyString)
  end.

(** An optional sign at the head of [s]: [true] for a minus. *)
Definition readSign (s : string) : bool * string :=
  match s with
  | String "-" s' => (true, s')
  | String "+" s' => (false, s')
  | _ => (false, s)
  end.

(** ExponentPart, when one is there: [e] or [E], an optional sign, and
    at least one digit; otherwise the literal ends before it. *)
Definition readExponent (s : string) : Z :=
  match s with
  | String c s' =>
      if (code c =? 101) || (code c =? 69) then
        let '(neg, s'') := readSign s' in
        let '(v, n, _) := readDigits s'' 0 0 in
        if 0 <? n then (if neg then - v else v) else 0
      else 0
  | EmptyString => 0
  end.

Definition startsWith (p s : string) : bool := String.prefix p s.

(** parseFloat(string): leading white space is skipped, the longest
    prefix that is a StrDecimalLiteral is converted, and NaN is the
    answer when there is none. *)
Definition parseFloat (input : string) : number :=
  let '(neg, s) := readSign (trimStart input) in
  if startsWith "Infinity" s then S754_infinity neg
  else
    let '(ip, ni, s1) := readDigits s 0 0 in
    let '(m, nf, s2) :=
      match s1 with
      | String "." s1' => readDigits s1' ip 0
      | _ => (ip, 0, s1)
      end in
    if ni + nf =? 0 then NaN
    else ofDecimal neg m (readExponent s2 - nf).

(** parseInt(string, 10): [None] is NaN.  The integer is kept exact, also
    beyond 2^53 where JavaScript keeps the nearest number only; such a
    value is beyond every INTEGER column either way. *)
Definition parseInt (input : string) : option Z :=
  let '(neg, s) := readSign (trimStart input) in
  let '(v, n, _) := readDigits s 0 0 in
  if n =? 0 then None else Some (if neg then - v else v).

(** A property read off an object: [undefined] or a string. *)
Definition truthy (v : option string) : bool :=
  match v with
  | Some (String _ _) => true
  | _ => false
  end.

(** ToString, as template literals and the parsers apply it. *)
Definition toString (v : option string) : string :=
  match v with
  | Some s => s
  | None => "undefined"
  end.

(** [v || null] for a string property. *)
Definition orNull (v : option string) : option string :=
  if truthy v then v else None.

(** Array.prototype.join *)
Fixpoint join (sep : string) (l : list string) : string :=
  match l with
  | [] => ""
  | [x] => x
  | x :: rest => x +:+ sep +:+ join sep rest
  end.

(** [s.length], in code units. *)
Definition length (s : string) : Z := Z.of_nat (String.length s).

(** String.prototype.substring(start, end): both indices are clamped to
    the interval from 0 to the length, and swapped when they come in the
    wrong order. *)
Definition substring (s : string) (start finish : Z) : string :=
  let a := Z.min (Z.max start 0) (length s) in
  let b := Z.min (Z.max finish 0) (length s) in
  String.substring (Z.to_nat (Z.min a b)) (Z.to_nat (Z.max a b - Z.min a b)) s.

(** String.prototype.toLowerCase on code units below 256: the letters A
    to Z and the Latin-1 capitals from U+00C0 to U+00DE, but for the
    multiplication sign U+00D7, move up by 32. *)
Definition lowerChar (c : ascii) : ascii :=
  let n := code c in
  if ((65 <=? n) && (n <=? 90))
     || ((192 <=? n) && (n <=? 222) && negb (n =? 215))
  then ascii_of_N (Z.to_N (n + 32))
  else c.

Fixpoint toLowerCase (s : string) : string :=
  match s with
  | EmptyString => EmptyString
  | String c s' => String (lowerChar c) (toLowerCase s')
  end.

(** String.prototype.endsWith *)
Definition endsWith (s suffix : string) : bool :=
  let n := String.length s in
  let m := String.length suffix in
  (m <=? n)%nat && String.eqb (String.substring (n - m) m s) suffix.

(** [x / 10^q] for [x = m × 2^e], as a fraction. *)
Definition scaled (m : positive) (e q : Z) : Z * Z :=
  (Zpos m * 2 ^ Z.max e 0 * 10 ^ Z.max (- q) 0,
   2 ^ Z.max (- e) 0 * 10 ^ Z.max q 0).

(** The decimal [s × 10^q] is above zero and converts to [m × 2^e]. *)
Definition readsBack (m : positive) (e s q : Z) : bool :=
  (0 <? s) && SFeqb (ofDecimal false s q) (S754_finite false m e).

(** The multiple of [10^q] next to [x = m × 2^e], below or above, that
    reads back as [x]: the closer one when both do, the even one when
    they are as close. *)
Definition digitsAt (m : positive) (e q : Z) : option Z :=
  let '(n, d) := scaled m e q in
  let lo := n / d in
  let hi := lo + 1 in
  let loFirst :=
    match 2 * n ?= (2 * lo + 1) * d with
    | Lt => true
    | Gt => false
    | Eq => Z.even lo
    end in
  let '(first, second) := if loFirst then (lo, hi) else (hi, lo) in
  if readsBack m e first q then Some first
  else if readsBack m e second q then Some second
  else None.

(** The search for the largest [q] at which [digitsAt] finds digits; when
    [fuel] runs out, the exact decimal expansion. *)
Fixpoint shortest (fuel : nat) (m : positive) (e q : Z) : Z * Z :=
  match fuel with
  | O => (Zpos m * 2 ^ Z.max e 0 * 5 ^ Z.max (- e) 0, Z.min e 0)
  | S fuel =>
      match digitsAt m e q with
      | Some s => (s, q)
      | None => shortest fuel m e (q - 1)
      end
  end.

(** Number::toString(x) for a finite [x = m × 2^e] above zero, as the
    decimal [s × 10^q] whose digits it writes: the one with the fewest
    digits among those that read back as [x].  The search starts at a
    power of ten above [x]; seventeen digits are always enough. *)
Definition toDecimal (m : positive) (e : Z) : Z * Z :=
  shortest 25 m e ((Z.log2 (Zpos m) + e + 1) * 30103 / 100000 + 1).

End JS.

(** ** DECIMAL(10, 2) *)

Module DECIMAL.

(** A value of the column: NaN, or a number of hundredths. *)
Inductive t :=
| NaN
| hundredths (c : Z).

Global Instance eq_dec : EqDecision t.
Proof. solve_decision. Defined.

(** The order of the database: NaN is above every number. *)
Definition lt (x y : t) : bool :=
  match x, y with
  | hundredths a, hundredths b => a <? b
  | hundredths _, NaN => true
  | NaN, _ => false
  end.

(** [s × 10^q], [s >= 0], in hundredths, rounded half away from zero. *)
Definition round (s q : Z) : Z :=
  if -2 <=? q then s * 10 ^ (q + 2)
  else let d := 10 ^ (- q - 2) in (2 * s + d) / (2 * d).

(** What the column makes of a JavaScript number, which reaches the
    database in the text of Number::toString: the value is rounded to
    two decimals and must stay below 10^8; NaN is a value of the column
    and an infinite number is not. *)
Definition ofNumber (x : JS.number) : string + t :=
  match x with
  | S754_nan => inr NaN
  | S754_infinity _ => inl "numeric field overflow"
  | S754_zero _ => inr (hundredths 0)
  | S754_finite neg m e =>
      let '(s, q) := JS.toDecimal m e in
      let c := round s q in
      if 10 ^ 10 <=? c then inl "numeric field overflow"
      else inr (hundredths (if neg then - c else c))
  end.

(** The text in which the value comes back: the digits before the point,
    the point, two digits. *)
Definition toText (x : t) : string :=
  match x with
  | NaN => "NaN"
  | hundredths c =>
      (if c <? 0 then "-" else "")
      +:+ pretty (Z.abs c / 100) +:+ "."
      +:+ pretty (Z.abs c mod 100 / 10) +:+ pretty (Z.abs c mod 10)
  end.

End DECIMAL.

(** ** The CSV worker (workers/csvParserWorker.js) *)

(** A row object of csv-parser: header name to cell text. *)
Abbreviation Row := (gmap string string).

(** The entries of the two arrays the worker returns, and of
    [results.errors]. *)
Record ValidatedRow := mkValidatedRow { rowNumber : Z; data : Row }.
Record RowError := mkRowError { row : Z; row_data : Row; error : string }.

Module Worker.

(** [mapValues: ({ value }) => value.trim()] *)
Definition mapValues (value : string) : string := JS.trim value.

(** [replace(/\s+/g, '_')]: every run of white space becomes one
    underscore.  [inRun] tells that the character before was white
    space. *)
Fixpoint underscoreRuns (inRun : bool) (s : string) : string :=
  match s with
  | EmptyString => EmptyString
  | String c s' =>
      if JS.isWhiteSpace c then
        if inRun then underscoreRuns true s'
        else String "_" (underscoreRuns true s')
      else String c (underscoreRuns false s')
  end.

(** [mapHeaders: ({ header }) =>
      header.trim().toLowerCase().replace(/\s+/g, '_')]: the name under
    which a column is found in the row objects. *)
Definition mapHeaders (header : string) : string :=
  underscoreRuns false (JS.toLowerCase (JS.trim header)).

(** csv-parser splits the text into records and builds one object per
    record; [parseCSV] is given the records with their raw cell text and
    applies the [mapValues] callback to every cell. *)
Definition parseCSV (records : list Row) : list Row :=
  (λ record : Row, mapValues <$> record) <$> records.

(** [{ valid: true }] or [{ valid: false, error }] *)
Inductive Validation :=
| Valid
| Invalid (error : string).

Definition requiredFields : list string :=
  ["store_name"; "book_name"; "author_name"; "price"].

Definition validateRow (row : Row) (rowNumber : Z) : Validation :=
  let missingFields :=
    filter (λ field, JS.truthy (row !! field) = false) requiredFields in
  if 0 <? Z.of_nat (length missingFields) then
    Invalid ("Row " +:+ pretty rowNumber +:+ ": Missing required fields: "
             +:+ JS.join ", " missingFields)
  else
    let price := JS.parseFloat (JS.toString (row !! "price")) in
    if JS.isNaN price then
      Invalid ("Row " +:+ pretty rowNumber +:+ ": Invalid price value: "
               +:+ JS.toString (row !! "price"))
    else if JS.truthy (row !! "pages") then
      let pages := JS.parseInt (JS.toString (row !! "pages")) in
      if match pages with None => true | Some p => p <? 1 end then
        Invalid ("Row " +:+ pretty rowNumber +:+ ": Invalid pages value: "
                 +:+ JS.toString (row !! "pages"))
      else Valid
    else Valid.

(** The loop [for (let i = 0; i < rows.length; i++)], entered at index
    [i] with the rows from [i] on and the two arrays built so far. *)
Fixpoint validateAll (rows : list Row) (i : Z)
    (validatedRows : list ValidatedRow) (validationErrors : list RowError)
    : list ValidatedRow * list RowError :=
  match rows with
  | [] => (validatedRows, validationErrors)
  | row :: rest =>
      let rowNumber := i + 2 in
      match validateRow row rowNumber with
      | Valid =>
          validateAll rest (i + 1)
            (validatedRows ++ [mkValidatedRow rowNumber row])
            validationErrors
      | Invalid error =>
          validateAll rest (i + 1) validatedRows
            (validationErrors ++ [mkRowError rowNumber row error])
      end
  end.

Record Output := mkOutput {
  validatedRows : list ValidatedRow;
  validationErrors : list RowError;
  totalParsed : Z
}.

(** [module.exports = async function ({ csvString })] *)
Definition csvParserWorker (records : list Row) : Output :=
  let rows := parseCSV records in
  let '(validatedRows, validationErrors) := validateAll rows 0 [] [] in
  mkOutput validatedRows validationErrors (Z.of_nat (length rows)).

End Worker.

(** ** The relational store (src/models) *)

(** Sequelize validator [notEmpty]: the string is not made of white
    space only. *)
Fixpoint notEmpty (s : string) : bool :=
  match s with
  | EmptyString => false
  | String c s' => negb (JS.isWhiteSpace c) || notEmpty s'
  end.

Module Store.
Record t := mk {
  id : Z;
  name : string;
  address : option string;
  logo : option string
}.

(** [validate: { notEmpty: { msg } }] on [name] *)
Definition validate (s : t) : option string :=
  if notEmpty (name s) then None else Some "Store name cannot be empty".

(** [WHERE name = n LIMIT 1] *)
Definition findOne (n : string) (rows : list t) : option t :=
  List.find (λ s, String.eqb (name s) n) rows.
End Store.

Module Author.
Record t := mk { id : Z; name : string }.

Definition validate (a : t) : option string :=
  if notEmpty (name a) then None else Some "Author name cannot be empty".

Definition findOne (n : string) (rows : list t) : option t :=
  List.find (λ a, String.eqb (name a) n) rows.
End Author.

Module Book.
Record t := mk {
  id : Z;
  name : string;
  pages : option Z;
  author_id : Z
}.

(** [validate: { min: { args: [1], msg } }] on the value given for
    [pages]: [None] is null, which is not validated; [Some None] is NaN,
    which Sequelize's [min] lets through; a number must be at least 1. *)
Definition validatePages (p : option (option Z)) : option string :=
  match p with
  | Some (Some n) => if 1 <=? n then None else Some "Pages must be at least 1"
  | Some None | None => None
  end.

(** The validators of [name] and [pages]. *)
Definition validate (name : string) (p : option (option Z)) : option string :=
  if notEmpty name then validatePages p
  else Some "Book name cannot be empty".

(** [WHERE name = n AND author_id = a LIMIT 1] *)
Definition findOne (n : string) (a : Z) (rows : list t) : option t :=
  List.find (λ b, String.eqb (name b) n && (author_id b =? a)) rows.
End Book.

Module StoreBook.
Record t := mk {
  store_id : Z;
  book_id : Z;
  price : DECIMAL.t;
  copies : Z;
  sold_out : bool
}.

(** [validate: { min: { args: [0], msg } }] on the values given for
    [price] and [copies] *)
Definition validate (price : JS.number) (copies : Z) : option string :=
  if JS.lt price JS.zero then Some "Price cannot be negative"
  else if copies <? 0 then Some "Copies cannot be negative"
  else None.

Definition hasKey (s b : Z) (sb : t) : bool :=
  (store_id sb =? s) && (book_id sb =? b).

(** [WHERE store_id = s AND book_id = b LIMIT 1] *)
Definition findOne (s b : Z) (rows : list t) : option t :=
  List.find (hasKey s b) rows.
End StoreBook.

Record Tables := mkTables {
  stores : list Store.t;
  authors : list Author.t;
  books : list Book.t;
  store_books : list StoreBook.t
}.

(** The next value of each [autoIncrement] id. *)
Record Sequences := mkSequences {
  stores_id_seq : Z;
  authors_id_seq : Z;
  books_id_seq : Z
}.

Record Database := mkDatabase { tables : Tables; sequences : Sequences }.

Definition emptyTables : Tables := mkTables [] [] [] [].
Definition emptyDatabase : Database :=
  mkDatabase emptyTables (mkSequences 1 1 1).

(** ** The result object of [processCSV] *)

Record Results := mkResults {
  processed : Z;
  created_stores : Z;
  created_authors : Z;
  created_books : Z;
  created_inventory : Z;
  updated_inventory : Z;
  errors : list RowError
}.

Definition newResults : Results := mkResults 0 0 0 0 0 0 [].

(** The updates of the counters, [results.created.stores++] and the
    like, and [results.errors.push(e)]. *)
Definition incrProcessed (r : Results) : Results :=
  mkResults (processed r + 1) (created_stores r) (created_authors r)
    (created_books r) (created_inventory r) (updated_inventory r) (errors r).

Definition incrCreatedStores (r : Results) : Results :=
  mkResults (processed r) (created_stores r + 1) (created_authors r)
    (created_books r) (created_inventory r) (updated_inventory r) (errors r).

Definition incrCreatedAuthors (r : Results) : Results :=
  mkResults (processed r) (created_stores r) (created_authors r + 1)
    (created_books r) (created_inventory r) (updated_inventory r) (errors r).

Definition incrCreatedBooks (r : Results) : Results :=
  mkResults (processed r) (created_stores r) (created_authors r)
    (created_books r + 1) (created_inventory r) (updated_inventory r) (errors r).

Definition incrCreatedInventory (r : Results) : Results :=
  mkResults (processed r) (created_stores r) (created_authors r)
    (created_books r) (created_inventory r + 1) (updated_inventory r) (errors r).

Definition incrUpdatedInventory (r : Results) : Results :=
  mkResults (processed r) (created_stores r) (created_authors r)
    (created_books r) (created_inventory r) (updated_inventory r + 1) (errors r).

Definition pushError (e : RowError) (r : Results) : Results :=
  mkResults (processed r) (created_stores r) (created_authors r)
    (created_books r) (created_inventory r) (updated_inventory r)
    (errors r ++ [e]).

(** ** State and exceptions

    The service works on the database and on the one [results] object
    that [processCSV] hands to every [processRow]; both are mutated in
    place.  A computation either returns or throws an [Error] with a
    message, and what it wrote before throwing stays written. *)

Record State := mkState { db : Database; results : Results }.

Definition M (A : Type) : Type := State → (string + A) * State.

Definition ret {A} (a : A) : M A := λ st, (inr a, st).

Definition throw {A} (message : string) : M A := λ st, (inl message, st).

Definition bind {A B} (m : M A) (k : A → M B) : M B :=
  λ st,
    match m st with
    | (inr a, st') => k a st'
    | (inl message, st') => (inl message, st')
    end.

Definition tryCatch {A} (body : M A) (handler : string → M A) : M A :=
  λ st,
    match body st with
    | (inl message, st') => handler message st'
    | (inr a, st') => (inr a, st')
    end.

Notation "'let!' x ':=' m 'in' k" := (bind m (λ x, k))
  (at level 10, x pattern, m at level 100, k at level 200).
Notation "m '>>' k" := (bind m (λ _, k))
  (at level 100, k at level 200, right associativity).

Definition when (b : bool) (m : M unit) : M unit :=
  if b then m else ret tt.

Definition getTables : M Tables := λ st, (inr (tables (db st)), st).

Definition setTables (t : Tables) : M unit :=
  λ st, (inr tt, mkState (mkDatabase t (sequences (db st))) (results st)).

(** A write statement: the tables become [g] of what they were. *)
Definition modifyTables (g : Tables → Tables) : M unit :=
  λ st,
    (inr tt,
     mkState (mkDatabase (g (tables (db st))) (sequences (db st))) (results st)).

Definition getSequences : M Sequences := λ st, (inr (sequences (db st)), st).

Definition setSequences (s : Sequences) : M unit :=
  λ st, (inr tt, mkState (mkDatabase (tables (db st)) s) (results st)).

Definition updateResults (f : Results → Results) : M unit :=
  λ st, (inr tt, mkState (db st) (f (results st))).

(** [sequelize.transaction()]: the transaction remembers the tables as
    they were when it began. *)
Definition transaction : M Tables := getTables.

(** Writes are applied as they are issued, so there is nothing left to do
    at commit. *)
Definition commit (transaction : Tables) : M unit := ret tt.

(** The tables go back to the snapshot; sequence values that were drawn
    stay drawn. *)
Definition rollback (transaction : Tables) : M unit := setTables transaction.

(** A failed model validation, as Sequelize reports it. *)
Definition validated (check : option string) : M unit :=
  match check with
  | Some msg => throw ("Validation error: " +:+ msg)
  | None => ret tt
  end.

(** [text] between double quotes. *)
Definition quoted (text : string) : string :=
  String (ascii_of_nat 34) (text +:+ String (ascii_of_nat 34) EmptyString).

(** A [where] value that is [undefined] is refused by Sequelize. *)
Definition whereValue (field : string) (v : option string) : M string :=
  match v with
  | Some s => ret s
  | None =>
      throw ("WHERE parameter " +:+ quoted field +:+ " has invalid "
             +:+ quoted "undefined" +:+ " value")
  end.

(** ** Columns

    What the database asks of a value on its way into a column of
    src/models. *)

(** An INTEGER column holds 32 bits. *)
Definition integer (n : Z) : M Z :=
  if (-2147483648 <=? n) && (n <=? 2147483647) then ret n
  else throw "integer out of range".

(** A STRING(n) column holds [n] characters.  (A longer value whose
    excess is made of spaces would be cut instead of refused; the cells
    of a row, trimmed by [mapValues], do not end in a space.) *)
Definition tooLong (n : Z) : string :=
  "value too long for type character varying(" +:+ pretty n +:+ ")".

Definition varchar (n : Z) (s : string) : M unit :=
  if JS.length s <=? n then ret tt else throw (tooLong n).

Definition varcharOrNull (n : Z) (v : option string) : M unit :=
  match v with
  | Some s => varchar n s
  | None => ret tt
  end.

(** The id that [autoIncrement] draws: the next value of the sequence,
    as long as an INTEGER holds it. *)
Definition nextval (sequence : string) (next : Z) : M unit :=
  if next <=? 2147483647 then ret tt
  else throw ("nextval: reached maximum value of sequence "
              +:+ quoted sequence +:+ " (2147483647)").

Definition Store_create (name : string) (address logo : option string)
    : M Store.t :=
  let! seqs := getSequences in
  let store := Store.mk (stores_id_seq seqs) name address logo in
  validated (Store.validate store) >>
  varchar 255 name >>
  varcharOrNull 500 address >>
  nextval "stores_id_seq" (stores_id_seq seqs) >>
  setSequences (mkSequences (stores_id_seq seqs + 1) (authors_id_seq seqs)
                  (books_id_seq seqs)) >>
  modifyTables (λ t, mkTables (stores t ++ [store]) (authors t) (books t)
                       (store_books t)) >>
  ret store.

(** [Store.findOrCreate({ where: { name }, defaults, transaction })] *)
Definition Store_findOrCreate (name : option string)
    (address logo : option string) : M (Store.t * bool) :=
  let! name := whereValue "name" name in
  let! t := getTables in
  match Store.findOne name (stores t) with
  | Some store => ret (store, false)
  | None => let! store := Store_create name address logo in ret (store, true)
  end.

(** [store.update({ logo })]: [UPDATE stores SET logo = .. WHERE id = ..] *)
Definition store_update_logo (store : Store.t) (logo : option string)
    : M unit :=
  modifyTables (λ t,
    mkTables
      (map (λ s, if Store.id s =? Store.id store
                 then Store.mk (Store.id s) (Store.name s) (Store.address s) logo
                 else s) (stores t))
      (authors t) (books t) (store_books t)).

(** [store.update({ address })] *)
Definition store_update_address (store : Store.t) (address : option string)
    : M unit :=
  varcharOrNull 500 address >>
  modifyTables (λ t,
    mkTables
      (map (λ s, if Store.id s =? Store.id store
                 then Store.mk (Store.id s) (Store.name s) address (Store.logo s)
                 else s) (stores t))
      (authors t) (books t) (store_books t)).

Definition Author_create (name : string) : M Author.t :=
  let! seqs := getSequences in
  let author := Author.mk (authors_id_seq seqs) name in
  validated (Author.validate author) >>
  varchar 255 name >>
  nextval "authors_id_seq" (authors_id_seq seqs) >>
  setSequences (mkSequences (stores_id_seq seqs) (authors_id_seq seqs + 1)
                  (books_id_seq seqs)) >>
  modifyTables (λ t, mkTables (stores t) (authors t ++ [author]) (books t)
                       (store_books t)) >>
  ret author.

(** [Author.findOrCreate({ where: { name }, defaults, transaction })] *)
Definition Author_findOrCreate (name : option string) : M (Author.t * bool) :=
  let! name := whereValue "name" name in
  let! t := getTables in
  match Author.findOne name (authors t) with
  | Some author => ret (author, false)
  | None => let! author := Author_create name in ret (author, true)
  end.

(** A page count as the code computes it, [null] or the result of
    [parseInt], on its way to the INTEGER column: NaN is not an integer
    and the statement fails. *)
Definition integerOrNull (v : option (option Z)) : M (option Z) :=
  match v with
  | None => ret None
  | Some (Some n) => let! n := integer n in ret (Some n)
  | Some None =>
      throw ("invalid input syntax for type integer: " +:+ quoted "NaN")
  end.

Definition Book_create (name : string) (pages : option (option Z))
    (author_id : Z) : M Book.t :=
  validated (Book.validate name pages) >>
  varchar 255 name >>
  let! pages := integerOrNull pages in
  let! seqs := getSequences in
  nextval "books_id_seq" (books_id_seq seqs) >>
  let book := Book.mk (books_id_seq seqs) name pages author_id in
  setSequences (mkSequences (stores_id_seq seqs) (authors_id_seq seqs)
                  (books_id_seq seqs + 1)) >>
  modifyTables (λ t, mkTables (stores t) (authors t) (books t ++ [book])
                       (store_books t)) >>
  ret book.

(** [Book.findOrCreate({ where: { name, author_id }, defaults,
    transaction })] *)
Definition Book_findOrCreate (name : option string) (author_id : Z)
    (pages : option (option Z)) : M (Book.t * bool) :=
  let! name := whereValue "name" name in
  let! t := getTables in
  match Book.findOne name author_id (books t) with
  | Some book => ret (book, false)
  | None => let! book := Book_create name pages author_id in ret (book, true)
  end.

(** [book.update({ pages })] *)
Definition book_update_pages (book : Book.t) (pages : option Z) : M unit :=
  validated (Book.validatePages (Some pages)) >>
  let! pages := integerOrNull (Some pages) in
  modifyTables (λ t,
    mkTables (stores t) (authors t)
      (map (λ b, if Book.id b =? Book.id book
                 then Book.mk (Book.id b) (Book.name b) pages (Book.author_id b)
                 else b) (books t))
      (store_books t)).

(** A price on its way to the DECIMAL(10, 2) column. *)
Definition decimal (price : JS.number) : M DECIMAL.t :=
  match DECIMAL.ofNumber price with
  | inl message => throw message
  | inr d => ret d
  end.

(** [StoreBook.findOne({ where: { store_id, book_id }, transaction })] *)
Definition StoreBook_findOne (store_id book_id : Z) : M (option StoreBook.t) :=
  let! t := getTables in
  ret (StoreBook.findOne store_id book_id (store_books t)).

(** [existingInventory.update({ copies, price, sold_out })]:
    [UPDATE store_books SET .. WHERE store_id = .. AND book_id = ..] *)
Definition inventory_update (existingInventory : StoreBook.t) (copies : Z)
    (price : JS.number) (sold_out : bool) : M unit :=
  let s := StoreBook.store_id existingInventory in
  let b := StoreBook.book_id existingInventory in
  validated (StoreBook.validate price copies) >>
  let! copies := integer copies in
  let! price := decimal price in
  modifyTables (λ t,
    mkTables (stores t) (authors t) (books t)
      (map (λ sb, if StoreBook.hasKey s b sb
                  then StoreBook.mk (StoreBook.store_id sb)
                         (StoreBook.book_id sb) price copies sold_out
                  else sb) (store_books t))).

(** [StoreBook.create({ store_id, book_id, price, copies, sold_out })] *)
Definition StoreBook_create (store_id book_id : Z) (price : JS.number)
    (copies : Z) (sold_out : bool) : M unit :=
  validated (StoreBook.validate price copies) >>
  let! copies := integer copies in
  let! price := decimal price in
  modifyTables (λ t,
    mkTables (stores t) (authors t) (books t)
      (store_books t
       ++ [StoreBook.mk store_id book_id price copies sold_out])).

(** ** The reconciliation engine (services/inventoryService.js) *)

(** The statements of [processRow] between [try {] and
    [await transaction.commit()]. *)
Definition processRowBody (row : Row) : M unit :=
  (* 1. Find or create Store *)
  let! (store, storeCreated) :=
    Store_findOrCreate (row !! "store_name")
      (JS.orNull (row !! "store_address")) (JS.orNull (row !! "logo")) in
  when (negb storeCreated && JS.truthy (row !! "logo")
        && bool_decide (row !! "logo" ≠ Store.logo store))
    (store_update_logo store (row !! "logo")) >>
  when (negb storeCreated && JS.truthy (row !! "store_address")
        && bool_decide (row !! "store_address" ≠ Store.address store))
    (store_update_address store (row !! "store_address")) >>
  when storeCreated
    (updateResults incrCreatedStores) >>
  (* 2. Find or create Author *)
  let! (author, authorCreated) :=
    Author_findOrCreate (row !! "author_name") in
  when authorCreated
    (updateResults incrCreatedAuthors) >>
  (* 3. Find or create Book *)
  let! (book, bookCreated) :=
    Book_findOrCreate (row !! "book_name") (Author.id author)
      (if JS.truthy (row !! "pages")
       then Some (JS.parseInt (JS.toString (row !! "pages")))
       else None) in
  when (negb bookCreated && JS.truthy (row !! "pages"))
    (let pages := JS.parseInt (JS.toString (row !! "pages")) in
     when (match pages with
           | Some p => bool_decide (Some p ≠ Book.pages book)
           | None => true
           end)
       (book_update_pages book pages)) >>
  when bookCreated
    (updateResults incrCreatedBooks) >>
  (* 4. Find or create/update StoreBook (inventory) *)
  let price := JS.parseFloat (JS.toString (row !! "price")) in
  when (JS.isNaN price || JS.lt price JS.zero)
    (throw ("Invalid price value: " +:+ JS.toString (row !! "price"))) >>
  let! existingInventory :=
    StoreBook_findOne (Store.id store) (Book.id book) in
  match existingInventory with
  | Some existingInventory =>
      inventory_update existingInventory
        (StoreBook.copies existingInventory + 1) price false >>
      updateResults incrUpdatedInventory
  | None =>
      StoreBook_create (Store.id store) (Book.id book) price 1 false >>
      updateResults incrCreatedInventory
  end.

(** [async processRow(row, results, rowNumber)] *)
Definition processRow (row : Row) (rowNumber : Z) : M unit :=
  let! transaction := transaction in
  tryCatch
    (processRowBody row >> commit transaction)
    (λ error, rollback transaction >> throw error).

(** The loop [for (const { rowNumber, data } of validatedRows)] of
    [processCSV], with its [try]/[catch]. *)
Fixpoint processRows (validatedRows : list ValidatedRow) : M unit :=
  match validatedRows with
  | [] => ret tt
  | v :: rest =>
      tryCatch
        (processRow (data v) (rowNumber v) >>
         updateResults incrProcessed)
        (λ error,
           updateResults (pushError (mkRowError (rowNumber v) (data v) error))) >>
      processRows rest
  end.

(** [async processCSV(fileBuffer)], on the records of the file, against a
    database: the result object and the database it leaves. *)
Definition processCSV (records : list Row) (database : Database)
    : Results * Database :=
  let out := Worker.csvParserWorker records in
  let results0 :=
    mkResults 0 0 0 0 0 0 ([] ++ Worker.validationErrors out) in
  let '(_, st) :=
    processRows (Worker.validatedRows out) (mkState database results0) in
  (results st, db st).

(** ** The upload route (routes/inventory.js) *)

Record Response := mkResponse {
  status : Z;
  success : bool;
  message : string;
  response_results : Results
}.

(** The handler of [POST /upload] from the call of [processCSV] on. *)
Definition respond (results : Results) : Response :=
  let hasErrors := 0 <? Z.of_nat (length (errors results)) in
  let hasSuccesses := 0 <? processed results in
  if negb hasSuccesses && hasErrors then
    mkResponse 400 false "Failed to process any rows from the CSV file."
      results
  else
    mkResponse 200 true
      (if hasErrors then "CSV processed with some errors."
       else "CSV processed successfully.")
      results.

Definition upload (records : list Row) (database : Database)
    : Response * Database :=
  let '(results, database') := processCSV records database in
  (respond results, database').

(** The file that multer hands over in [req.file]: its declared type,
    its name, its size in bytes, and the records that csv-parser reads
    from its buffer. *)
Record File := mkFile {
  mimetype : string;
  originalname : string;
  file_size : Z;
  file_records : list Row
}.

(** An entry of [err.errors]: its [path] and its [message]. *)
Record FieldError := mkFieldError { fe_path : string; fe_message : string }.

(** An error object as the handlers look at it: [err.code],
    [err.message], [err.name], [err.statusCode] and [err.errors]. *)
Record ErrorObject := mkError {
  err_code : option string;
  err_message : option string;
  err_name : option string;
  err_statusCode : option Z;
  err_errors : list FieldError
}.

(** [new Error(message)] *)
Definition newError (message : string) : ErrorObject :=
  mkError None (Some message) (Some "Error") None [].

(** [fileFilter: (req, file, cb) => ..]: [None] is [cb(null, true)],
    [Some e] is [cb(e, false)]. *)
Definition fileFilter (file : File) : option ErrorObject :=
  if String.eqb (mimetype file) "text/csv"
     || JS.endsWith (JS.toLowerCase (originalname file)) ".csv"
  then None
  else Some (newError "Only CSV files are allowed").

(** A JSON body [{ success: false, error, details? }] with its status. *)
Record ErrorReply := mkErrorReply {
  er_status : Z;
  er_success : bool;
  er_error : string;
  er_details : option (list FieldError)
}.

(** What the route answers: one of its two refusals, or the response
    built from the results. *)
Inductive Reply :=
| Refused (reply : ErrorReply)
| Answered (response : Response).

Definition replyStatus (reply : Reply) : Z :=
  match reply with
  | Refused r => er_status r
  | Answered r => status r
  end.

(** The handler of [POST /upload], given [req.file]. *)
Definition uploadHandler (file : option File) (database : Database)
    : Reply * Database :=
  match file with
  | None =>
      (Refused (mkErrorReply 400 false
                  "No file uploaded. Please upload a CSV file." None),
       database)
  | Some file =>
      if file_size file =? 0 then
        (Refused (mkErrorReply 400 false "Uploaded file is empty." None),
         database)
      else
        let '(response, database') := upload (file_records file) database in
        (Answered response, database')
  end.

(** ** The error middleware (middleware/errorHandler.js) *)

(** [const errorHandler = (err, req, res, next) => ..]; [production]
    tells whether [process.env.NODE_ENV === 'production']. *)
Definition errorHandler (production : bool) (err : ErrorObject) : ErrorReply :=
  if bool_decide (err_code err = Some "LIMIT_FILE_SIZE") then
    mkErrorReply 400 false "File size exceeds the maximum limit of 10MB." None
  else if bool_decide (err_message err = Some "Only CSV files are allowed") then
    mkErrorReply 400 false (JS.toString (err_message err)) None
  else if bool_decide (err_name err = Some "SequelizeValidationError") then
    mkErrorReply 400 false "Validation error" (Some (err_errors err))
  else if bool_decide (err_name err = Some "SequelizeUniqueConstraintError") then
    mkErrorReply 409 false "A record with this data already exists." None
  else if bool_decide (err_name err = Some "SequelizeDatabaseError") then
    mkErrorReply 500 false "Database error occurred." None
  else if bool_decide (err_name err = Some "SequelizeConnectionError") then
    mkErrorReply 503 false "Unable to connect to database." None
  else
    let statusCode :=
      match err_statusCode err with
      | Some code => if code =? 0 then 500 else code
      | None => 500
      end in
    let message :=
      if JS.truthy (err_message err) then JS.toString (err_message err)
      else "Internal server error" in
    mkErrorReply statusCode false
      (if production then "An error occurred" else message) None.

(** ** The aggregation reporter (services/reportService.js) *)

(** [ORDER BY .. LIMIT n], as a database answers it: the first [n] rows
    of some arrangement of [rows] in which every row is followed only by
    rows that may come after it.  Which arrangement, when several qualify,
    is the database's choice. *)
Definition orderedLimit {A} (mayPrecede : relation A) (n : nat)
    (rows out : list A) : Prop :=
  ∃ arranged, arranged ≡ₚ rows ∧ Sorted mayPrecede arranged
              ∧ out = take n arranged.

(** [WHERE store_id = :storeId AND sold_out = false] *)
Definition available (storeId : Z) (sb : StoreBook.t) : bool :=
  (StoreBook.store_id sb =? storeId) && negb (StoreBook.sold_out sb).

(** [ORDER BY price DESC]: a row is never followed by a pricier one. *)
Definition priceDesc (x y : StoreBook.t) : Prop :=
  DECIMAL.lt (StoreBook.price x) (StoreBook.price y) = false.

(** An entry of the priciest-books list. *)
Record PricedBook := mkPricedBook {
  pb_name : string;
  pb_author : string;
  pb_pages : option Z;
  pb_price : JS.number;
  pb_copies : Z
}.

(** The callback of [storeBooks.map]: [sb.book] and [sb.book.author] are
    the rows the [include] joined in; reading a property of a missing one
    throws, which is [None] here.  [sb.price] is the text of the column,
    which [parseFloat] reads. *)
Definition pricedBook (t : Tables) (sb : StoreBook.t) : option PricedBook :=
  book ← List.find (λ b, Book.id b =? StoreBook.book_id sb) (books t);
  author ← List.find (λ a, Author.id a =? Book.author_id book) (authors t);
  Some (mkPricedBook (Book.name book) (Author.name author) (Book.pages book)
          (JS.parseFloat (DECIMAL.toText (StoreBook.price sb)))
          (StoreBook.copies sb)).

(** [StoreBook.findAll({ where, include, order, limit: 5 })] *)
Definition findAllPriciest (t : Tables) (storeId : Z)
    (storeBooks : list StoreBook.t) : Prop :=
  orderedLimit priceDesc 5
    (filter (λ sb, available storeId sb = true) (store_books t)) storeBooks.

(** [async getTopPriciestBooks(storeId)]: [Some] list when the call
    returns, [None] when the mapping throws. *)
Definition getTopPriciestBooks (t : Tables) (storeId : Z)
    (result : option (list PricedBook)) : Prop :=
  ∃ storeBooks, findAllPriciest t storeId storeBooks
                ∧ result = mapM (pricedBook t) storeBooks.

(** A row of the [FROM authors a INNER JOIN books b ON b.author_id = a.id
    INNER JOIN store_books sb ON sb.book_id = b.id WHERE ..] part. *)
Definition joinedRows (t : Tables) (storeId : Z)
    : list (Author.t * Book.t * StoreBook.t) :=
  a ← authors t;
  b ← filter (λ b, Book.author_id b = Author.id a) (books t);
  sb ← filter (λ sb, StoreBook.book_id sb = Book.id b
                     ∧ available storeId sb = true) (store_books t);
  [(a, b, sb)].

(** [GROUP BY a.id, a.name] *)
Definition groupKey (r : Author.t * Book.t * StoreBook.t) : Z * string :=
  (Author.id r.1.1, Author.name r.1.1).

Definition SUM (l : list Z) : Z := foldr Z.add 0 l.

(** [COUNT(DISTINCT ..)] *)
Definition COUNT_DISTINCT (l : list Z) : Z :=
  Z.of_nat (length (remove_dups l)).

(** A row of the SELECT: [a.id, a.name, book_count, total_copies]. *)
Record AuthorRow := mkAuthorRow {
  a_id : Z;
  a_name : string;
  book_count : Z;
  total_copies : Z
}.

Definition aggregate (rows : list (Author.t * Book.t * StoreBook.t))
    (key : Z * string) : AuthorRow :=
  let group := filter (λ r, groupKey r = key) rows in
  mkAuthorRow key.1 key.2
    (COUNT_DISTINCT ((λ r, StoreBook.book_id r.2) <$> group))
    (SUM ((λ r, StoreBook.copies r.2) <$> group)).

Definition groupedRows (t : Tables) (storeId : Z) : list AuthorRow :=
  let rows := joinedRows t storeId in
  aggregate rows <$> remove_dups (groupKey <$> rows).

(** [ORDER BY book_count DESC, total_copies DESC] *)
Definition prolificDesc (x y : AuthorRow) : Prop :=
  book_count y < book_count x
  ∨ (book_count y = book_count x ∧ total_copies y <= total_copies x).

(** An entry of the prolific-authors list. *)
Record ProlificAuthor := mkProlificAuthor {
  pa_name : string;
  bookCount : Z;
  totalCopies : Z
}.

(** The callback of [results.map]; the two aggregates arrive as decimal
    text and [parseInt] reads the integers back. *)
Definition prolificAuthor (r : AuthorRow) : ProlificAuthor :=
  mkProlificAuthor (a_name r) (book_count r) (total_copies r).

(** [async getTopProlificAuthors(storeId)] *)
Definition getTopProlificAuthors (t : Tables) (storeId : Z)
    (result : list ProlificAuthor) : Prop :=
  ∃ rows, orderedLimit prolificDesc 5 (groupedRows t storeId) rows
          ∧ result = prolificAuthor <$> rows.

(** One way for the database to answer [ORDER BY .. LIMIT]: sort, then
    cut. *)
Definition sortLimit {A} (mayPrecede : relation A)
    `{∀ x y, Decision (mayPrecede x y)} (n : nat) (rows : list A) : list A :=
  take n (merge_sort mayPrecede rows).

Global Instance priceDesc_dec x y : Decision (priceDesc x y).
Proof. unfold priceDesc. apply _. Defined.

Global Instance prolificDesc_dec x y : Decision (prolificDesc x y).
Proof. unfold prolificDesc. apply _. Defined.

(** [Store.findByPk(id)] *)
Definition Store_findByPk (id : Z) (rows : list Store.t) : option Store.t :=
  List.find (λ s, Store.id s =? id) rows.

(** [truncateText(text, maxLength)]; [text] may be [null]. *)
Definition truncateText (text : option string) (maxLength : Z) : string :=
  if JS.truthy text then
    let text := JS.toString text in
    if maxLength <? JS.length text
    then JS.substring text 0 (maxLength - 3) +:+ "..."
    else text
  else "".

(** The class [a-zA-Z0-9] of the file-name pattern. *)
Definition isAlphaNumeric (c : ascii) : bool :=
  let n := JS.code c in
  ((48 <=? n) && (n <=? 57)) || ((65 <=? n) && (n <=? 90))
  || ((97 <=? n) && (n <=? 122)).

(** [name.replace(/[^a-zA-Z0-9]/g, '-')] *)
Fixpoint dashed (name : string) : string :=
  match name with
  | EmptyString => EmptyString
  | String c name' =>
      String (if isAlphaNumeric c then c else "-"%char) (dashed name')
  end.

(** The [filename] of [generateStoreReport]; [today] is
    [new Date().toISOString().split('T')[0]]. *)
Definition reportFilename (storeName today : string) : string :=
  dashed storeName +:+ "-Report-" +:+ today +:+ ".pdf".

(** [async generateStoreReport(storeId)], at a time when [toISOString]
    writes the date as [today].  [createPDF store topBooks topAuthors]
    stands for the buffer that [createPDF] collects from pdfkit at that
    time; its bytes are not modelled.  [inl message] is an error thrown:
    the one of the service when there is no such store, or the one of
    the mapping of [getTopPriciestBooks] when a joined row is missing. *)
Definition generateStoreReport {Buffer : Type}
    (createPDF : Store.t → list PricedBook → list ProlificAuthor → Buffer)
    (t : Tables) (today : string) (storeId : Z)
    (result : string + Buffer * string) : Prop :=
  match Store_findByPk storeId (stores t) with
  | None => result = inl "Store not found"
  | Some store =>
      ∃ topPriciestBooks,
        getTopPriciestBooks t storeId topPriciestBooks
        ∧ match topPriciestBooks with
          | None => ∃ message, result = inl message
          | Some topBooks =>
              ∃ topProlificAuthors,
                getTopProlificAuthors t storeId topProlificAuthors
                ∧ result
                  = inr (createPDF store topBooks topProlificAuthors,
                         reportFilename (Store.name store) today)
          end
  end.

(** ** Notions the properties are stated with *)

(** *** Rows *)



(** The price of a row as [processRow] reads it. *)
Definition rowPrice (row : Row) : JS.number :=
  JS.parseFloat (JS.toString (row !! "price")).

(** The page count of a row as the database keeps it. *)
Definition rowPages (row : Row) : option Z :=
  if JS.truthy (row !! "pages") then JS.parseInt (JS.toString (row !! "pages"))
  else None.



(** The largest INTEGER. *)
Definition maxInteger : Z := 2147483647.

(** A cell, when it is there, has at most [n] characters. *)
Definition within (n : Z) (v : option string) : bool :=
  match v with
  | Some s => JS.length s <=? n
  | None => true
  end.





(** The price of a row as the DECIMAL(10, 2) column holds it, when it
    does. *)
Definition rowDecimal (row : Row) : string + DECIMAL.t :=
  DECIMAL.ofNumber (rowPrice row).




(** What the row validator asks of a record, with the test [priceOk] on
    the parsed price: the four required cells are there and not blank,
    the price passes the test, and a page count that is there and not
    blank reads as an integer that is at least 1. *)
Definition acceptable (priceOk : JS.number → bool) (record : Row) : Prop :=
  (∀ field, field ∈ Worker.requiredFields →
     ∃ s, record !! field = Some s ∧ JS.trim s ≠ "")
  ∧ (∀ s, record !! "price" = Some s →
       priceOk (JS.parseFloat (JS.trim s)) = true)
  ∧ (∀ s, record !! "pages" = Some s → JS.trim s ≠ "" →
       ∃ p, JS.parseInt (JS.trim s) = Some p ∧ 1 <= p).

(** *** The steps of a row *)

(** The four numbered steps of [processRow], each on its own; the body
    is their sequence ([processRowBody_stages]). *)
Definition storeStage (row : Row) : M Store.t :=
  let! (store, storeCreated) :=
    Store_findOrCreate (row !! "store_name")
      (JS.orNull (row !! "store_address")) (JS.orNull (row !! "logo")) in
  when (negb storeCreated && JS.truthy (row !! "logo")
        && bool_decide (row !! "logo" ≠ Store.logo store))
    (store_update_logo store (row !! "logo")) >>
  when (negb storeCreated && JS.truthy (row !! "store_address")
        && bool_decide (row !! "store_address" ≠ Store.address store))
    (store_update_address store (row !! "store_address")) >>
  when storeCreated (updateResults incrCreatedStores) >>
  ret store.

Definition authorStage (row : Row) : M Author.t :=
  let! (author, authorCreated) :=
    Author_findOrCreate (row !! "author_name") in
  when authorCreated (updateResults incrCreatedAuthors) >>
  ret author.

Definition bookStage (row : Row) (author : Author.t) : M Book.t :=
  let! (book, bookCreated) :=
    Book_findOrCreate (row !! "book_name") (Author.id author)
      (if JS.truthy (row !! "pages")
       then Some (JS.parseInt (JS.toString (row !! "pages")))
       else None) in
  when (negb bookCreated && JS.truthy (row !! "pages"))
    (let pages := JS.parseInt (JS.toString (row !! "pages")) in
     when (match pages with
           | Some p => bool_decide (Some p ≠ Book.pages book)
           | None => true
           end)
       (book_update_pages book pages)) >>
  when bookCreated (updateResults incrCreatedBooks) >>
  ret book.

Definition inventoryStage (row : Row) (store : Store.t) (book : Book.t)
    : M unit :=
  let price := JS.parseFloat (JS.toString (row !! "price")) in
  when (JS.isNaN price || JS.lt price JS.zero)
    (throw ("Invalid price value: " +:+ JS.toString (row !! "price"))) >>
  let! existingInventory :=
    StoreBook_findOne (Store.id store) (Book.id book) in
  match existingInventory with
  | Some existingInventory =>
      inventory_update existingInventory
        (StoreBook.copies existingInventory + 1) price false >>
      updateResults incrUpdatedInventory
  | None =>
      StoreBook_create (Store.id store) (Book.id book) price 1 false >>
      updateResults incrCreatedInventory
  end.

(** The observations of the state that the frame lemmas speak of. *)
Definition storesOf (st : State) : list Store.t := stores (tables (db st)).
Definition authorsOf (st : State) : list Author.t := authors (tables (db st)).
Definition booksOf (st : State) : list Book.t := books (tables (db st)).
Definition inventoryOf (st : State) : list StoreBook.t :=
  store_books (tables (db st)).

(** What the two conditional updates of step 1 make of a row [s] of the
    [stores] table when [store] is the store that was found. *)
Definition refreshed (row : Row) (store s : Store.t) : Store.t :=
  if Store.id s =? Store.id store then
    Store.mk (Store.id s) (Store.name s)
      (if JS.truthy (row !! "store_address")
          && bool_decide (row !! "store_address" ≠ Store.address store)
       then row !! "store_address" else Store.address s)
      (if JS.truthy (row !! "logo")
          && bool_decide (row !! "logo" ≠ Store.logo store)
       then row !! "logo" else Store.logo s)
  else s.

(** What the conditional update of step 3 makes of a row [b] of the
    [books] table when [book] is the book that was found. *)
Definition repaged (row : Row) (book b : Book.t) : Book.t :=
  if Book.id b =? Book.id book then
    match rowPages row with
    | Some p =>
        if bool_decide (Some p ≠ Book.pages book)
        then Book.mk (Book.id b) (Book.name b) (Some p) (Book.author_id b)
        else b
    | None => b
    end
  else b.

(** What step 4 makes of a row [sb] of the [store_books] table when
    [existing] is the position that was found and [price] is what the
    column makes of the price of the row. *)
Definition restocked (price : DECIMAL.t) (existing sb : StoreBook.t)
    : StoreBook.t :=
  if StoreBook.hasKey (StoreBook.store_id existing)
       (StoreBook.book_id existing) sb
  then StoreBook.mk (StoreBook.store_id sb) (StoreBook.book_id sb)
         price (StoreBook.copies existing + 1) false
  else sb.




(** [frame f m]: running [m] leaves the observation [f] of the state as
    it was, whether [m] returns or throws. *)
Definition frame {X A} (f : State → X) (m : M A) : Prop :=
  ∀ st, f (m st).2 = f st.

(** The part of the result object that only the last statement of a
    successful row and the loop of [processCSV] may change. *)
Definition tally (st : State) : Z * list RowError * Z * Z :=
  (processed (results st), errors (results st),
   created_inventory (results st), updated_inventory (results st)).

(** [counts m]: [m] leaves [processed] and [errors] alone and adds one
    inventory position to the counters, created or updated, exactly when
    it returns. *)
Definition counts (m : M unit) : Prop :=
  ∀ st,
    let r := results st in
    let r' := results (m st).2 in
    processed r' = processed r ∧ errors r' = errors r
    ∧ match (m st).1 with
      | inl _ => created_inventory r' = created_inventory r
                 ∧ updated_inventory r' = updated_inventory r
      | inr _ => (created_inventory r' = created_inventory r + 1
                  ∧ updated_inventory r' = updated_inventory r)
                 ∨ (created_inventory r' = created_inventory r
                    ∧ updated_inventory r' = updated_inventory r + 1)
      end.

(** *** Reports *)

(** Equal prices keep the order the rows have in [table]. *)
Definition tiesInTableOrder (table out : list StoreBook.t) : Prop :=
  ∀ (i j : nat) x y,
    out !! i = Some x → out !! j = Some y → (i < j)%nat →
    StoreBook.price x = StoreBook.price y →
    ∃ i' j' : nat, table !! i' = Some x ∧ table !! j' = Some y ∧ (i' < j')%nat.

(** The non-sold-out positions of a store that hold a book of an author. *)
Definition writtenBy (t : Tables) (a : Author.t) (sb : StoreBook.t) : Prop :=
  ∃ b, b ∈ books t ∧ Book.id b = StoreBook.book_id sb
       ∧ Book.author_id b = Author.id a.

Global Instance writtenBy_dec t a sb : Decision (writtenBy t a sb).
Proof.
  refine (cast_if (decide (Exists (λ b, Book.id b = StoreBook.book_id sb
                                        ∧ Book.author_id b = Author.id a)
                             (books t))));
    unfold writtenBy; rewrite Exists_exists in *; naive_solver.
Defined.

Definition availablePositions (t : Tables) (storeId : Z) (a : Author.t)
    : list StoreBook.t :=
  filter (λ sb, available storeId sb = true ∧ writtenBy t a sb) (store_books t).

(** The primary keys of src/models hold. *)
Record primaryKeys (t : Tables) : Prop := {
  pk_authors : NoDup (Author.id <$> authors t);
  pk_books : NoDup (Book.id <$> books t);
  pk_store_books :
    NoDup ((λ sb, (StoreBook.store_id sb, StoreBook.book_id sb))
           <$> store_books t)
}.

(** An author as the prolific-authors list should show him: his name, the
    number of distinct books among his available positions in the store,
    and the copies of these positions added up. *)
Definition authorSummary (t : Tables) (storeId : Z) (a : Author.t)
    : ProlificAuthor :=
  mkProlificAuthor (Author.name a)
    (COUNT_DISTINCT (StoreBook.book_id <$> availablePositions t storeId a))
    (SUM (StoreBook.copies <$> availablePositions t storeId a)).

(** More books first; with as many books, more copies first. *)
Definition outranks (x y : ProlificAuthor) : Prop :=
  bookCount y < bookCount x
  ∨ (bookCount y = bookCount x ∧ totalCopies y <= totalCopies x).

(** The joined rows of one author. *)
Definition authorBlock (t : Tables) (storeId : Z) (a : Author.t)
    : list (Author.t * Book.t * StoreBook.t) :=
  b ← filter (λ b, Book.author_id b = Author.id a) (books t);
  sb ← filter (λ sb, StoreBook.book_id sb = Book.id b
                     ∧ available storeId sb = true) (store_books t);
  [(a, b, sb)].

(** *** Sample data *)

(** The line of the specification's scenario. *)
Definition gatsby : Row :=
  list_to_map [("store_name", "BookWorld"); ("store_address", "");
               ("book_name", "Gatsby"); ("pages", "180");
               ("author_name", "Fitzgerald"); ("price", "15.99");
               ("logo", "")].

(** Gatsby at a negative price. *)
Definition negativePrice : Row := <["price" := "-3"]> gatsby.

(** A database in which BookWorld holds four sold-out copies of Gatsby
    at 9.5. *)
Definition stocked : Database :=
  mkDatabase
    (mkTables [Store.mk 1 "BookWorld" (Some "12 Main St") None]
       [Author.mk 1 "Fitzgerald"]
       [Book.mk 1 "Gatsby" (Some 180) 1]
       [StoreBook.mk 1 1 (DECIMAL.hundredths 950) 4 true])
    (mkSequences 2 2 2).

(** Two books of one author at the same price in one store, stocked in
    the order Emma, Persuasion. *)
Definition emmaPosition : StoreBook.t :=
  StoreBook.mk 1 1 (DECIMAL.hundredths 2500) 1 false.
Definition persuasionPosition : StoreBook.t :=
  StoreBook.mk 1 2 (DECIMAL.hundredths 2500) 1 false.
Definition tiedPrices : Tables :=
  mkTables [Store.mk 1 "BookWorld" None None] [Author.mk 1 "Austen"]
    [Book.mk 1 "Emma" None 1; Book.mk 2 "Persuasion" None 1]
    [emmaPosition; persuasionPosition].

(** The scenario of the specification: positions priced 9.99, 25.00,
    25.00 and 3.50 in one store, the third one sold out. *)
Definition fourPrices : Tables :=
  mkTables [Store.mk 1 "BookWorld" None None] [Author.mk 1 "Austen"]
    [Book.mk 1 "Emma" None 1; Book.mk 2 "Persuasion" None 1;
     Book.mk 3 "Sanditon" None 1; Book.mk 4 "Lady Susan" None 1]
    [StoreBook.mk 1 1 (DECIMAL.hundredths 999) 1 false;
     StoreBook.mk 1 2 (DECIMAL.hundredths 2500) 1 false;
     StoreBook.mk 1 3 (DECIMAL.hundredths 2500) 0 true;
     StoreBook.mk 1 4 (DECIMAL.hundredths 350) 2 false].

(** The scenario of the specification: author A with two books and three
    copies in all, author B with two books and five copies in all. *)
Definition twoAuthors : Tables :=
  mkTables [Store.mk 1 "BookWorld" None None]
    [Author.mk 1 "A"; Author.mk 2 "B"]
    [Book.mk 1 "A1" None 1; Book.mk 2 "A2" None 1;
     Book.mk 3 "B1" None 2; Book.mk 4 "B2" None 2]
    [StoreBook.mk 1 1 (DECIMAL.hundredths 1000) 1 false;
     StoreBook.mk 1 2 (DECIMAL.hundredths 1000) 2 false;
     StoreBook.mk 1 3 (DECIMAL.hundredths 1000) 4 false;
     StoreBook.mk 1 4 (DECIMAL.hundredths 1000) 1 false].

(** *** The database as a whole *)

(** The keys that src/models declares, table by table.  [next] is the
    next value of the table's id sequence. *)
Record storesOk (rows : list Store.t) (next : Z) : Prop := {
  stores_id_key : NoDup (Store.id <$> rows);
  stores_name_key : NoDup (Store.name <$> rows);
  stores_id_drawn : Forall (λ i, i < next) (Store.id <$> rows)
}.

Record authorsOk (rows : list Author.t) (next : Z) : Prop := {
  authors_id_key : NoDup (Author.id <$> rows);
  authors_name_key : NoDup (Author.name <$> rows);
  authors_id_drawn : Forall (λ i, i < next) (Author.id <$> rows)
}.

Record booksOk (rows : list Book.t) (next : Z) (authorIds : list Z) : Prop := {
  books_id_key : NoDup (Book.id <$> rows);
  books_name_key : NoDup ((λ b, (Book.name b, Book.author_id b)) <$> rows);
  books_id_drawn : Forall (λ i, i < next) (Book.id <$> rows);
  books_author : Forall (λ i, i ∈ authorIds) (Book.author_id <$> rows)
}.

Record inventoryOk (rows : list StoreBook.t) (storeIds bookIds : list Z)
    : Prop := {
  store_books_key :
    NoDup ((λ sb, (StoreBook.store_id sb, StoreBook.book_id sb)) <$> rows);
  store_books_store :
    Forall (λ i, i ∈ storeIds) (StoreBook.store_id <$> rows);
  store_books_book : Forall (λ i, i ∈ bookIds) (StoreBook.book_id <$> rows)
}.

(** A consistent database: primary keys and unique indexes hold, every
    id is below the next value of its sequence, and every reference finds
    its row. *)
Record consistent (d : Database) : Prop := {
  consistent_stores :
    storesOk (stores (tables d)) (stores_id_seq (sequences d));
  consistent_authors :
    authorsOk (authors (tables d)) (authors_id_seq (sequences d));
  consistent_books :
    booksOk (books (tables d)) (books_id_seq (sequences d))
      (Author.id <$> authors (tables d));
  consistent_inventory :
    inventoryOk (store_books (tables d)) (Store.id <$> stores (tables d))
      (Book.id <$> books (tables d))
}.

(** A position as [processRow] writes it: at least one copy, not sold
    out, at a price that is a number and not negative. *)
Definition onOffer (sb : StoreBook.t) : Prop :=
  1 <= StoreBook.copies sb ∧ StoreBook.sold_out sb = false
  ∧ ∃ c, StoreBook.price sb = DECIMAL.hundredths c ∧ 0 <= c.

(** The copies of all positions together. *)
Definition copiesIn (t : Tables) : Z := SUM (StoreBook.copies <$> store_books t).

(** What a statement may do to the id sequences and to the three
    counters of created entities, whether it returns or throws: move them
    up. *)
Definition advances (st st' : State) : Prop :=
  stores_id_seq (sequences (db st)) <= stores_id_seq (sequences (db st'))
  ∧ authors_id_seq (sequences (db st)) <= authors_id_seq (sequences (db st'))
  ∧ books_id_seq (sequences (db st)) <= books_id_seq (sequences (db st'))
  ∧ created_stores (results st) <= created_stores (results st')
  ∧ created_authors (results st) <= created_authors (results st')
  ∧ created_books (results st) <= created_books (results st').

(** The state in which [processCSV] enters its loop. *)
Definition initialState (records : list Row) (database : Database) : State :=
  mkState database
    (mkResults 0 0 0 0 0 0
       ([] ++ Worker.validationErrors (Worker.csvParserWorker records))).

(** How far the four counters of created rows are ahead of the sizes of
    their tables. *)
Definition ahead (st : State) : Z * Z * Z * Z :=
  (created_stores (results st) - Z.of_nat (length (storesOf st)),
   created_authors (results st) - Z.of_nat (length (authorsOf st)),
   created_books (results st) - Z.of_nat (length (booksOf st)),
   created_inventory (results st) - Z.of_nat (length (inventoryOf st))).

(** The record an entry of the error list, or a validated row, stands
    for: its ordinal and its cells. *)
Definition errorKey (e : RowError) : Z * Row := (row e, row_data e).
Definition rowKey (v : ValidatedRow) : Z * Row := (rowNumber v, data v).

(** *** Texts *)

(** The characters of a date as [toISOString] writes it, and those of a
    file name that needs no quoting. *)
Definition dateChar (c : ascii) : bool := JS.isDigit c || (JS.code c =? 45).

Definition fileNameChar (c : ascii) : bool :=
  isAlphaNumeric c || (JS.code c =? 45) || (JS.code c =? 46).

(** *** More sample data *)

(** Gatsby again, with an address for the store and another page
    count. *)
Definition gatsbyMoved : Row :=
  <["store_address" := "5 Elm St"]> (<["pages" := "200"]> gatsby).

(** The two positions at the same price, as a database. *)
Definition austenShelf : Database :=
  mkDatabase tiedPrices (mkSequences 2 2 3).


(** Emma and Persuasion at the same price, and the database after Emma
    was stocked, then Persuasion, then Emma once more. *)
Definition emmaRow : Row :=
  list_to_map [("store_name", "BookWorld"); ("book_name", "Emma");
               ("author_name", "Austen"); ("price", "25.00")].
Definition persuasionRow : Row := <["book_name" := "Persuasion"]> emmaRow.
Definition restockedShelf : Database :=
  (processCSV [emmaRow; persuasionRow; emmaRow] emptyDatabase).2.
Definition restockedTables : Tables :=
  mkTables [Store.mk 1 "BookWorld" None None] [Author.mk 1 "Austen"]
    [Book.mk 1 "Emma" None 1; Book.mk 2 "Persuasion" None 1]
    [StoreBook.mk 1 1 (DECIMAL.hundredths 2500) 2 false;
     StoreBook.mk 1 2 (DECIMAL.hundredths 2500) 1 false].

(** A CSV file whose only row has a negative price. *)
Definition badBatch : File := mkFile "text/csv" "stock.csv" 64 [negativePrice].

Example parseFloat_15_99 :
  JS.parseFloat "15.99" = S754_finite false 9001569755206779 (-49).
Proof. vm_compute. reflexivity. Qed.

Example validateRow_gatsby : Worker.validateRow gatsby 2 = Worker.Valid.
Proof. vm_compute. reflexivity. Qed.

Example validateRow_missing :
  Worker.validateRow (delete "author_name" (delete "price" gatsby)) 7
  = Worker.Invalid "Row 7: Missing required fields: author_name, price".
Proof. vm_compute. reflexivity. Qed.

(** The scenario of the specification: the same line ingested twice. *)
Example gatsby_first :
  processCSV [gatsby] emptyDatabase =
  (mkResults 1 1 1 1 1 0 [],
   mkDatabase
     (mkTables [Store.mk 1 "BookWorld" None None] [Author.mk 1 "Fitzgerald"]
        [Book.mk 1 "Gatsby" (Some 180) 1]
        [StoreBook.mk 1 1 (DECIMAL.hundredths 1599) 1 false])
     (mkSequences 2 2 2)).
Proof. vm_compute. reflexivity. Qed.

Example gatsby_second :
  processCSV [gatsby] (snd (processCSV [gatsby] emptyDatabase)) =
  (mkResults 1 0 0 0 0 1 [],
   mkDatabase
     (mkTables [Store.mk 1 "BookWorld" None None] [Author.mk 1 "Fitzgerald"]
        [Book.mk 1 "Gatsby" (Some 180) 1]
        [StoreBook.mk 1 1 (DECIMAL.hundredths 1599) 2 false])
     (mkSequences 2 2 2)).
Proof. vm_compute. reflexivity. Qed.

(** A row that fails at the price: nothing of it is in the tables, its
    error is in the list, and the three counters that were incremented on
    the way stay incremented. *)
Example negativePrice_alone :
  processCSV [negativePrice] emptyDatabase =
  (mkResults 0 1 1 1 0 0 [mkRowError 2 negativePrice "Invalid price value: -3"],
   mkDatabase emptyTables (mkSequences 2 2 2)).
Proof. vm_compute. reflexivity. Qed.

(** The failure of one row leaves the next one alone. *)
Example negativePrice_then_gatsby :
  tables (processCSV [negativePrice; gatsby] emptyDatabase).2
  = mkTables [Store.mk 2 "BookWorld" None None] [Author.mk 2 "Fitzgerald"]
      [Book.mk 2 "Gatsby" (Some 180) 2]
      [StoreBook.mk 2 2 (DECIMAL.hundredths 1599) 1 false].
Proof. vm_compute. reflexivity. Qed.

(** The priciest books of the four-prices scenario when the database
    sorts and cuts: the sold-out position is left out. *)
Example fourPrices_priciest :
  mapM (pricedBook fourPrices)
    (sortLimit priceDesc 5
       (filter (λ sb, available 1 sb = true) (store_books fourPrices)))
  = Some [mkPricedBook "Persuasion" "Austen" None (JS.parseFloat "25.00") 1;
          mkPricedBook "Emma" "Austen" None (JS.parseFloat "9.99") 1;
          mkPricedBook "Lady Susan" "Austen" None (JS.parseFloat "3.50") 2].
Proof. vm_compute. reflexivity. Qed.

(** Author B, with as many books as author A and more copies, comes
    first. *)
Example twoAuthors_prolific :
  prolificAuthor <$> sortLimit prolificDesc 5 (groupedRows twoAuthors 1)
  = [mkProlificAuthor "B" 2 5; mkProlificAuthor "A" 2 3].
Proof. vm_compute. reflexivity. Qed.

(** * Properties *)

(** ** The row validator and the worker *)

Section WorkerFacts.

Import Worker.


Lemma truthy_Some s : JS.truthy (Some s) = true ↔ s ≠ "".
Proof. destruct s; simpl; split; congruence. Qed.

Lemma truthy_mapValues (record : Row) field :
  JS.truthy ((mapValues <$> record) !! field) = true
  ↔ ∃ s, record !! field = Some s ∧ JS.trim s ≠ "".
Proof.
  rewrite lookup_fmap. destruct (record !! field) as [s|]; simpl.
  - fold (JS.truthy (Some (mapValues s))). rewrite truthy_Some.
    unfold mapValues. split.
    + intros Hs. exists s. done.
    + intros (s' & [= <-] & Hs). done.
  - split; [done|]. intros (s & ? & _). done.
Qed.

Lemma filter_none {A} (P : A → Prop) `{∀ x, Decision (P x)} (l : list A) :
  (0 <? Z.of_nat (length (filter P l))) = false ↔ ∀ x, x ∈ l → ¬ P x.
Proof.
  rewrite Z.ltb_ge. split.
  - intros Hlen x Hx HP.
    assert (Hin : x ∈ filter P l) by (apply list_elem_of_filter; done).
    destruct (filter P l); [by apply not_elem_of_nil in Hin|].
    simpl in Hlen. lia.
  - intros Hall. induction l as [|x l IH]; [done|].
    rewrite filter_cons_False.
    + apply IH. intros y Hy. apply Hall. by right.
    + apply Hall. by left.
Qed.

Lemma validateAll_validated rows : ∀ i vs es v,
  v ∈ (validateAll rows i vs es).1
  ↔ v ∈ vs
    ∨ ∃ (k : nat) r, rows !! k = Some r
        ∧ validateRow r (i + Z.of_nat k + 2) = Valid
        ∧ v = mkValidatedRow (i + Z.of_nat k + 2) r.
Proof.
  induction rows as [|r0 rows IH]; intros i vs es v; simpl.
  - split; [by left|]. intros [?|(k & r & Hk & _)]; [done|].
    by rewrite lookup_nil in Hk.
  - destruct (validateRow r0 (i + 2)) eqn:Hv; rewrite IH.
    + rewrite elem_of_app, list_elem_of_singleton. split.
      * intros [[?| -> ]|(k & r & Hk & Hr & ->)]; [by left | right ..].
        -- exists 0%nat, r0. replace (i + Z.of_nat 0 + 2) with (i + 2) by lia.
           done.
        -- exists (S k), r.
           replace (i + Z.of_nat (S k) + 2) with (i + 1 + Z.of_nat k + 2) by lia.
           done.
      * intros [?|(k & r & Hk & Hr & ->)]; [by left; left|].
        destruct k as [|k]; simpl in Hk.
        -- left; right. injection Hk as <-. f_equal. lia.
        -- right. exists k, r.
           replace (i + 1 + Z.of_nat k + 2) with (i + Z.of_nat (S k) + 2) by lia.
           done.
    + split.
      * intros [?|(k & r & Hk & Hr & ->)]; [by left|right].
        exists (S k), r.
        replace (i + Z.of_nat (S k) + 2) with (i + 1 + Z.of_nat k + 2) by lia.
        done.
      * intros [?|(k & r & Hk & Hr & ->)]; [by left|].
        destruct k as [|k]; simpl in Hk.
        -- injection Hk as <-.
           replace (i + Z.of_nat 0 + 2) with (i + 2) in Hr by lia. congruence.
        -- right. exists k, r.
           replace (i + 1 + Z.of_nat k + 2) with (i + Z.of_nat (S k) + 2) by lia.
           done.
Qed.

Lemma validateAll_errors rows : ∀ i vs es e,
  e ∈ (validateAll rows i vs es).2
  ↔ e ∈ es
    ∨ ∃ (k : nat) r msg, rows !! k = Some r
        ∧ validateRow r (i + Z.of_nat k + 2) = Invalid msg
        ∧ e = mkRowError (i + Z.of_nat k + 2) r msg.
Proof.
  induction rows as [|r0 rows IH]; intros i vs es e; simpl.
  - split; [by left|]. intros [?|(k & r & msg & Hk & _)]; [done|].
    by rewrite lookup_nil in Hk.
  - destruct (validateRow r0 (i + 2)) eqn:Hv; rewrite IH.
    + split.
      * intros [?|(k & r & msg & Hk & Hr & ->)]; [by left|right].
        exists (S k), r, msg.
        replace (i + Z.of_nat (S k) + 2) with (i + 1 + Z.of_nat k + 2) by lia.
        done.
      * intros [?|(k & r & msg & Hk & Hr & ->)]; [by left|].
        destruct k as [|k]; simpl in Hk.
        -- injection Hk as <-.
           replace (i + Z.of_nat 0 + 2) with (i + 2) in Hr by lia. congruence.
        -- right. exists k, r, msg.
           replace (i + 1 + Z.of_nat k + 2) with (i + Z.of_nat (S k) + 2) by lia.
           done.
    + rewrite elem_of_app, list_elem_of_singleton. split.
      * intros [[?| -> ]|(k & r & msg & Hk & Hr & ->)]; [by left | right ..].
        -- exists 0%nat, r0, error0.
           replace (i + Z.of_nat 0 + 2) with (i + 2) by lia. done.
        -- exists (S k), r, msg.
           replace (i + Z.of_nat (S k) + 2) with (i + 1 + Z.of_nat k + 2) by lia.
           done.
      * intros [?|(k & r & msg & Hk & Hr & ->)]; [by left; left|].
        destruct k as [|k]; simpl in Hk.
        -- left; right. injection Hk as <-.
           replace (i + Z.of_nat 0 + 2) with (i + 2) in Hr by lia.
           rewrite Hv in Hr. injection Hr as <-. f_equal. lia.
        -- right. exists k, r, msg.
           replace (i + 1 + Z.of_nat k + 2) with (i + Z.of_nat (S k) + 2) by lia.
           done.
Qed.

End WorkerFacts.

(** C8. The k-th data record (counting from 0) carries the ordinal k + 2
    wherever the worker puts it: the validated rows are exactly the
    accepted records paired with their position plus two, and the
    validation errors are exactly the rejected records with their position
    plus two and the validator's message. *)
Theorem row_ordinals (records : list Row) :
  let rows := Worker.parseCSV records in
  let out := Worker.csvParserWorker records in
  (∀ v, v ∈ Worker.validatedRows out
        ↔ ∃ (k : nat) r, rows !! k = Some r
            ∧ Worker.validateRow r (Z.of_nat k + 2) = Worker.Valid
            ∧ v = mkValidatedRow (Z.of_nat k + 2) r)
  ∧ (∀ e, e ∈ Worker.validationErrors out
        ↔ ∃ (k : nat) r msg, rows !! k = Some r
            ∧ Worker.validateRow r (Z.of_nat k + 2) = Worker.Invalid msg
            ∧ e = mkRowError (Z.of_nat k + 2) r msg).
Proof.
  intros rows out. subst out. unfold Worker.csvParserWorker. fold rows.
  pose proof (validateAll_validated rows 0 [] []) as Hv.
  pose proof (validateAll_errors rows 0 [] []) as He.
  destruct (Worker.validateAll rows 0 [] []) as [vs es]. simpl in *.
  split.
  - intros v. rewrite Hv. split.
    + intros [H|H]; [by apply not_elem_of_nil in H|]. exact H.
    + intros H. right. exact H.
  - intros e. rewrite He. split.
    + intros [H|H]; [by apply not_elem_of_nil in H|]. exact H.
    + intros H. right. exact H.
Qed.

(** The validator lets a price of [Infinity] through: acceptance does
    not require a finite price. *)
Lemma validateRow_infinite_price :
  let record : Row := <["price" := "Infinity"]> gatsby in
  ¬ (Worker.validateRow (Worker.mapValues <$> record) 2 = Worker.Valid
     ↔ acceptable JS.isFinite record).
Proof.
  intros record [Hacc _].
  assert (Hv : Worker.validateRow (Worker.mapValues <$> record) 2 = Worker.Valid)
    by (vm_compute; reflexivity).
  destruct (Hacc Hv) as (_ & Hprice & _).
  specialize (Hprice "Infinity" eq_refl). vm_compute in Hprice. discriminate.
Qed.

(** C4 (amended). [validateRow] accepts the row made from a record if and
    only if store name, book name, author name and price are present and
    not blank after trimming, the price parses to a number other than NaN
    (any sign, infinite included), and the page count, when present and
    not blank, parses to an integer that is at least 1.  A rejection
    carries a message that starts with the row's ordinal and goes on with
    a reason. *)
Theorem validateRow_accepts_iff (record : Row) (n : Z) :
  let row : Row := Worker.mapValues <$> record in
  (Worker.validateRow row n = Worker.Valid
   ↔ acceptable (λ price, negb (JS.isNaN price)) record)
  ∧ (∀ msg, Worker.validateRow row n = Worker.Invalid msg →
       ∃ reason, reason ≠ ""
                 ∧ msg = "Row " +:+ pretty n +:+ ": " +:+ reason).
Proof.
  intros row. unfold Worker.validateRow, acceptable.
  destruct (0 <? Z.of_nat (length (filter
              (λ field, JS.truthy (row !! field) = false)
              Worker.requiredFields))) eqn:Hmissing.
  { split.
    - split; [done|]. intros (Hreq & _). exfalso.
      apply not_false_iff_true in Hmissing. apply Hmissing.
      apply (filter_none (λ field, JS.truthy (row !! field) = false)).
      intros f Hf.
      apply not_false_iff_true, truthy_mapValues, Hreq, Hf.
    - intros msg [= <-]. eexists. split; [|reflexivity]. done. }
  pose proof (proj1 (filter_none (λ field, JS.truthy (row !! field) = false)
                       Worker.requiredFields) Hmissing) as Hfields.
  clear Hmissing. rename Hfields into Hmissing.
  assert (Hreq : ∀ field, field ∈ Worker.requiredFields →
            ∃ s, record !! field = Some s ∧ JS.trim s ≠ "").
  { intros f Hf. apply truthy_mapValues, not_false_iff_true, Hmissing, Hf. }
  destruct (Hreq "price") as (sp & Hsp & Hsp').
  { apply list_elem_of_In. simpl. tauto. }
  assert (Hprice : row !! "price" = Some (JS.trim sp)).
  { unfold row. rewrite lookup_fmap, Hsp. done. }
  rewrite Hprice. simpl JS.toString.
  destruct (JS.isNaN (JS.parseFloat (JS.trim sp))) eqn:Hnan.
  { split.
    - split; [done|]. intros (_ & Hp & _).
      specialize (Hp sp Hsp). rewrite Hnan in Hp. done.
    - intros msg [= <-]. eexists. split; [|reflexivity]. done. }
  assert (Hp : ∀ s, record !! "price" = Some s →
                negb (JS.isNaN (JS.parseFloat (JS.trim s))) = true).
  { intros s Hs. rewrite Hsp in Hs. injection Hs as <-. by rewrite Hnan. }
  destruct (JS.truthy (row !! "pages")) eqn:Hpages.
  - apply truthy_mapValues in Hpages as (sg & Hsg & Hsg').
    assert (Hrow : row !! "pages" = Some (JS.trim sg)).
    { unfold row. rewrite lookup_fmap, Hsg. done. }
    rewrite Hrow. simpl JS.toString.
    destruct (JS.parseInt (JS.trim sg)) as [p|] eqn:Hint.
    + destruct (p <? 1) eqn:Hlt.
      * split.
        -- split; [done|]. intros (_ & _ & Hg).
           destruct (Hg sg Hsg Hsg') as (p' & Heq & Hge).
           apply Z.ltb_lt in Hlt. simplify_eq. lia.
        -- intros msg [= <-]. eexists. split; [|reflexivity]. done.
      * split; [|done]. split; [|done]. intros _.
        split; [done|]. split; [done|].
        intros s Hs _. rewrite Hsg in Hs. injection Hs as <-.
        exists p. split; [done|]. apply Z.ltb_ge in Hlt. lia.
    + split.
      * split; [done|]. intros (_ & _ & Hg).
        destruct (Hg sg Hsg Hsg') as (p' & Heq & _). simplify_eq.
      * intros msg [= <-]. eexists. split; [|reflexivity]. done.
  - split; [|done]. split; [|done]. intros _.
    split; [done|]. split; [done|].
    intros s Hs Hs'. exfalso.
    apply not_true_iff_false in Hpages. apply Hpages.
    apply truthy_mapValues. eauto.
Qed.

(** ** Reasoning about computations *)

Section Computations.

Context {A B : Type}.


Lemma bind_inv (m : M A) (k : A → M B) st r st2 :
  bind m k st = (r, st2) →
  (∃ a st1, m st = (inr a, st1) ∧ k a st1 = (r, st2))
  ∨ (∃ message, m st = (inl message, st2) ∧ r = inl message).
Proof.
  unfold bind. destruct (m st) as [[message|a] st1].
  - intros [= <- <-]. right. eauto.
  - intros Hk. left. eauto.
Qed.

End Computations.

Section Frames.

Context {X : Type} (f : State → X).

Lemma frame_ret {A} (a : A) : frame f (ret a).
Proof. intros st. reflexivity. Qed.

Lemma frame_throw {A} message : frame f (@throw A message).
Proof. intros st. reflexivity. Qed.

Lemma frame_bind {A B} (m : M A) (k : A → M B) :
  frame f m → (∀ a, frame f (k a)) → frame f (bind m k).
Proof.
  intros Hm Hk st. unfold bind. specialize (Hm st).
  destruct (m st) as [[message|a] st1]; simpl in *; [done|].
  rewrite Hk. done.
Qed.

Lemma frame_when b (m : M unit) : frame f m → frame f (when b m).
Proof. destruct b; simpl; [done|]. intros _. apply frame_ret. Qed.

Lemma frame_validated check : frame f (validated check).
Proof. destruct check; intros st; reflexivity. Qed.

Lemma frame_whereValue field v : frame f (whereValue field v).
Proof. destruct v; intros st; reflexivity. Qed.

Lemma frame_integer n : frame f (integer n).
Proof. intros st. unfold integer. case_match; reflexivity. Qed.

Lemma frame_integerOrNull v : frame f (integerOrNull v).
Proof.
  destruct v as [[n|]|]; intros st; try reflexivity.
  unfold integerOrNull, integer, bind.
  destruct ((-2147483648 <=? n) && (n <=? 2147483647)); reflexivity.
Qed.

Lemma frame_varchar n s : frame f (varchar n s).
Proof. intros st. unfold varchar. case_match; reflexivity. Qed.

Lemma frame_varcharOrNull n v : frame f (varcharOrNull n v).
Proof. destruct v; [apply frame_varchar|intros st; reflexivity]. Qed.

Lemma frame_nextval sequence next : frame f (nextval sequence next).
Proof. intros st. unfold nextval. case_match; reflexivity. Qed.

Lemma frame_decimal price : frame f (decimal price).
Proof. intros st. unfold decimal. case_match; reflexivity. Qed.

Lemma frame_getTables : frame f getTables.
Proof. intros st. reflexivity. Qed.

Lemma frame_getSequences : frame f getSequences.
Proof. intros st. reflexivity. Qed.

Lemma frame_commit t : frame f (commit t).
Proof. intros st. reflexivity. Qed.

End Frames.

Create HintDb frames discriminated.

#[export] Hint Resolve frame_ret frame_throw frame_validated frame_whereValue
  frame_integer frame_integerOrNull frame_varchar frame_varcharOrNull
  frame_nextval frame_decimal frame_getTables frame_getSequences
  frame_commit : frames.

(** Splits a computation along its binds and conditionals, down to the
    statements that the [frames] hints cover. *)
Ltac frame_steps :=
  repeat first
    [ apply frame_bind; [|intros ?]
    | apply frame_when
    | progress (eauto with frames)
    | match goal with
      | p : _ * _ |- _ => destruct p
      | o : option _ |- frame _ (match ?o with _ => _ end) => destruct o
      end ].

(** *** Statements that leave the result object alone *)

Lemma frame_results_setTables t : frame results (setTables t).
Proof. intros st. reflexivity. Qed.

Lemma frame_results_modifyTables g : frame results (modifyTables g).
Proof. intros st. reflexivity. Qed.

Lemma frame_results_setSequences s : frame results (setSequences s).
Proof. intros st. reflexivity. Qed.

#[export] Hint Resolve frame_results_setTables frame_results_modifyTables
  frame_results_setSequences : frames.

Lemma frame_results_Store_findOrCreate name address logo :
  frame results (Store_findOrCreate name address logo).
Proof.
  unfold Store_findOrCreate, Store_create. frame_steps.
Qed.

Lemma frame_results_store_update_logo store logo :
  frame results (store_update_logo store logo).
Proof. unfold store_update_logo. frame_steps. Qed.

Lemma frame_results_store_update_address store address :
  frame results (store_update_address store address).
Proof. unfold store_update_address. frame_steps. Qed.

Lemma frame_results_Author_findOrCreate name :
  frame results (Author_findOrCreate name).
Proof.
  unfold Author_findOrCreate, Author_create. frame_steps.
Qed.

Lemma frame_results_Book_findOrCreate name author_id pages :
  frame results (Book_findOrCreate name author_id pages).
Proof.
  unfold Book_findOrCreate, Book_create. frame_steps.
Qed.

Lemma frame_results_book_update_pages book pages :
  frame results (book_update_pages book pages).
Proof. unfold book_update_pages. frame_steps. Qed.

Lemma frame_results_StoreBook_findOne s b :
  frame results (StoreBook_findOne s b).
Proof. unfold StoreBook_findOne. frame_steps. Qed.

Lemma frame_results_inventory_update inv copies price sold_out :
  frame results (inventory_update inv copies price sold_out).
Proof. unfold inventory_update. frame_steps. Qed.

Lemma frame_results_StoreBook_create s b price copies sold_out :
  frame results (StoreBook_create s b price copies sold_out).
Proof. unfold StoreBook_create. frame_steps. Qed.

#[export] Hint Resolve frame_results_Store_findOrCreate
  frame_results_store_update_logo frame_results_store_update_address
  frame_results_Author_findOrCreate frame_results_Book_findOrCreate
  frame_results_book_update_pages frame_results_StoreBook_findOne
  frame_results_inventory_update frame_results_StoreBook_create : frames.

Lemma frame_compose {X Y A} (f : State → X) (g : X → Y) (m : M A) :
  frame f m → frame (λ st, g (f st)) m.
Proof. intros Hm st. simpl. rewrite Hm. done. Qed.

(** ** Counting (C9) *)

Lemma frame_tally_results {A} (m : M A) : frame results m → frame tally m.
Proof.
  intros Hm.
  apply (frame_compose results
           (λ r, (processed r, errors r, created_inventory r,
                  updated_inventory r))), Hm.
Qed.

Lemma frame_tally_updateResults g :
  (∀ r, processed (g r) = processed r ∧ errors (g r) = errors r
        ∧ created_inventory (g r) = created_inventory r
        ∧ updated_inventory (g r) = updated_inventory r) →
  frame tally (updateResults g).
Proof.
  intros Hg st. unfold tally. simpl.
  destruct (Hg (results st)) as (-> & -> & -> & ->). done.
Qed.

Lemma counts_bind {A} (m : M A) (k : A → M unit) :
  frame tally m → (∀ a, counts (k a)) → counts (bind m k).
Proof.
  intros Hm Hk st. unfold bind. specialize (Hm st). unfold tally in Hm.
  destruct (m st) as [[message|a] st1]; simpl in *.
  - injection Hm as -> -> -> ->. done.
  - specialize (Hk a st1). simpl in Hk.
    injection Hm as <- <- <- <-. exact Hk.
Qed.

Lemma processRowBody_counts row : counts (processRowBody row).
Proof.
  unfold processRowBody.
  apply counts_bind; [auto using frame_tally_results with frames|].
  intros [store storeCreated].
  apply counts_bind;
    [apply frame_when; auto using frame_tally_results with frames|]. intros _.
  apply counts_bind;
    [apply frame_when; auto using frame_tally_results with frames|]. intros _.
  apply counts_bind;
    [apply frame_when, frame_tally_updateResults; done|]. intros _.
  apply counts_bind; [auto using frame_tally_results with frames|].
  intros [author authorCreated].
  apply counts_bind;
    [apply frame_when, frame_tally_updateResults; done|]. intros _.
  apply counts_bind; [auto using frame_tally_results with frames|].
  intros [book bookCreated].
  apply counts_bind;
    [do 2 apply frame_when; auto using frame_tally_results with frames|].
  intros _.
  apply counts_bind;
    [apply frame_when, frame_tally_updateResults; done|]. intros _.
  apply counts_bind; [apply frame_when, frame_throw|]. intros _.
  apply counts_bind; [auto using frame_tally_results with frames|].
  intros [existingInventory|].
  - apply counts_bind; [auto using frame_tally_results with frames|].
    intros _ st. simpl. split; [done|]. split; [done|]. right. done.
  - apply counts_bind; [auto using frame_tally_results with frames|].
    intros _ st. simpl. split; [done|]. split; [done|]. left. done.
Qed.

(** [processRow] is its body, with the tables put back when the body
    throws. *)
Lemma processRow_eq row n st :
  processRow row n st =
  match processRowBody row st with
  | (inr _, st1) => (inr tt, st1)
  | (inl message, st1) =>
      (inl message,
       mkState (mkDatabase (tables (db st)) (sequences (db st1))) (results st1))
  end.
Proof.
  unfold processRow, bind, tryCatch, transaction, getTables, commit, rollback,
    setTables, throw, ret.
  destruct (processRowBody row st) as [[message|[]] st1]; reflexivity.
Qed.

Lemma processRow_counts row n : counts (processRow row n).
Proof.
  intros st. rewrite processRow_eq.
  pose proof (processRowBody_counts row st) as Hbody. simpl in Hbody.
  destruct (processRowBody row st) as [[message|[]] st1]; simpl in *; done.
Qed.

(** One turn of the loop of [processCSV]. *)
Lemma processRows_cons v rest st :
  processRows (v :: rest) st =
  match processRow (data v) (rowNumber v) st with
  | (inr _, st1) =>
      processRows rest (mkState (db st1) (incrProcessed (results st1)))
  | (inl message, st1) =>
      processRows rest
        (mkState (db st1)
           (pushError (mkRowError (rowNumber v) (data v) message) (results st1)))
  end.
Proof.
  simpl. unfold bind, tryCatch, updateResults.
  destruct (processRow (data v) (rowNumber v) st) as [[message|[]] st1];
    reflexivity.
Qed.

Lemma processRows_accounts rows : ∀ st,
  let r := results st in
  let r' := results (processRows rows st).2 in
  processed r' - processed r
    = (created_inventory r' + updated_inventory r')
      - (created_inventory r + updated_inventory r)
  ∧ (processed r' - processed r)
    + (Z.of_nat (length (errors r')) - Z.of_nat (length (errors r)))
    = Z.of_nat (length rows)
  ∧ processed r <= processed r'.
Proof.
  induction rows as [|v rows IH]; intros st; [simpl; lia|].
  pose proof (processRow_counts (data v) (rowNumber v) st) as Hrow.
  simpl in Hrow. rewrite processRows_cons, length_cons.
  destruct (processRow (data v) (rowNumber v) st) as [[message|[]] st1];
    simpl in *.
  - destruct Hrow as (Hp & He & Hc & Hu).
    match goal with |- context [processRows rows ?s] => specialize (IH s) end.
    simpl in IH. destruct IH as (IH1 & IH2 & IH3).
    rewrite Hp, He, Hc, Hu, ?length_app in *. simpl in *. lia.
  - destruct Hrow as (Hp & He & Hcu).
    match goal with |- context [processRows rows ?s] => specialize (IH s) end.
    simpl in IH. destruct IH as (IH1 & IH2 & IH3).
    rewrite Hp, He in *. lia.
Qed.

(** C9. In the result of [processCSV] the processed count is the sum of
    the created and the updated inventory counters, and every record is
    accounted for once: it is processed or it has an entry in the error
    list. *)
Theorem processCSV_processed_count (records : list Row) (database : Database) :
  let r := (processCSV records database).1 in
  processed r = created_inventory r + updated_inventory r
  ∧ processed r + Z.of_nat (length (errors r)) = Z.of_nat (length records).
Proof.
  unfold processCSV.
  set (out := Worker.csvParserWorker records).
  set (st0 := mkState database
                (mkResults 0 0 0 0 0 0 ([] ++ Worker.validationErrors out))).
  pose proof (processRows_accounts (Worker.validatedRows out) st0)
    as (H1 & H2 & _).
  destruct (processRows (Worker.validatedRows out) st0) as [u st].
  simpl in *. split; [lia|].
  assert (Hlen : (length (Worker.validatedRows out)
                  + length (Worker.validationErrors out))%nat
                 = length records).
  { subst out. unfold Worker.csvParserWorker, Worker.parseCSV.
    rewrite <- (length_fmap (λ record : Row, Worker.mapValues <$> record) records).
    generalize ((λ record : Row, Worker.mapValues <$> record) <$> records).
    intros rows.
    assert (Hgen : ∀ i vs es,
      (length (Worker.validateAll rows i vs es).1
       + length (Worker.validateAll rows i vs es).2)%nat
      = (length vs + length es + length rows)%nat).
    { induction rows as [|r0 rows IH]; intros i vs es; simpl; [lia|].
      destruct (Worker.validateRow r0 (i + 2)); rewrite IH, length_app;
        simpl; lia. }
    specialize (Hgen 0 [] []).
    destruct (Worker.validateAll rows 0 [] []) as [vs es]. simpl in *. lia. }
  lia.
Qed.

(** ** The response of the upload route (C5) *)

Lemma processCSV_processed_nonneg records database :
  0 <= processed (processCSV records database).1.
Proof.
  unfold processCSV.
  set (out := Worker.csvParserWorker records).
  set (st0 := mkState database
                (mkResults 0 0 0 0 0 0 ([] ++ Worker.validationErrors out))).
  pose proof (processRows_accounts (Worker.validatedRows out) st0)
    as (_ & _ & H).
  destruct (processRows (Worker.validatedRows out) st0) as [u st].
  simpl in *. exact H.
Qed.

(** C5. The response to an upload reports failure exactly when no row was
    processed and the error list is not empty; as soon as one row was
    processed it reports success; in both cases the response carries the
    result object, error list included. *)
Theorem upload_reports_failure_iff (records : list Row) (database : Database) :
  let results := (processCSV records database).1 in
  let response := (upload records database).1 in
  (success response = false ↔ processed results = 0 ∧ errors results ≠ [])
  ∧ (status response = 400 ↔ success response = false)
  ∧ (0 < processed results → success response = true)
  ∧ response_results response = results.
Proof.
  intros results response. subst response. unfold upload.
  pose proof (processCSV_processed_nonneg records database) as Hnn.
  fold results in Hnn. subst results.
  destruct (processCSV records database) as [results database']. simpl in *.
  unfold respond.
  destruct (0 <? processed results) eqn:Hp; simpl.
  - apply Z.ltb_lt in Hp.
    split; [split; [done|intros [? _]; lia]|].
    split; [split; done|]. split; done.
  - apply Z.ltb_ge in Hp.
    destruct (errors results) as [|e es]; simpl.
    + split; [split; [done|intros [_ ?]; done]|].
      split; [split; done|]. split; done.
    + split; [split; [intros _; split; [lia|done]|done]|].
      split; [split; done|]. split; [intros; lia|done].
Qed.

(** ** The four steps of a row *)

Lemma bind_assoc {A B C} (m : M A) (k : A → M B) (h : B → M C) st :
  bind (bind m k) h st = bind m (λ a, bind (k a) h) st.
Proof. unfold bind. destruct (m st) as [[message|a] st1]; reflexivity. Qed.

Lemma bind_ext {A B} (m : M A) (k1 k2 : A → M B) st :
  (∀ a st1, k1 a st1 = k2 a st1) → bind m k1 st = bind m k2 st.
Proof.
  intros Hk. unfold bind. destruct (m st) as [[message|a] st1]; [done|].
  apply Hk.
Qed.

Lemma bind_ret {A B} (a : A) (k : A → M B) st : bind (ret a) k st = k a st.
Proof. reflexivity. Qed.

Lemma processRowBody_stages row st :
  processRowBody row st =
  (let! store := storeStage row in
   let! author := authorStage row in
   let! book := bookStage row author in
   inventoryStage row store book) st.
Proof.
  unfold processRowBody, storeStage, authorStage, bookStage.
  rewrite bind_assoc. apply bind_ext. intros [store storeCreated] st1.
  do 3 (rewrite bind_assoc; apply bind_ext; intros _ ?).
  rewrite bind_ret, bind_assoc. apply bind_ext. intros [author authorCreated] st5.
  rewrite bind_assoc. apply bind_ext. intros _ ?.
  rewrite bind_ret, bind_assoc. apply bind_ext. intros [book bookCreated] st7.
  do 2 (rewrite bind_assoc; apply bind_ext; intros _ ?).
  rewrite bind_ret. reflexivity.
Qed.

Lemma varchar_run n s st :
  varchar n s st = (if JS.length s <=? n then inr tt else inl (tooLong n), st).
Proof. unfold varchar. destruct (JS.length s <=? n); reflexivity. Qed.

Lemma varcharOrNull_run n v st :
  varcharOrNull n v st = (if within n v then inr tt else inl (tooLong n), st).
Proof. destruct v as [s|]; [apply varchar_run|reflexivity]. Qed.

Lemma storeStage_spec row st :
  match storeStage row st with
  | (inl _, _) => True
  | (inr store, st1) =>
      authorsOf st1 = authorsOf st ∧ booksOf st1 = booksOf st
      ∧ inventoryOf st1 = inventoryOf st ∧ tally st1 = tally st
      ∧ ∃ n, row !! "store_name" = Some n
          ∧ match Store.findOne n (storesOf st) with
            | Some s =>
                store = s ∧ storesOf st1 = map (refreshed row s) (storesOf st)
                ∧ created_stores (results st1) = created_stores (results st)
            | None =>
                (∃ id, store = Store.mk id n
                                 (JS.orNull (row !! "store_address"))
                                 (JS.orNull (row !! "logo")))
                ∧ storesOf st1 = (storesOf st ++ [store])%list
                ∧ created_stores (results st1)
                  = created_stores (results st) + 1
            end
  end.
Proof.
  unfold storeStage, Store_findOrCreate, Store_create, whereValue,
    store_update_logo, store_update_address, when, validated, Store.validate,
    getTables, getSequences, setSequences, modifyTables, updateResults,
    bind, ret, throw.
  destruct (row !! "store_name") as [n|]; [|done]. cbn.
  unfold storesOf at 1 2.
  destruct (Store.findOne n (stores (tables (db st)))) as [s|] eqn:Hfind; cbn.
  - destruct (JS.truthy (row !! "logo")
              && bool_decide (row !! "logo" ≠ Store.logo s)) eqn:Hl;
    destruct (JS.truthy (row !! "store_address")
              && bool_decide (row !! "store_address" ≠ Store.address s)) eqn:Ha;
      cbn; rewrite ?varcharOrNull_run;
      try (destruct (within 500 (row !! "store_address")); [|done]); cbn;
      (split_and!; try done; exists n; split; [done|]; rewrite Hfind;
       split_and!; try done; unfold storesOf; cbn; rewrite ?map_map;
       first [ apply map_ext
             | etransitivity; [symmetry; apply map_id | apply map_ext] ];
       intros s'; unfold refreshed; rewrite Hl, Ha; destruct s';
       cbn; repeat (case_match; cbn in *); congruence).
  - destruct (notEmpty n); cbn; [|done].
    rewrite varchar_run. destruct (JS.length n <=? 255); cbn; [|done].
    rewrite varcharOrNull_run.
    destruct (within 500 (JS.orNull (row !! "store_address"))); cbn; [|done].
    unfold nextval.
    destruct (stores_id_seq (sequences (db st)) <=? 2147483647); cbn; [|done].
    split_and!; try done. exists n. split; [done|]. rewrite Hfind.
    split_and!; try done. eauto.
Qed.



Lemma authorStage_spec row st :
  match authorStage row st with
  | (inl _, _) => True
  | (inr author, st1) =>
      storesOf st1 = storesOf st ∧ booksOf st1 = booksOf st
      ∧ inventoryOf st1 = inventoryOf st ∧ tally st1 = tally st
      ∧ ∃ n, row !! "author_name" = Some n
          ∧ match Author.findOne n (authorsOf st) with
            | Some a => author = a ∧ authorsOf st1 = authorsOf st
            | None =>
                (∃ id, author = Author.mk id n)
                ∧ authorsOf st1 = (authorsOf st ++ [author])%list
            end
  end.
Proof.
  unfold authorStage, Author_findOrCreate, Author_create, whereValue, when,
    validated, Author.validate, getTables, getSequences, setSequences,
    modifyTables, updateResults, bind, ret, throw.
  destruct (row !! "author_name") as [n|]; [|done]. cbn.
  unfold authorsOf at 1 2.
  destruct (Author.findOne n (authors (tables (db st)))) as [a|] eqn:Hfind; cbn.
  - split_and!; try done. exists n. split; [done|]. rewrite Hfind. done.
  - destruct (notEmpty n); cbn; [|done].
    rewrite varchar_run. destruct (JS.length n <=? 255); cbn; [|done].
    unfold nextval.
    destruct (authors_id_seq (sequences (db st)) <=? 2147483647); cbn; [|done].
    split_and!; try done. exists n. split; [done|]. rewrite Hfind.
    split_and!; try done. eauto.
Qed.


Lemma integer_run n st :
  integer n st
  = (if (-2147483648 <=? n) && (n <=? 2147483647) then inr n
     else inl "integer out of range", st).
Proof.
  unfold integer. destruct ((-2147483648 <=? n) && (n <=? 2147483647));
    reflexivity.
Qed.

Lemma bookStage_spec row author st :
  match bookStage row author st with
  | (inl _, _) => True
  | (inr book, st1) =>
      storesOf st1 = storesOf st ∧ authorsOf st1 = authorsOf st
      ∧ inventoryOf st1 = inventoryOf st ∧ tally st1 = tally st
      ∧ ∃ n, row !! "book_name" = Some n
          ∧ match Book.findOne n (Author.id author) (booksOf st) with
            | Some b => book = b ∧ booksOf st1 = map (repaged row b) (booksOf st)
            | None =>
                (∃ id, book = Book.mk id n (rowPages row) (Author.id author))
                ∧ booksOf st1 = (booksOf st ++ [book])%list
            end
  end.
Proof.
  unfold bookStage, Book_findOrCreate, Book_create, book_update_pages,
    integerOrNull, whereValue, when, validated, Book.validate,
    Book.validatePages, getTables, getSequences, setSequences, modifyTables,
    updateResults, bind, ret, throw.
  destruct (row !! "book_name") as [n|]; [|done]. cbn.
  unfold booksOf at 1 2.
  destruct (Book.findOne n (Author.id author) (books (tables (db st))))
    as [b|] eqn:Hfind; cbn.
  - destruct (JS.truthy (row !! "pages")) eqn:Hpages; cbn.
    + destruct (JS.parseInt (JS.toString (row !! "pages"))) as [p|] eqn:Hp;
        cbn; [|done].
      destruct (bool_decide (Some p ≠ Book.pages b)) eqn:Hne; cbn.
      * destruct (1 <=? p); cbn; [|done].
        rewrite integer_run.
        destruct ((-2147483648 <=? p) && (p <=? 2147483647)); cbn; [|done].
        split_and!; try done. exists n. split; [done|]. rewrite Hfind.
        split; [done|]. unfold booksOf. cbn. apply map_ext. intros b'.
        unfold repaged, rowPages. rewrite Hpages, Hp, Hne. done.
      * split_and!; try done. exists n. split; [done|]. rewrite Hfind.
        split; [done|]. unfold booksOf. cbn.
        etransitivity; [symmetry; apply map_id|]. apply map_ext. intros b'.
        unfold repaged, rowPages. rewrite Hpages, Hp, Hne.
        destruct (Book.id b' =? Book.id b); done.
    + split_and!; try done. exists n. split; [done|]. rewrite Hfind.
      split; [done|]. unfold booksOf. cbn.
      etransitivity; [symmetry; apply map_id|]. apply map_ext. intros b'.
      unfold repaged, rowPages. rewrite Hpages.
      destruct (Book.id b' =? Book.id b); done.
  - unfold rowPages.
    destruct (JS.truthy (row !! "pages")) eqn:Hpages; cbn.
    + destruct (JS.parseInt (JS.toString (row !! "pages"))) as [p|] eqn:Hp;
        cbn.
      2:{ destruct (notEmpty n); cbn; [|done]. rewrite varchar_run.
          destruct (JS.length n <=? 255); done. }
      destruct (notEmpty n); cbn; [|done].
      destruct (1 <=? p); cbn; [|done].
      rewrite varchar_run. destruct (JS.length n <=? 255); cbn; [|done].
      rewrite integer_run.
      destruct ((-2147483648 <=? p) && (p <=? 2147483647)); cbn; [|done].
      unfold nextval.
      destruct (books_id_seq (sequences (db st)) <=? 2147483647); cbn; [|done].
      split_and!; try done. exists n. split; [done|]. rewrite Hfind.
      split_and!; try done. eauto.
    + destruct (notEmpty n); cbn; [|done].
      rewrite varchar_run. destruct (JS.length n <=? 255); cbn; [|done].
      unfold nextval.
      destruct (books_id_seq (sequences (db st)) <=? 2147483647); cbn; [|done].
      split_and!; try done. exists n. split; [done|]. rewrite Hfind.
      split_and!; try done. eauto.
Qed.



Lemma decimal_run price st :
  decimal price st
  = (match DECIMAL.ofNumber price with
     | inl message => inl message
     | inr d => inr d
     end, st).
Proof. unfold decimal. destruct (DECIMAL.ofNumber price); reflexivity. Qed.

Lemma shortest_digits fuel m e : ∀ q, 0 < (JS.shortest fuel m e q).1.
Proof.
  induction fuel as [|fuel IH]; intros q; simpl.
  - apply Z.mul_pos_pos; [apply Z.mul_pos_pos|]; [done|..];
      apply Z.pow_pos_nonneg; lia.
  - unfold JS.digitsAt.
    destruct (JS.scaled m e q) as [n d].
    set (lo := n / d).
    destruct (if match 2 * n ?= (2 * lo + 1) * d with
                 | Eq => Z.even lo
                 | Lt => true
                 | Gt => false
                 end then (lo, lo + 1) else (lo + 1, lo)) as [first second].
    destruct (JS.readsBack m e first q) eqn:H1.
    { simpl. unfold JS.readsBack in H1. apply andb_true_iff in H1 as [H1 _].
      by apply Z.ltb_lt. }
    destruct (JS.readsBack m e second q) eqn:H2.
    { simpl. unfold JS.readsBack in H2. apply andb_true_iff in H2 as [H2 _].
      by apply Z.ltb_lt. }
    apply IH.
Qed.

Lemma round_nonneg s q : 0 <= s → 0 <= DECIMAL.round s q.
Proof.
  intros Hs. unfold DECIMAL.round. destruct (-2 <=? q) eqn:Hq.
  - apply Z.leb_le in Hq. apply Z.mul_nonneg_nonneg; [done|].
    apply Z.pow_nonneg. lia.
  - apply Z.leb_gt in Hq.
    assert (Hd : 0 < 10 ^ (- q - 2)) by (apply Z.pow_pos_nonneg; lia).
    apply Z.div_pos; lia.
Qed.

(** What the column holds of a number that is not negative is a number of
    hundredths from 0 to 10^10 - 1. *)
Lemma ofNumber_nonneg x d :
  DECIMAL.ofNumber x = inr d → JS.isNaN x = false → JS.lt x JS.zero = false →
  ∃ c, d = DECIMAL.hundredths c ∧ 0 <= c < 10 ^ 10.
Proof.
  destruct x as [s|s| |s m e]; simpl; try done.
  - intros [= <-] _ _. exists 0. split; [done|]. split; [done|].
    by apply Z.pow_pos_nonneg.
  - intros Hd _ Hlt.
    assert (s = false) as -> by (destruct s; done).
    pose proof (shortest_digits 25 m e
                  ((Z.log2 (Z.pos m) + e + 1) * 30103 / 100000 + 1)) as Hs.
    unfold JS.toDecimal in Hd.
    destruct (JS.shortest _ m e _) as [s q]. simpl in Hs.
    destruct (10 ^ 10 <=? DECIMAL.round s q) eqn:Hc; [done|].
    injection Hd as <-. eexists. split; [done|].
    apply Z.leb_gt in Hc. split; [|done]. apply round_nonneg. lia.
Qed.


Lemma inventoryStage_spec row store book st :
  match inventoryStage row store book st with
  | (inl _, st1) => st1 = st
  | (inr _, st1) =>
      storesOf st1 = storesOf st ∧ authorsOf st1 = authorsOf st
      ∧ booksOf st1 = booksOf st
      ∧ JS.isNaN (rowPrice row) = false
      ∧ JS.lt (rowPrice row) JS.zero = false
      ∧ ∃ price,
          rowDecimal row = inr price
          ∧ match StoreBook.findOne (Store.id store) (Book.id book)
                    (inventoryOf st) with
            | Some existing =>
                0 <= StoreBook.copies existing + 1 <= maxInteger
                ∧ inventoryOf st1
                  = map (restocked price existing) (inventoryOf st)
                ∧ results st1 = incrUpdatedInventory (results st)
            | None =>
                inventoryOf st1
                = (inventoryOf st
                   ++ [StoreBook.mk (Store.id store) (Book.id book) price
                         1 false])%list
                ∧ results st1 = incrCreatedInventory (results st)
            end
  end.
Proof.
  unfold inventoryStage, StoreBook_findOne, inventory_update, StoreBook_create,
    when, validated, StoreBook.validate, getTables, modifyTables,
    updateResults, bind, ret, throw.
  fold (rowPrice row). cbn zeta.
  destruct (JS.isNaN (rowPrice row)) eqn:Hnan; cbn; [done|].
  destruct (JS.lt (rowPrice row) JS.zero) eqn:Hneg; cbn; [done|].
  unfold inventoryOf at 1 2.
  destruct (StoreBook.findOne (Store.id store) (Book.id book)
              (store_books (tables (db st)))) as [existing|] eqn:Hfind; cbn.
  - rewrite ?Hneg.
    destruct (StoreBook.copies existing + 1 <? 0) eqn:Hcopies; cbn; [done|].
    rewrite integer_run.
    destruct ((-2147483648 <=? StoreBook.copies existing + 1)
              && (StoreBook.copies existing + 1 <=? 2147483647)) eqn:Hint;
      cbn; [|done].
    rewrite decimal_run. fold (rowDecimal row).
    destruct (rowDecimal row) as [message|price]; cbn; [done|].
    split_and!; try done. exists price. split; [done|].
    apply andb_true_iff in Hint as [_ Hint]. unfold maxInteger.
    split_and!; try done; lia.
  - rewrite ?Hneg. cbn. rewrite ?integer_run. cbn.
    rewrite decimal_run. fold (rowDecimal row).
    destruct (rowDecimal row) as [message|price]; cbn; [done|].
    split_and!; try done. exists price. done.
Qed.


(** *** What the steps do to the sequences and to the result object *)

Lemma storeStage_effect row st n :
  row !! "store_name" = Some n →
  match storeStage row st with
  | (inl _, _) => True
  | (inr store, st1) =>
      match Store.findOne n (storesOf st) with
      | Some _ =>
          sequences (db st1) = sequences (db st) ∧ results st1 = results st
      | None =>
          Store.id store = stores_id_seq (sequences (db st))
          ∧ Store.id store <= maxInteger
          ∧ sequences (db st1)
            = mkSequences (stores_id_seq (sequences (db st)) + 1)
                (authors_id_seq (sequences (db st)))
                (books_id_seq (sequences (db st)))
          ∧ results st1 = incrCreatedStores (results st)
      end
  end.
Proof.
  intros Hn.
  unfold storeStage, Store_findOrCreate, Store_create, whereValue,
    store_update_logo, store_update_address, when, validated, Store.validate,
    getTables, getSequences, setSequences, modifyTables, updateResults,
    bind, ret, throw.
  rewrite Hn. cbn. unfold storesOf.
  destruct (Store.findOne n (stores (tables (db st)))) as [s|]; cbn.
  - destruct (JS.truthy (row !! "logo")
              && bool_decide (row !! "logo" ≠ Store.logo s));
    destruct (JS.truthy (row !! "store_address")
              && bool_decide (row !! "store_address" ≠ Store.address s));
      cbn; rewrite ?varcharOrNull_run;
      try (destruct (within 500 (row !! "store_address")); [|done]); cbn;
      done.
  - destruct (notEmpty n); cbn; [|done].
    rewrite varchar_run. destruct (JS.length n <=? 255); cbn; [|done].
    rewrite varcharOrNull_run.
    destruct (within 500 (JS.orNull (row !! "store_address"))); cbn; [|done].
    unfold nextval, maxInteger.
    destruct (stores_id_seq (sequences (db st)) <=? 2147483647) eqn:Hseq;
      cbn; [|done].
    apply Z.leb_le in Hseq. done.
Qed.

Lemma authorStage_effect row st n :
  row !! "author_name" = Some n →
  match authorStage row st with
  | (inl _, _) => True
  | (inr author, st1) =>
      match Author.findOne n (authorsOf st) with
      | Some _ =>
          sequences (db st1) = sequences (db st) ∧ results st1 = results st
      | None =>
          Author.id author = authors_id_seq (sequences (db st))
          ∧ Author.id author <= maxInteger
          ∧ sequences (db st1)
            = mkSequences (stores_id_seq (sequences (db st)))
                (authors_id_seq (sequences (db st)) + 1)
                (books_id_seq (sequences (db st)))
          ∧ results st1 = incrCreatedAuthors (results st)
      end
  end.
Proof.
  intros Hn.
  unfold authorStage, Author_findOrCreate, Author_create, whereValue, when,
    validated, Author.validate, getTables, getSequences, setSequences,
    modifyTables, updateResults, bind, ret, throw.
  rewrite Hn. cbn. unfold authorsOf.
  destruct (Author.findOne n (authors (tables (db st)))) as [a|]; cbn; [done|].
  destruct (notEmpty n); cbn; [|done].
  rewrite varchar_run. destruct (JS.length n <=? 255); cbn; [|done].
  unfold nextval, maxInteger.
  destruct (authors_id_seq (sequences (db st)) <=? 2147483647) eqn:Hseq;
    cbn; [|done].
  apply Z.leb_le in Hseq. done.
Qed.

Lemma bookStage_effect row author st n :
  row !! "book_name" = Some n →
  match bookStage row author st with
  | (inl _, _) => True
  | (inr book, st1) =>
      match Book.findOne n (Author.id author) (booksOf st) with
      | Some _ =>
          sequences (db st1) = sequences (db st) ∧ results st1 = results st
      | None =>
          Book.id book = books_id_seq (sequences (db st))
          ∧ Book.id book <= maxInteger
          ∧ sequences (db st1)
            = mkSequences (stores_id_seq (sequences (db st)))
                (authors_id_seq (sequences (db st)))
                (books_id_seq (sequences (db st)) + 1)
          ∧ results st1 = incrCreatedBooks (results st)
      end
  end.
Proof.
  intros Hn.
  unfold bookStage, Book_findOrCreate, Book_create, book_update_pages,
    integerOrNull, whereValue, when, validated, Book.validate,
    Book.validatePages, getTables, getSequences, setSequences, modifyTables,
    updateResults, bind, ret, throw.
  rewrite Hn. cbn. unfold booksOf.
  destruct (Book.findOne n (Author.id author) (books (tables (db st))))
    as [b|]; cbn.
  - destruct (JS.truthy (row !! "pages")); cbn; [|done].
    destruct (JS.parseInt (JS.toString (row !! "pages"))) as [p|]; cbn; [|done].
    destruct (bool_decide (Some p ≠ Book.pages b)); cbn; [|done].
    destruct (1 <=? p); cbn; [|done].
    rewrite integer_run.
    destruct ((-2147483648 <=? p) && (p <=? 2147483647)); cbn; done.
  - destruct (JS.truthy (row !! "pages")); cbn.
    + destruct (JS.parseInt (JS.toString (row !! "pages"))) as [p|]; cbn.
      2:{ destruct (notEmpty n); cbn; [|done]. rewrite varchar_run.
          destruct (JS.length n <=? 255); done. }
      destruct (notEmpty n); cbn; [|done].
      destruct (1 <=? p); cbn; [|done].
      rewrite varchar_run. destruct (JS.length n <=? 255); cbn; [|done].
      rewrite integer_run.
      destruct ((-2147483648 <=? p) && (p <=? 2147483647)); cbn; [|done].
      unfold nextval, maxInteger.
      destruct (books_id_seq (sequences (db st)) <=? 2147483647) eqn:Hseq;
        cbn; [|done].
      apply Z.leb_le in Hseq. done.
    + destruct (notEmpty n); cbn; [|done].
      rewrite varchar_run. destruct (JS.length n <=? 255); cbn; [|done].
      unfold nextval, maxInteger.
      destruct (books_id_seq (sequences (db st)) <=? 2147483647) eqn:Hseq;
        cbn; [|done].
      apply Z.leb_le in Hseq. done.
Qed.

Lemma inventoryStage_sequences row store book st :
  sequences (db (inventoryStage row store book st).2) = sequences (db st).
Proof.
  unfold inventoryStage, StoreBook_findOne, inventory_update, StoreBook_create,
    when, validated, StoreBook.validate, getTables, modifyTables,
    updateResults, bind, ret, throw.
  fold (rowPrice row). cbn zeta.
  destruct (JS.isNaN (rowPrice row)); cbn; [done|].
  destruct (JS.lt (rowPrice row) JS.zero) eqn:Hneg; cbn; [done|].
  destruct (StoreBook.findOne (Store.id store) (Book.id book)
              (store_books (tables (db st)))) as [existing|]; cbn.
  - rewrite ?Hneg.
    destruct (StoreBook.copies existing + 1 <? 0); cbn; [done|].
    rewrite integer_run.
    destruct ((-2147483648 <=? StoreBook.copies existing + 1)
              && (StoreBook.copies existing + 1 <=? 2147483647)); cbn; [|done].
    rewrite decimal_run. destruct (DECIMAL.ofNumber (rowPrice row)); done.
  - rewrite ?Hneg. cbn.
    rewrite decimal_run. destruct (DECIMAL.ofNumber (rowPrice row)); done.
Qed.

(** *** What validation guarantees to the steps *)





(** ** A row with a bad price (C1) *)

Lemma processRowBody_returns_inv row st st4 :
  processRowBody row st = (inr tt, st4) →
  ∃ store author book st1 st2 st3,
    storeStage row st = (inr store, st1)
    ∧ authorStage row st1 = (inr author, st2)
    ∧ bookStage row author st2 = (inr book, st3)
    ∧ inventoryStage row store book st3 = (inr tt, st4).
Proof.
  rewrite processRowBody_stages. intros Hrun.
  apply bind_inv in Hrun as [(store & st1 & H1 & Hrun)|(? & _ & [=])].
  apply bind_inv in Hrun as [(author & st2 & H2 & Hrun)|(? & _ & [=])].
  apply bind_inv in Hrun as [(book & st3 & H3 & Hrun)|(? & _ & [=])].
  eauto 10.
Qed.







(** ** A row for an existing position (C2) *)

Lemma find_map {A} (p : A → bool) (f : A → A) (l : list A) :
  (∀ x, p (f x) = p x) → List.find p (map f l) = f <$> List.find p l.
Proof.
  intros Hp. induction l as [|x l IH]; simpl; [done|].
  rewrite Hp. destruct (p x); done.
Qed.

Lemma Store_findOne_refreshed row store n l :
  Store.findOne n (map (refreshed row store) l)
  = refreshed row store <$> Store.findOne n l.
Proof.
  apply find_map. intros s. unfold refreshed.
  destruct (Store.id s =? Store.id store); done.
Qed.

Lemma Book_findOne_repaged row book n a l :
  Book.findOne n a (map (repaged row book) l)
  = repaged row book <$> Book.findOne n a l.
Proof.
  apply find_map. intros b. unfold repaged.
  destruct (Book.id b =? Book.id book); [|done].
  destruct (rowPages row); [|done]. case_bool_decide; done.
Qed.


Lemma refreshed_id row store s :
  Store.id (refreshed row store s) = Store.id s.
Proof. unfold refreshed. destruct (Store.id s =? Store.id store); done. Qed.

Lemma repaged_id row book b : Book.id (repaged row book b) = Book.id b.
Proof.
  unfold repaged. destruct (Book.id b =? Book.id book); [|done].
  destruct (rowPages row); [|done]. case_bool_decide; done.
Qed.

Lemma StoreBook_findOne_key s b l sb :
  StoreBook.findOne s b l = Some sb →
  StoreBook.store_id sb = s ∧ StoreBook.book_id sb = b.
Proof.
  intros Hfind. apply find_some in Hfind as [_ Hkey].
  unfold StoreBook.hasKey in Hkey. apply andb_true_iff in Hkey as [Hs Hb].
  split; by apply Z.eqb_eq.
Qed.






(** ** What a row does to the stores table (C10) *)

Lemma Forall2_map_self {A} (R : A → A → Prop) (f : A → A) (l : list A) :
  (∀ x, R x (f x)) → Forall2 R l (map f l).
Proof. intros Hf. induction l; simpl; constructor; auto. Qed.

(** C10. Whatever the row and whether it succeeds or fails, every store
    that was in the table is still there, at its place, with its id and
    name; its address is the stored one when the row's address is empty,
    and its logo is the stored one when the row's logo is empty.  A store
    that the row adds has a null address when the row's address is empty
    and a null logo when the row's logo is empty. *)
Theorem empty_address_logo_keep_store (row : Row) (n : Z) (st : State) :
  let st' := (processRow row n st).2 in
  ∃ kept added,
    storesOf st' = (kept ++ added)%list
    ∧ Forall2
        (λ s s',
           Store.id s' = Store.id s ∧ Store.name s' = Store.name s
           ∧ (JS.truthy (row !! "store_address") = false →
              Store.address s' = Store.address s)
           ∧ (JS.truthy (row !! "logo") = false →
              Store.logo s' = Store.logo s))
        (storesOf st) kept
    ∧ Forall
        (λ s',
           (JS.truthy (row !! "store_address") = false →
            Store.address s' = None)
           ∧ (JS.truthy (row !! "logo") = false → Store.logo s' = None))
        added.
Proof.
  intros st'. subst st'. rewrite processRow_eq.
  destruct (processRowBody row st) as [[message|[]] st4] eqn:Hbody.
  - exists (storesOf st), []. simpl. split_and!.
    + unfold storesOf. simpl. by rewrite app_nil_r.
    + rewrite <- (map_id (storesOf st)) at 2.
      apply Forall2_map_self. done.
    + constructor.
  - apply processRowBody_returns_inv in Hbody
      as (store & author & book & st1 & st2 & st3 & H1 & H2 & H3 & H4).
    pose proof (storeStage_spec row st) as S1. rewrite H1 in S1.
    pose proof (authorStage_spec row st1) as S2. rewrite H2 in S2.
    pose proof (bookStage_spec row author st2) as S3. rewrite H3 in S3.
    pose proof (inventoryStage_spec row store book st3) as S4.
    rewrite H4 in S4.
    destruct S1 as (_ & _ & _ & _ & sn & Hsn & S1).
    destruct S2 as (R2 & _). destruct S3 as (R3 & _). destruct S4 as (R4 & _).
    simpl. rewrite R4, R3, R2.
    destruct (Store.findOne sn (storesOf st)) as [s|].
    + destruct S1 as (-> & -> & _).
      exists (map (refreshed row s) (storesOf st)), []. split_and!.
      * by rewrite app_nil_r.
      * apply Forall2_map_self. intros s'. unfold refreshed.
        destruct (Store.id s' =? Store.id s); [|done]. simpl.
        split_and!; try done.
        -- intros ->. done.
        -- intros ->. done.
      * constructor.
    + destruct S1 as ((id & ->) & -> & _).
      eexists (storesOf st), [_]. split_and!; [done| |].
      * rewrite <- (map_id (storesOf st)) at 2.
        apply Forall2_map_self. done.
      * constructor; [|constructor]. simpl. unfold JS.orNull.
        split; intros ->; done.
Qed.

(** ** The same row again and again (C3) *)









(** ** The priciest books of a store (C7) *)

Global Instance priceDesc_total : Total priceDesc.
Proof.
  intros x y. unfold priceDesc.
  destruct (StoreBook.price x) as [|a], (StoreBook.price y) as [|b]; simpl;
    try (by left); try (by right).
  destruct (Z.ltb_spec a b), (Z.ltb_spec b a); try (by left); try (by right).
  lia.
Qed.

Global Instance priceDesc_transitive : Transitive priceDesc.
Proof.
  intros x y z. unfold priceDesc.
  destruct (StoreBook.price x) as [|a], (StoreBook.price y) as [|b],
    (StoreBook.price z) as [|c]; simpl; try done.
  rewrite !Z.ltb_ge. lia.
Qed.

Lemma orderedLimit_exists {A} (R : relation A) `{∀ x y, Decision (R x y)}
    `{!Total R} (n : nat) (rows : list A) :
  orderedLimit R n rows (sortLimit R n rows).
Proof.
  exists (merge_sort R rows). split_and!.
  - apply merge_sort_Permutation.
  - by apply Sorted_merge_sort.
  - done.
Qed.

Lemma Sorted_take {A} (R : relation A) (n : nat) (l : list A) :
  Sorted R l → Sorted R (take n l).
Proof.
  intros Hl. revert n. induction Hl as [|x l Hl IH Hhd]; intros [|n]; simpl;
    try constructor.
  - apply IH.
  - destruct Hhd; destruct n; simpl; constructor. done.
Qed.

Lemma orderedLimit_spec {A} (R : relation A) (n : nat) (rows out : list A) :
  orderedLimit R n rows out →
  length out = min n (length rows)
  ∧ Sorted R out
  ∧ ∀ x, x ∈ out → x ∈ rows.
Proof.
  intros (arranged & Hperm & Hsorted & ->). split_and!.
  - rewrite length_take, Hperm. done.
  - by apply Sorted_take.
  - intros x Hx. rewrite <- Hperm.
    eapply elem_of_sublist; [exact Hx|apply sublist_take].
Qed.

Lemma pricedBook_carries t sb e :
  pricedBook t sb = Some e →
  pb_price e = JS.parseFloat (DECIMAL.toText (StoreBook.price sb))
  ∧ pb_copies e = StoreBook.copies sb.
Proof.
  unfold pricedBook. intros He.
  destruct (List.find _ (books t)) as [b|]; [|done]. simpl in He.
  destruct (List.find _ (authors t)) as [a|]; [|done]. simpl in He.
  injection He as <-. done.
Qed.

Lemma available_iff storeId sb :
  available storeId sb = true
  ↔ StoreBook.store_id sb = storeId ∧ StoreBook.sold_out sb = false.
Proof.
  unfold available. rewrite andb_true_iff, Z.eqb_eq, negb_true_iff. done.
Qed.

(** Equal prices need not come in the order in which the positions were
    created: with Emma stocked before Persuasion and restocked after it,
    the query may list Persuasion first. *)
Lemma priciest_ties_not_in_table_order :
  tables restockedShelf = restockedTables
  ∧ getTopPriciestBooks restockedTables 1
      (Some [mkPricedBook "Persuasion" "Austen" None (JS.parseFloat "25.00") 1;
             mkPricedBook "Emma" "Austen" None (JS.parseFloat "25.00") 2])
  ∧ ¬ tiesInTableOrder (store_books restockedTables)
        [StoreBook.mk 1 2 (DECIMAL.hundredths 2500) 1 false;
         StoreBook.mk 1 1 (DECIMAL.hundredths 2500) 2 false].
Proof.
  split_and!.
  - vm_compute. reflexivity.
  - exists [StoreBook.mk 1 2 (DECIMAL.hundredths 2500) 1 false;
            StoreBook.mk 1 1 (DECIMAL.hundredths 2500) 2 false].
    split; [|vm_compute; reflexivity].
    exists [StoreBook.mk 1 2 (DECIMAL.hundredths 2500) 1 false;
            StoreBook.mk 1 1 (DECIMAL.hundredths 2500) 2 false].
    split_and!.
    + apply Permutation_swap.
    + repeat constructor.
    + done.
  - intros Hstable.
    destruct (Hstable 0%nat 1%nat
                (StoreBook.mk 1 2 (DECIMAL.hundredths 2500) 1 false)
                (StoreBook.mk 1 1 (DECIMAL.hundredths 2500) 2 false))
      as (i' & j' & Hi & Hj & Hlt); [done|done|lia|done|].
    destruct i' as [|[|i']]; simpl in Hi; try done.
    destruct j' as [|[|j']]; simpl in Hj; try done; lia.
Qed.

(** C7 (amended). The priciest-books query always has an answer, and its
    answers are exactly the lists made from the first five rows of an
    arrangement of all the positions of that store with [sold_out]
    false, each of them once, in which no position comes before a pricier
    one; which arrangement, when positions have equal prices, is the
    database's.  The entries of an answer carry the price and the copies
    of these rows, in that order. *)
Theorem priciest_books (t : Tables) (storeId : Z) :
  (∃ result, getTopPriciestBooks t storeId result)
  ∧ (∀ result,
       getTopPriciestBooks t storeId result
       ↔ ∃ arranged,
           arranged ≡ₚ filter (λ sb, StoreBook.store_id sb = storeId
                                     ∧ StoreBook.sold_out sb = false)
                         (store_books t)
           ∧ StronglySorted priceDesc arranged
           ∧ result = mapM (pricedBook t) (take 5 arranged))
  ∧ ∀ storeBooks out,
      mapM (pricedBook t) storeBooks = Some out →
      pb_price <$> out
      = (λ sb, JS.parseFloat (DECIMAL.toText (StoreBook.price sb)))
          <$> storeBooks
      ∧ pb_copies <$> out = StoreBook.copies <$> storeBooks.
Proof.
  assert (Hfilter : filter (λ sb, available storeId sb = true) (store_books t)
                    = filter (λ sb, StoreBook.store_id sb = storeId
                                    ∧ StoreBook.sold_out sb = false)
                        (store_books t)).
  { apply list_filter_iff. intros sb. apply available_iff. }
  split_and!.
  - eexists. eexists. split; [|reflexivity].
    apply (orderedLimit_exists priceDesc).
  - intros result. unfold getTopPriciestBooks, findAllPriciest, orderedLimit.
    rewrite Hfilter. split.
    + intros (storeBooks & (arranged & Hperm & Hsorted & ->) & ->).
      exists arranged. split_and!; [done| |done].
      apply Sorted_StronglySorted; [apply _|done].
    + intros (arranged & Hperm & Hsorted & ->).
      exists (take 5 arranged). split; [|done].
      exists arranged. split_and!; [done| |done].
      apply StronglySorted_Sorted. done.
  - intros storeBooks out Hout%mapM_Some_1.
    induction Hout as [|sb e l es He Hl IH]; [done|].
    apply pricedBook_carries in He as [Hpe Hce].
    destruct IH as [Hp Hc]. rewrite !fmap_cons, Hp, Hc, Hpe, Hce. done.
Qed.

(** ** The prolific authors of a store (C6) *)

Lemma filter_all {A} (P : A → Prop) `{∀ x, Decision (P x)} (l : list A) :
  (∀ x, x ∈ l → P x) → filter P l = l.
Proof.
  induction l as [|x l IH]; intros Hall; [done|].
  rewrite filter_cons_True by (apply Hall; by left).
  f_equal. apply IH. intros y Hy. apply Hall. by right.
Qed.

Lemma filter_nothing {A} (P : A → Prop) `{∀ x, Decision (P x)} (l : list A) :
  (∀ x, x ∈ l → ¬ P x) → filter P l = [].
Proof.
  induction l as [|x l IH]; intros Hall; [done|].
  rewrite filter_cons_False by (apply Hall; by left).
  apply IH. intros y Hy. apply Hall. by right.
Qed.

Section ListFacts.

Context {A B : Type}.

Lemma filter_bind (P : B → Prop) `{∀ y, Decision (P y)}
    (Q : A → Prop) `{∀ x, Decision (Q x)} (f : A → list B) (l : list A) :
  (∀ x y, x ∈ l → y ∈ f x → (P y ↔ Q x)) →
  filter P (l ≫= f) = filter Q l ≫= f.
Proof.
  induction l as [|x l IH]; intros HPQ; [done|].
  rewrite bind_cons, filter_app, IH
    by (intros x' y Hx'; apply HPQ; by right).
  assert (Hx : x ∈ x :: l) by (by left).
  destruct (decide (Q x)) as [HQ|HQ].
  - rewrite (filter_cons_True Q) by done. rewrite bind_cons. f_equal.
    apply filter_all. intros y Hy. by apply (HPQ x).
  - rewrite (filter_cons_False Q) by done.
    rewrite filter_nothing; [done|]. intros y Hy HP. by apply HQ, (HPQ x y).
Qed.

Lemma NoDup_fmap_eq (g : A → B) (l : list A) x y :
  NoDup (g <$> l) → x ∈ l → y ∈ l → g x = g y → x = y.
Proof.
  induction l as [|z l IH]; intros Hnd Hx Hy Hg; [by apply not_elem_of_nil in Hx|].
  rewrite fmap_cons in Hnd. apply NoDup_cons in Hnd as [Hz Hnd].
  apply elem_of_cons in Hx as [->|Hx]; apply elem_of_cons in Hy as [->|Hy].
  - done.
  - exfalso. apply Hz. rewrite Hg. by apply list_elem_of_fmap_2.
  - exfalso. apply Hz. rewrite <- Hg. by apply list_elem_of_fmap_2.
  - by apply IH.
Qed.

Lemma filter_same_key `{EqDecision B} (g : A → B) (l : list A) x :
  NoDup (g <$> l) → x ∈ l → filter (λ y, g y = g x) l = [x].
Proof.
  induction l as [|z l IH]; intros Hnd Hx; [by apply not_elem_of_nil in Hx|].
  pose proof Hnd as Hnd'.
  rewrite fmap_cons in Hnd. apply NoDup_cons in Hnd as [Hz Hnd].
  destruct (decide (g z = g x)) as [Hzx|Hzx].
  - rewrite filter_cons_True by done.
    assert (z = x) as ->.
    { apply (NoDup_fmap_eq g (z :: l)); [done|by left|done|done]. }
    f_equal. apply filter_nothing. intros y Hy Hyx. apply Hz.
    rewrite <- Hyx. by apply list_elem_of_fmap_2.
  - rewrite filter_cons_False by done.
    apply elem_of_cons in Hx as [->|Hx]; [done|]. by apply IH.
Qed.

Lemma filter_disjoint_or (P Q R : A → Prop) `{∀ x, Decision (P x)}
    `{∀ x, Decision (Q x)} `{∀ x, Decision (R x)} (l : list A) :
  (∀ x, R x ↔ P x ∨ Q x) → (∀ x, P x → Q x → False) →
  filter R l ≡ₚ filter P l ++ filter Q l.
Proof.
  intros HR Hdisj. induction l as [|x l IH]; [done|].
  destruct (decide (P x)) as [HP|HP]; destruct (decide (Q x)) as [HQ|HQ].
  - destruct (Hdisj x HP HQ).
  - rewrite (filter_cons_True R), (filter_cons_True P),
      (filter_cons_False Q) by (try done; apply HR; by left).
    simpl. by f_equiv.
  - rewrite (filter_cons_True R), (filter_cons_False P),
      (filter_cons_True Q) by (try done; apply HR; by right).
    rewrite IH. by rewrite Permutation_middle.
  - rewrite (filter_cons_False R), (filter_cons_False P),
      (filter_cons_False Q); [done|done|done|].
    intros [?|?]%HR; done.
Qed.

Lemma Sorted_fmap_inv (R : relation B) (f : A → B) (l : list A) :
  Sorted R (f <$> l) → Sorted (λ x y, R (f x) (f y)) l.
Proof.
  induction l as [|x l IH]; intros Hs; [constructor|].
  rewrite fmap_cons in Hs. apply Sorted_inv in Hs as [Hs Hhd].
  constructor; [by apply IH|].
  destruct l as [|y l]; [constructor|].
  rewrite fmap_cons in Hhd. apply HdRel_inv in Hhd. by constructor.
Qed.

End ListFacts.

Lemma SUM_Permutation (l k : list Z) : l ≡ₚ k → SUM l = SUM k.
Proof.
  unfold SUM. induction 1 as [|x l k _ IH|x y l|l k m _ IH1 _ IH2]; simpl;
    lia.
Qed.

Lemma COUNT_DISTINCT_Permutation (l k : list Z) :
  l ≡ₚ k → COUNT_DISTINCT l = COUNT_DISTINCT k.
Proof.
  intros Hlk. unfold COUNT_DISTINCT. f_equal. apply Permutation_length.
  apply NoDup_Permutation; [apply NoDup_remove_dups..|].
  intros x. rewrite !elem_of_remove_dups, Hlk. done.
Qed.

Section Prolific.

Variables (t : Tables) (storeId : Z).

Lemma joinedRows_blocks :
  joinedRows t storeId = authors t ≫= authorBlock t storeId.
Proof. reflexivity. Qed.

Lemma authorBlock_author a r : r ∈ authorBlock t storeId a → r.1.1 = a.
Proof.
  unfold authorBlock. intros Hr.
  apply list_elem_of_bind in Hr as (b & Hr & _).
  apply list_elem_of_bind in Hr as (sb & Hr & _).
  apply list_elem_of_singleton in Hr as ->. done.
Qed.

Lemma positions_of_singletons (a : Author.t) (b : Book.t)
    (l : list StoreBook.t) :
  (λ r : Author.t * Book.t * StoreBook.t, r.2) <$> (l ≫= λ sb, [(a, b, sb)])
  = l.
Proof.
  induction l as [|sb l IH]; [done|].
  rewrite bind_cons, fmap_app, IH. done.
Qed.

Lemma block_positions (a : Author.t) (bs : list Book.t) :
  NoDup (Book.id <$> bs) →
  (λ r : Author.t * Book.t * StoreBook.t, r.2)
    <$> (filter (λ b, Book.author_id b = Author.id a) bs ≫= λ b,
         filter (λ sb, StoreBook.book_id sb = Book.id b
                       ∧ available storeId sb = true) (store_books t)
         ≫= λ sb, [(a, b, sb)])
  ≡ₚ filter (λ sb, available storeId sb = true
                   ∧ Exists (λ b, Book.id b = StoreBook.book_id sb
                                  ∧ Book.author_id b = Author.id a) bs)
       (store_books t).
Proof.
  induction bs as [|b0 bs IH]; intros Hnd.
  - rewrite (filter_nothing _ (store_books t)); [done|].
    intros sb _ [_ HE]. by apply Exists_nil in HE.
  - rewrite fmap_cons in Hnd. apply NoDup_cons in Hnd as [Hb0 Hnd].
    destruct (decide (Book.author_id b0 = Author.id a)) as [Ha|Ha].
    + rewrite filter_cons_True by done.
      rewrite bind_cons, fmap_app, positions_of_singletons, (IH Hnd).
      symmetry. apply filter_disjoint_or.
      * intros sb. rewrite Exists_cons. split.
        -- intros [Hav [[Hid _]|HE]]; [left|right]; done.
        -- intros [[Hid Hav]|[Hav HE]]; (split; [done|]); [left|right]; done.
      * intros sb [Hsb _] [_ HE]. apply Hb0.
        apply Exists_exists in HE as (b & Hb & Hid & _).
        rewrite <- Hsb, <- Hid. by apply list_elem_of_fmap_2.
    + rewrite filter_cons_False by done. rewrite (IH Hnd).
      apply reflexive_eq, list_filter_iff.
      intros sb. rewrite Exists_cons. split.
      * intros [Hav HE]. split; [done|by right].
      * intros [Hav [[_ Hau]|HE]]; done.
Qed.

Lemma authorBlock_positions a :
  NoDup (Book.id <$> books t) →
  (λ r : Author.t * Book.t * StoreBook.t, r.2) <$> authorBlock t storeId a
  ≡ₚ availablePositions t storeId a.
Proof.
  intros Hnd. unfold authorBlock, availablePositions.
  rewrite (block_positions a (books t) Hnd).
  apply reflexive_eq, list_filter_iff.
  intros sb. unfold writtenBy. rewrite Exists_exists. naive_solver.
Qed.

Lemma authorBlock_nil a :
  NoDup (Book.id <$> books t) →
  authorBlock t storeId a = [] ↔ availablePositions t storeId a = [].
Proof.
  intros Hnd. pose proof (authorBlock_positions a Hnd) as Hperm.
  split; intros Hnil.
  - rewrite Hnil in Hperm. by apply Permutation_nil_l in Hperm.
  - rewrite Hnil in Hperm. apply Permutation_nil_r in Hperm.
    by apply fmap_nil_inv in Hperm.
Qed.

Lemma group_of_author a :
  NoDup (Author.id <$> authors t) → a ∈ authors t →
  filter (λ r, groupKey r = (Author.id a, Author.name a))
    (joinedRows t storeId)
  = authorBlock t storeId a.
Proof.
  intros Hnd Ha. rewrite joinedRows_blocks.
  rewrite (filter_bind _ (λ a', Author.id a' = Author.id a)).
  - rewrite (filter_same_key Author.id) by done.
    rewrite bind_singleton. done.
  - intros a' r Ha' Hr. apply authorBlock_author in Hr.
    unfold groupKey. rewrite Hr. split.
    + intros [= Hid _]. done.
    + intros Hid.
      assert (a' = a) as -> by (by apply (NoDup_fmap_eq Author.id (authors t))).
      done.
Qed.

(** The row that the SELECT makes for an author. *)
Lemma aggregate_author a :
  primaryKeys t → a ∈ authors t →
  prolificAuthor
    (aggregate (joinedRows t storeId) (Author.id a, Author.name a))
  = authorSummary t storeId a.
Proof.
  intros [Hauthors Hbooks _] Ha. unfold aggregate. cbn zeta.
  rewrite (group_of_author a Hauthors Ha).
  unfold prolificAuthor, authorSummary. cbn.
  pose proof (authorBlock_positions a Hbooks) as Hperm.
  f_equal.
  - apply COUNT_DISTINCT_Permutation.
    rewrite <- Hperm, <- list_fmap_compose. done.
  - apply SUM_Permutation.
    rewrite <- Hperm, <- list_fmap_compose. done.
Qed.

(** The groups are the authors with an available position. *)
Lemma group_keys :
  primaryKeys t →
  remove_dups (groupKey <$> joinedRows t storeId)
  ≡ₚ (λ a, (Author.id a, Author.name a))
       <$> filter (λ a, availablePositions t storeId a ≠ []) (authors t).
Proof.
  intros [Hauthors Hbooks _].
  apply NoDup_Permutation.
  - apply NoDup_remove_dups.
  - apply NoDup_fmap_2_strong.
    + intros a a' Ha Ha' [= Hid _].
      apply list_elem_of_filter in Ha as [_ Ha].
      apply list_elem_of_filter in Ha' as [_ Ha'].
      by apply (NoDup_fmap_eq Author.id (authors t)).
    + apply NoDup_filter. by apply NoDup_fmap_1 in Hauthors.
  - intros k. rewrite elem_of_remove_dups, !list_elem_of_fmap. split.
    + intros (r & -> & Hr). rewrite joinedRows_blocks in Hr.
      apply list_elem_of_bind in Hr as (a & Hr & Ha).
      exists a. split.
      * apply authorBlock_author in Hr. unfold groupKey. by rewrite Hr.
      * apply list_elem_of_filter. split; [|done].
        intros Hnil%authorBlock_nil; [|done].
        rewrite Hnil in Hr. by apply not_elem_of_nil in Hr.
    + intros (a & -> & [Hpos Ha]%list_elem_of_filter).
      destruct (authorBlock t storeId a) as [|r rs] eqn:Hblock.
      { exfalso. apply Hpos. by apply authorBlock_nil. }
      exists r. split.
      * assert (Hr : r ∈ authorBlock t storeId a)
          by (rewrite Hblock; by left).
        apply authorBlock_author in Hr. unfold groupKey. by rewrite Hr.
      * rewrite joinedRows_blocks. apply list_elem_of_bind.
        exists a. split; [|done]. rewrite Hblock. by left.
Qed.

Lemma prolificDesc_outranks x y :
  prolificDesc x y ↔ outranks (prolificAuthor x) (prolificAuthor y).
Proof. done. Qed.

Global Instance prolificDesc_total : Total prolificDesc.
Proof. intros x y. unfold prolificDesc. lia. Qed.

End Prolific.

Lemma Permutation_fmap_inv {A B} (f : A → B) (l1 : list B) (l2 : list A) :
  l1 ≡ₚ f <$> l2 → ∃ l3, l1 = f <$> l3 ∧ l2 ≡ₚ l3.
Proof. exact (@Permutation_map_inv _ _ f l1 l2). Qed.

(** C6. With the primary keys in place, the prolific-authors query always
    has an answer, and every answer is made of the authors that have at
    least one book among the store's non-sold-out positions, arranged
    with more distinct books first and, for as many books, more copies
    first, cut after the fifth; each entry carries the author's name, the
    number of his distinct books among these positions and the sum of
    their copies. *)
Theorem prolific_authors (t : Tables) (storeId : Z) :
  primaryKeys t →
  (∃ result, getTopProlificAuthors t storeId result)
  ∧ ∀ result, getTopProlificAuthors t storeId result →
      ∃ ranked,
        ranked ≡ₚ filter (λ a, availablePositions t storeId a ≠ [])
                    (authors t)
        ∧ Sorted (λ a a', outranks (authorSummary t storeId a)
                            (authorSummary t storeId a')) ranked
        ∧ result = authorSummary t storeId <$> take 5 ranked.
Proof.
  intros Hpk. split.
  - eexists. eexists. split; [|reflexivity].
    apply (orderedLimit_exists prolificDesc).
  - intros result (rows & (arranged & Hperm & Hsorted & ->) & ->).
    unfold groupedRows in Hperm. cbn zeta in Hperm.
    rewrite (group_keys t storeId Hpk), <- list_fmap_compose in Hperm.
    apply Permutation_fmap_inv in Hperm as (ranked & -> & Hranked).
    assert (Hin : ∀ a, a ∈ ranked → a ∈ authors t).
    { intros a Ha. rewrite <- Hranked in Ha.
      by apply list_elem_of_filter in Ha as [_ Ha]. }
    assert (Hrow : ∀ a, a ∈ ranked →
              prolificAuthor
                ((aggregate (joinedRows t storeId)
                  ∘ (λ a, (Author.id a, Author.name a))) a)
              = authorSummary t storeId a).
    { intros a Ha. apply aggregate_author; auto. }
    exists ranked. split_and!.
    + by symmetry.
    + apply Sorted_fmap_inv in Hsorted. clear Hranked.
      induction Hsorted as [|a l Hl IH Hhd]; constructor.
      * apply IH; intros; [apply Hin|apply Hrow]; by right.
      * destruct Hhd as [|a' l' Hrel]; constructor.
        apply prolificDesc_outranks in Hrel.
        rewrite <- (Hrow a), <- (Hrow a'); [exact Hrel|right|]; by left.
    + rewrite <- fmap_take, <- list_fmap_compose.
      apply list_fmap_ext. intros i a Hi. simpl. apply Hrow.
      apply list_elem_of_lookup_2 in Hi.
      eapply elem_of_sublist; [exact Hi|apply sublist_take].
Qed.

Lemma prolific_authors_witness :
  primaryKeys twoAuthors
  ∧ ∃ ranked,
      ranked ≡ₚ filter (λ a, availablePositions twoAuthors 1 a ≠ [])
                  (authors twoAuthors)
      ∧ [mkProlificAuthor "B" 2 5; mkProlificAuthor "A" 2 3]
        = authorSummary twoAuthors 1 <$> take 5 ranked.
Proof.
  assert (Hpk : primaryKeys twoAuthors).
  { split; apply (bool_decide_unpack _); vm_compute; exact I. }
  split; [exact Hpk|].
  destruct (prolific_authors twoAuthors 1 Hpk) as [_ Hall].
  destruct (Hall [mkProlificAuthor "B" 2 5; mkProlificAuthor "A" 2 3])
    as (ranked & Hperm & _ & Hresult).
  { exists (sortLimit prolificDesc 5 (groupedRows twoAuthors 1)).
    split; [apply (orderedLimit_exists prolificDesc)|].
    vm_compute. reflexivity. }
  exists ranked. split; [exact Hperm|exact Hresult].
Defined.
(** * Further properties of the ingestion *)

(** ** What each step does to ids, sequences and counters *)

Lemma fmap_map_keys {A K} (key : A → K) (f : A → A) (l : list A) :
  (∀ x, key (f x) = key x) → key <$> map f l = key <$> l.
Proof.
  intros Hf. induction l as [|x l IH]; [done|].
  change (map f (x :: l)) with (f x :: map f l).
  by rewrite !fmap_cons, Hf, IH.
Qed.

Lemma Store_findOne_Some n l s :
  Store.findOne n l = Some s → s ∈ l ∧ Store.name s = n.
Proof.
  intros H. apply find_some in H as [Hin Heq].
  split; [by apply list_elem_of_In|by apply String.eqb_eq].
Qed.

Lemma Store_findOne_None n l :
  Store.findOne n l = None → n ∉ Store.name <$> l.
Proof.
  intros H Hin. apply list_elem_of_fmap in Hin as (s & -> & Hs).
  apply list_elem_of_In in Hs.
  pose proof (find_none _ _ H s Hs) as Hne. simpl in Hne.
  by rewrite String.eqb_refl in Hne.
Qed.

Lemma Author_findOne_Some n l a :
  Author.findOne n l = Some a → a ∈ l ∧ Author.name a = n.
Proof.
  intros H. apply find_some in H as [Hin Heq].
  split; [by apply list_elem_of_In|by apply String.eqb_eq].
Qed.

Lemma Author_findOne_None n l :
  Author.findOne n l = None → n ∉ Author.name <$> l.
Proof.
  intros H Hin. apply list_elem_of_fmap in Hin as (a & -> & Ha).
  apply list_elem_of_In in Ha.
  pose proof (find_none _ _ H a Ha) as Hne. simpl in Hne.
  by rewrite String.eqb_refl in Hne.
Qed.

Lemma Book_findOne_Some n a l b :
  Book.findOne n a l = Some b →
  b ∈ l ∧ Book.name b = n ∧ Book.author_id b = a.
Proof.
  intros H. apply find_some in H as [Hin Heq].
  apply andb_true_iff in Heq as [Hn Ha].
  split_and!; [by apply list_elem_of_In|by apply String.eqb_eq|by apply Z.eqb_eq].
Qed.

Lemma Book_findOne_None n a l :
  Book.findOne n a l = None →
  (n, a) ∉ (λ b, (Book.name b, Book.author_id b)) <$> l.
Proof.
  intros H Hin. apply list_elem_of_fmap in Hin as (b & [= -> ->] & Hb).
  apply list_elem_of_In in Hb.
  pose proof (find_none _ _ H b Hb) as Hne. simpl in Hne.
  by rewrite String.eqb_refl, Z.eqb_refl in Hne.
Qed.

Lemma StoreBook_findOne_Some s b l sb :
  StoreBook.findOne s b l = Some sb →
  sb ∈ l ∧ StoreBook.store_id sb = s ∧ StoreBook.book_id sb = b.
Proof.
  intros H. split; [|by apply (StoreBook_findOne_key s b l)].
  apply find_some in H as [Hin _]. by apply list_elem_of_In.
Qed.

Lemma StoreBook_findOne_None s b l :
  StoreBook.findOne s b l = None →
  (s, b) ∉ (λ sb, (StoreBook.store_id sb, StoreBook.book_id sb)) <$> l.
Proof.
  intros H Hin. apply list_elem_of_fmap in Hin as (sb & [= -> ->] & Hsb).
  apply list_elem_of_In in Hsb.
  pose proof (find_none _ _ H sb Hsb) as Hne. simpl in Hne.
  unfold StoreBook.hasKey in Hne. by rewrite !Z.eqb_refl in Hne.
Qed.

(** Runs the checks of the columns that a computation comes to, one case
    for each outcome. *)
Ltac column_checks :=
  repeat (first
    [ rewrite varchar_run;
      match goal with
      | |- context [JS.length ?s <=? ?n] => destruct (JS.length s <=? n) eqn:?
      end
    | rewrite varcharOrNull_run;
      match goal with
      | |- context [within ?n ?v] => destruct (within n v) eqn:?
      end
    | rewrite integer_run;
      match goal with
      | |- context [(?a <=? ?x) && (?x <=? ?b)] =>
          destruct ((a <=? x) && (x <=? b)) eqn:?
      end
    | rewrite decimal_run;
      match goal with
      | |- context [DECIMAL.ofNumber ?p] => destruct (DECIMAL.ofNumber p) eqn:?
      end
    | progress unfold nextval;
      match goal with
      | |- context [?x <=? 2147483647] => destruct (x <=? 2147483647) eqn:?
      end ]; cbn).

Lemma advances_refl st : advances st st.
Proof. unfold advances. lia. Qed.

Lemma advances_trans st1 st2 st3 :
  advances st1 st2 → advances st2 st3 → advances st1 st3.
Proof. unfold advances. lia. Qed.

Lemma storeStage_advances row st : advances st (storeStage row st).2.
Proof.
  unfold storeStage, Store_findOrCreate, Store_create, whereValue,
    store_update_logo, store_update_address, when, validated, Store.validate,
    getTables, getSequences, setSequences, modifyTables, updateResults,
    bind, ret, throw, advances.
  destruct (row !! "store_name") as [n|]; cbn; [|lia].
  destruct (Store.findOne n (stores (tables (db st)))) as [s|]; cbn.
  - destruct (JS.truthy (row !! "logo")
              && bool_decide (row !! "logo" ≠ Store.logo s));
    destruct (JS.truthy (row !! "store_address")
              && bool_decide (row !! "store_address" ≠ Store.address s));
      cbn; column_checks; lia.
  - destruct (notEmpty n); cbn; column_checks; lia.
Qed.

Lemma authorStage_advances row st : advances st (authorStage row st).2.
Proof.
  unfold authorStage, Author_findOrCreate, Author_create, whereValue, when,
    validated, Author.validate, getTables, getSequences, setSequences,
    modifyTables, updateResults, bind, ret, throw, advances.
  destruct (row !! "author_name") as [n|]; cbn; [|lia].
  destruct (Author.findOne n (authors (tables (db st)))) as [a|]; cbn; [lia|].
  destruct (notEmpty n); cbn; column_checks; lia.
Qed.

Lemma bookStage_advances row author st :
  advances st (bookStage row author st).2.
Proof.
  unfold bookStage, Book_findOrCreate, Book_create, book_update_pages,
    integerOrNull, whereValue, when, validated, Book.validate,
    Book.validatePages, getTables, getSequences, setSequences, modifyTables,
    updateResults, bind, ret, throw, advances.
  destruct (row !! "book_name") as [n|]; cbn; [|lia].
  destruct (Book.findOne n (Author.id author) (books (tables (db st))))
    as [b|]; cbn.
  - destruct (JS.truthy (row !! "pages")); cbn; [|lia].
    destruct (JS.parseInt (JS.toString (row !! "pages"))) as [p|]; cbn; [|lia].
    destruct (bool_decide (Some p ≠ Book.pages b)); cbn; [|lia].
    destruct (1 <=? p); cbn; column_checks; lia.
  - destruct (JS.truthy (row !! "pages")); cbn.
    + destruct (JS.parseInt (JS.toString (row !! "pages"))) as [p|]; cbn;
        [destruct (notEmpty n); cbn; [|lia];
         destruct (1 <=? p); cbn; column_checks; lia
        |destruct (notEmpty n); cbn; column_checks; lia].
    + destruct (notEmpty n); cbn; column_checks; lia.
Qed.

Lemma inventoryStage_advances row store book st :
  advances st (inventoryStage row store book st).2.
Proof.
  pose proof (inventoryStage_spec row store book st) as Hspec.
  pose proof (inventoryStage_sequences row store book st) as Hseq.
  destruct (inventoryStage row store book st) as [[message|[]] st1];
    simpl in *.
  - subst st1. apply advances_refl.
  - destruct Hspec as (_ & _ & _ & _ & _ & price & _ & Hspec). unfold advances.
    rewrite Hseq.
    destruct (StoreBook.findOne _ _ _);
      [destruct Hspec as (_ & _ & ->)|destruct Hspec as [_ ->]]; simpl; lia.
Qed.

Lemma processRowBody_advances row st : advances st (processRowBody row st).2.
Proof.
  rewrite processRowBody_stages. unfold bind.
  pose proof (storeStage_advances row st) as H1.
  destruct (storeStage row st) as [[m1|store] st1]; simpl in *; [done|].
  pose proof (authorStage_advances row st1) as H2.
  destruct (authorStage row st1) as [[m2|author] st2]; simpl in *;
    [by eapply advances_trans|].
  pose proof (bookStage_advances row author st2) as H3.
  destruct (bookStage row author st2) as [[m3|book] st3]; simpl in *;
    [eauto using advances_trans|].
  pose proof (inventoryStage_advances row store book st3) as H4.
  eauto using advances_trans.
Qed.

Lemma processRow_advances row n st : advances st (processRow row n st).2.
Proof.
  rewrite processRow_eq. pose proof (processRowBody_advances row st) as H.
  destruct (processRowBody row st) as [[message|[]] st1]; simpl in *; done.
Qed.

(** ** The keys of the tables are kept *)

Lemma refreshed_name row store s :
  Store.name (refreshed row store s) = Store.name s.
Proof. unfold refreshed. destruct (Store.id s =? Store.id store); done. Qed.

Lemma repaged_key row book b :
  (Book.name (repaged row book b), Book.author_id (repaged row book b))
  = (Book.name b, Book.author_id b).
Proof.
  unfold repaged. destruct (Book.id b =? Book.id book); [|done].
  destruct (rowPages row); [|done]. case_bool_decide; done.
Qed.

Lemma repaged_author row book b :
  Book.author_id (repaged row book b) = Book.author_id b.
Proof. pose proof (repaged_key row book b) as H. congruence. Qed.

Lemma restocked_key price existing sb :
  (StoreBook.store_id (restocked price existing sb),
   StoreBook.book_id (restocked price existing sb))
  = (StoreBook.store_id sb, StoreBook.book_id sb).
Proof. unfold restocked. destruct (StoreBook.hasKey _ _ sb); done. Qed.

Lemma NoDup_snoc {A} (l : list A) (x : A) :
  NoDup l → x ∉ l → NoDup (l ++ [x])%list.
Proof.
  intros Hl Hx. apply NoDup_app. split_and!; [done| |apply NoDup_singleton].
  intros y Hy ->%list_elem_of_singleton. done.
Qed.

Lemma drawn_fresh (l : list Z) (next : Z) :
  Forall (λ i, i < next) l → next ∉ l.
Proof.
  intros Hl Hin. rewrite Forall_forall in Hl. specialize (Hl _ Hin). lia.
Qed.

Lemma drawn_snoc (l : list Z) (next : Z) :
  Forall (λ i, i < next) l → Forall (λ i, i < next + 1) (l ++ [next]).
Proof.
  intros Hl. apply Forall_app. split.
  - eapply Forall_impl; [exact Hl|]. simpl. intros; lia.
  - constructor; [lia|constructor].
Qed.

Lemma storesOk_refreshed row store rows next :
  storesOk rows next → storesOk (map (refreshed row store) rows) next.
Proof.
  intros [Hid Hname Hdrawn]. split.
  - rewrite fmap_map_keys; [done|]. apply refreshed_id.
  - rewrite fmap_map_keys; [done|]. apply refreshed_name.
  - rewrite fmap_map_keys; [done|]. apply refreshed_id.
Qed.

Lemma storesOk_snoc rows next store :
  storesOk rows next → Store.id store = next →
  Store.name store ∉ Store.name <$> rows →
  storesOk (rows ++ [store]) (next + 1).
Proof.
  intros [Hid Hname Hdrawn] Hnext Hfresh. split; rewrite fmap_app; simpl.
  - apply NoDup_snoc; [done|]. rewrite Hnext. by apply drawn_fresh.
  - by apply NoDup_snoc.
  - rewrite Hnext. by apply drawn_snoc.
Qed.

Lemma authorsOk_snoc rows next author :
  authorsOk rows next → Author.id author = next →
  Author.name author ∉ Author.name <$> rows →
  authorsOk (rows ++ [author]) (next + 1).
Proof.
  intros [Hid Hname Hdrawn] Hnext Hfresh. split; rewrite fmap_app; simpl.
  - apply NoDup_snoc; [done|]. rewrite Hnext. by apply drawn_fresh.
  - by apply NoDup_snoc.
  - rewrite Hnext. by apply drawn_snoc.
Qed.

Lemma booksOk_authors rows next authorIds authorIds' :
  (∀ i, i ∈ authorIds → i ∈ authorIds') →
  booksOk rows next authorIds → booksOk rows next authorIds'.
Proof.
  intros Hsub [Hid Hname Hdrawn Hauthor]. split; try done.
  eapply Forall_impl; [exact Hauthor|]. exact Hsub.
Qed.

Lemma booksOk_repaged row book rows next authorIds :
  booksOk rows next authorIds →
  booksOk (map (repaged row book) rows) next authorIds.
Proof.
  intros [Hid Hname Hdrawn Hauthor]. split.
  - rewrite fmap_map_keys; [done|]. apply repaged_id.
  - rewrite (fmap_map_keys (λ b, (Book.name b, Book.author_id b)));
      [done|]. apply repaged_key.
  - rewrite fmap_map_keys; [done|]. apply repaged_id.
  - rewrite fmap_map_keys; [done|]. apply repaged_author.
Qed.

Lemma booksOk_snoc rows next authorIds book :
  booksOk rows next authorIds → Book.id book = next →
  (Book.name book, Book.author_id book)
    ∉ (λ b, (Book.name b, Book.author_id b)) <$> rows →
  Book.author_id book ∈ authorIds →
  booksOk (rows ++ [book]) (next + 1) authorIds.
Proof.
  intros [Hid Hname Hdrawn Hauthor] Hnext Hfresh Hin.
  split; rewrite fmap_app; simpl.
  - apply NoDup_snoc; [done|]. rewrite Hnext. by apply drawn_fresh.
  - by apply NoDup_snoc.
  - rewrite Hnext. by apply drawn_snoc.
  - apply Forall_app. split; [done|]. constructor; [done|constructor].
Qed.

Lemma inventoryOk_more rows storeIds storeIds' bookIds bookIds' :
  (∀ i, i ∈ storeIds → i ∈ storeIds') → (∀ i, i ∈ bookIds → i ∈ bookIds') →
  inventoryOk rows storeIds bookIds → inventoryOk rows storeIds' bookIds'.
Proof.
  intros Hs Hb [Hkey Hstore Hbook]. split; [done| |].
  - eapply Forall_impl; [exact Hstore|]. exact Hs.
  - eapply Forall_impl; [exact Hbook|]. exact Hb.
Qed.

Lemma inventoryOk_restocked price existing rows storeIds bookIds :
  inventoryOk rows storeIds bookIds →
  inventoryOk (map (restocked price existing) rows) storeIds bookIds.
Proof.
  intros [Hkey Hstore Hbook]. split.
  - rewrite (fmap_map_keys
               (λ sb, (StoreBook.store_id sb, StoreBook.book_id sb)));
      [done|]. apply restocked_key.
  - rewrite fmap_map_keys; [done|]. intros sb.
    pose proof (restocked_key price existing sb). congruence.
  - rewrite fmap_map_keys; [done|]. intros sb.
    pose proof (restocked_key price existing sb). congruence.
Qed.

Lemma inventoryOk_snoc rows storeIds bookIds sb :
  inventoryOk rows storeIds bookIds →
  (StoreBook.store_id sb, StoreBook.book_id sb)
    ∉ (λ sb, (StoreBook.store_id sb, StoreBook.book_id sb)) <$> rows →
  StoreBook.store_id sb ∈ storeIds → StoreBook.book_id sb ∈ bookIds →
  inventoryOk (rows ++ [sb]) storeIds bookIds.
Proof.
  intros [Hkey Hstore Hbook] Hfresh Hs Hb. split; rewrite fmap_app; simpl.
  - by apply NoDup_snoc.
  - apply Forall_app. split; [done|]. constructor; [done|constructor].
  - apply Forall_app. split; [done|]. constructor; [done|constructor].
Qed.

Lemma drawn_weaken (l : list Z) (next next' : Z) :
  next <= next' → Forall (λ i, i < next) l → Forall (λ i, i < next') l.
Proof.
  intros Hle Hl. eapply Forall_impl; [exact Hl|]. simpl. intros; lia.
Qed.

Lemma storesOk_weaken rows next next' :
  next <= next' → storesOk rows next → storesOk rows next'.
Proof. intros Hle [? ? ?]. split; eauto using drawn_weaken. Qed.

Lemma authorsOk_weaken rows next next' :
  next <= next' → authorsOk rows next → authorsOk rows next'.
Proof. intros Hle [? ? ?]. split; eauto using drawn_weaken. Qed.

Lemma booksOk_weaken rows next next' authorIds :
  next <= next' → booksOk rows next authorIds → booksOk rows next' authorIds.
Proof. intros Hle [? ? ? ?]. split; eauto using drawn_weaken. Qed.

Lemma elem_of_snoc_l {A} (l : list A) (x y : A) :
  y ∈ l → y ∈ (l ++ [x])%list.
Proof. intros. apply elem_of_app. by left. Qed.

Lemma elem_of_snoc_r {A} (l : list A) (x : A) : x ∈ (l ++ [x])%list.
Proof. apply elem_of_app. right. by apply list_elem_of_singleton. Qed.

Lemma storeStage_consistent row st store st1 :
  consistent (db st) → storeStage row st = (inr store, st1) →
  consistent (db st1) ∧ Store.id store ∈ Store.id <$> storesOf st1.
Proof.
  intros [Hs Ha Hb Hi] Hrun.
  pose proof (storeStage_spec row st) as S. rewrite Hrun in S.
  destruct S as (A1 & B1 & I1 & _ & n & Hn & S).
  pose proof (storeStage_effect row st n Hn) as E. rewrite Hrun in E.
  unfold storesOf, authorsOf, booksOf, inventoryOf in *.
  destruct (Store.findOne n (stores (tables (db st)))) as [s|] eqn:Hfind.
  - destruct S as (-> & R1 & _). destruct E as [Eseq _].
    apply Store_findOne_Some in Hfind as [Hin _].
    split.
    + split; rewrite ?R1, ?A1, ?B1, ?I1, ?Eseq.
      * by apply storesOk_refreshed.
      * done.
      * done.
      * rewrite fmap_map_keys by apply refreshed_id. done.
    + rewrite R1, fmap_map_keys by apply refreshed_id.
      apply list_elem_of_fmap. eauto.
  - destruct S as ((id & Hstore) & R1 & _). destruct E as (Eid & _ & Eseq & _).
    apply Store_findOne_None in Hfind.
    split.
    + split; rewrite ?R1, ?A1, ?B1, ?I1, ?Eseq; simpl.
      * apply storesOk_snoc; [done|done|]. subst store. done.
      * done.
      * done.
      * eapply inventoryOk_more; [| |exact Hi]; [|done].
        intros i Hi'. rewrite fmap_app. by apply elem_of_snoc_l.
    + rewrite R1, fmap_app. apply elem_of_snoc_r.
Qed.

Lemma authorStage_consistent row st author st1 :
  consistent (db st) → authorStage row st = (inr author, st1) →
  consistent (db st1) ∧ Author.id author ∈ Author.id <$> authorsOf st1.
Proof.
  intros [Hs Ha Hb Hi] Hrun.
  pose proof (authorStage_spec row st) as S. rewrite Hrun in S.
  destruct S as (R1 & B1 & I1 & _ & n & Hn & S).
  pose proof (authorStage_effect row st n Hn) as E. rewrite Hrun in E.
  unfold storesOf, authorsOf, booksOf, inventoryOf in *.
  destruct (Author.findOne n (authors (tables (db st)))) as [a|] eqn:Hfind.
  - destruct S as (-> & A1). destruct E as [Eseq _].
    apply Author_findOne_Some in Hfind as [Hin _].
    split.
    + split; rewrite ?R1, ?A1, ?B1, ?I1, ?Eseq; done.
    + rewrite A1. apply list_elem_of_fmap. eauto.
  - destruct S as ((id & Hauthor) & A1). destruct E as (Eid & _ & Eseq & _).
    apply Author_findOne_None in Hfind.
    split.
    + split; rewrite ?R1, ?A1, ?B1, ?I1, ?Eseq; simpl.
      * done.
      * apply authorsOk_snoc; [done|done|]. subst author. done.
      * eapply booksOk_authors; [|exact Hb].
        intros i Hi'. rewrite fmap_app. by apply elem_of_snoc_l.
      * done.
    + rewrite A1, fmap_app. apply elem_of_snoc_r.
Qed.

Lemma bookStage_consistent row author st book st1 :
  consistent (db st) → Author.id author ∈ Author.id <$> authorsOf st →
  bookStage row author st = (inr book, st1) →
  consistent (db st1) ∧ Book.id book ∈ Book.id <$> booksOf st1.
Proof.
  intros [Hs Ha Hb Hi] Hauthor Hrun.
  pose proof (bookStage_spec row author st) as S. rewrite Hrun in S.
  destruct S as (R1 & A1 & I1 & _ & n & Hn & S).
  pose proof (bookStage_effect row author st n Hn) as E. rewrite Hrun in E.
  unfold storesOf, authorsOf, booksOf, inventoryOf in *.
  destruct (Book.findOne n (Author.id author) (books (tables (db st))))
    as [b|] eqn:Hfind.
  - destruct S as (-> & B1). destruct E as [Eseq _].
    apply Book_findOne_Some in Hfind as [Hin _].
    split.
    + split; rewrite ?R1, ?A1, ?B1, ?I1, ?Eseq.
      * done.
      * done.
      * by apply booksOk_repaged.
      * rewrite fmap_map_keys by apply repaged_id. done.
    + rewrite B1, fmap_map_keys by apply repaged_id.
      apply list_elem_of_fmap. eauto.
  - destruct S as ((id & Hbook) & B1). destruct E as (Eid & _ & Eseq & _).
    apply Book_findOne_None in Hfind.
    split.
    + split; rewrite ?R1, ?A1, ?B1, ?I1, ?Eseq; simpl.
      * done.
      * done.
      * apply booksOk_snoc; [done|done| |]; subst book; done.
      * eapply inventoryOk_more; [| |exact Hi]; [done|].
        intros i Hi'. rewrite fmap_app. by apply elem_of_snoc_l.
    + rewrite B1, fmap_app. apply elem_of_snoc_r.
Qed.

Lemma inventoryStage_consistent row store book st st1 :
  consistent (db st) →
  Store.id store ∈ Store.id <$> storesOf st →
  Book.id book ∈ Book.id <$> booksOf st →
  inventoryStage row store book st = (inr tt, st1) →
  consistent (db st1).
Proof.
  intros [Hs Ha Hb Hi] Hstore Hbook Hrun.
  pose proof (inventoryStage_spec row store book st) as S. rewrite Hrun in S.
  destruct S as (R1 & A1 & B1 & _ & _ & price & _ & S).
  pose proof (inventoryStage_sequences row store book st) as Eseq.
  rewrite Hrun in Eseq. simpl in Eseq.
  unfold storesOf, authorsOf, booksOf, inventoryOf in *.
  destruct (StoreBook.findOne (Store.id store) (Book.id book)
              (store_books (tables (db st)))) as [existing|] eqn:Hfind.
  - destruct S as (_ & I1 & _).
    split; rewrite ?R1, ?A1, ?B1, ?I1, ?Eseq; try done.
    by apply inventoryOk_restocked.
  - destruct S as [I1 _]. apply StoreBook_findOne_None in Hfind.
    split; rewrite ?R1, ?A1, ?B1, ?I1, ?Eseq; try done.
    by apply inventoryOk_snoc.
Qed.

Lemma consistent_primaryKeys d : consistent d → primaryKeys (tables d).
Proof.
  intros [_ [Ha _ _] [Hb _ _ _] [Hi _ _]]. split; done.
Qed.

Lemma processRow_consistent row n st :
  consistent (db st) → consistent (db (processRow row n st).2).
Proof.
  intros Hdb. rewrite processRow_eq.
  pose proof (processRowBody_advances row st) as Hadv.
  destruct (processRowBody row st) as [[message|[]] st4] eqn:Hbody;
    simpl in *.
  - destruct Hdb as [Hs Ha Hb Hi]. destruct Hadv as (? & ? & ? & _).
    split; simpl;
      eauto using storesOk_weaken, authorsOk_weaken, booksOk_weaken.
  - apply processRowBody_returns_inv in Hbody
      as (store & author & book & st1 & st2 & st3 & H1 & H2 & H3 & H4).
    destruct (storeStage_consistent _ _ _ _ Hdb H1) as [Hdb1 Hstore].
    destruct (authorStage_consistent _ _ _ _ Hdb1 H2) as [Hdb2 Hauthor].
    destruct (bookStage_consistent _ _ _ _ _ Hdb2 Hauthor H3) as [Hdb3 Hbook].
    pose proof (authorStage_spec row st1) as S2. rewrite H2 in S2.
    pose proof (bookStage_spec row author st2) as S3. rewrite H3 in S3.
    destruct S2 as (R2 & _). destruct S3 as (R3 & _).
    apply (inventoryStage_consistent row store book st3); try done.
    by rewrite R3, R2.
Qed.

Lemma processRows_consistent rows : ∀ st,
  consistent (db st) → consistent (db (processRows rows st).2).
Proof.
  induction rows as [|v rows IH]; intros st Hdb; [done|].
  rewrite processRows_cons.
  pose proof (processRow_consistent (data v) (rowNumber v) st Hdb) as Hrow.
  destruct (processRow (data v) (rowNumber v) st) as [[message|[]] st1];
    apply IH; exact Hrow.
Qed.

Lemma processCSV_eq records database :
  processCSV records database
  = (results (processRows (Worker.validatedRows (Worker.csvParserWorker records))
                (initialState records database)).2,
     db (processRows (Worker.validatedRows (Worker.csvParserWorker records))
           (initialState records database)).2).
Proof.
  unfold processCSV, initialState.
  destruct (processRows _ _) as [u st]. reflexivity.
Qed.

(** X1. Ingestion keeps a consistent database consistent: after
    [processCSV] the ids are still unique and below the next value of
    their sequence, the names of stores and of authors and the (name,
    author) pairs of books are still unique, every book still has its
    author and every position its store and its book.  In particular the
    primary keys hold. *)
Theorem processCSV_keeps_consistent (records : list Row) (database : Database) :
  consistent database →
  consistent (processCSV records database).2
  ∧ primaryKeys (tables (processCSV records database).2).
Proof.
  intros Hdb.
  assert (H : consistent (processCSV records database).2).
  { rewrite processCSV_eq. simpl. by apply processRows_consistent. }
  split; [exact H|]. by apply consistent_primaryKeys.
Qed.

Lemma consistent_emptyDatabase : consistent emptyDatabase.
Proof.
  repeat split; simpl; constructor.
Qed.

Lemma consistent_austenShelf : consistent austenShelf.
Proof.
  repeat split; simpl; apply (bool_decide_unpack _); vm_compute; exact I.
Qed.

Lemma processCSV_keeps_consistent_witness :
  consistent emptyDatabase
  ∧ consistent (processCSV [negativePrice; gatsby] emptyDatabase).2
  ∧ primaryKeys (tables (processCSV [negativePrice; gatsby] emptyDatabase).2).
Proof.
  split; [apply consistent_emptyDatabase|].
  apply processCSV_keeps_consistent, consistent_emptyDatabase.
Defined.

(** ** What one row does to the inventory table *)

Lemma processRow_throws_tables row n st message st' :
  processRow row n st = (inl message, st') → tables (db st') = tables (db st).
Proof.
  rewrite processRow_eq.
  destruct (processRowBody row st) as [[m|[]] st1]; [|done].
  intros [= _ <-]. reflexivity.
Qed.

Lemma processRow_returns_inv row n st st' :
  processRow row n st = (inr tt, st') →
  ∃ store author book st1 st2 st3,
    storeStage row st = (inr store, st1)
    ∧ authorStage row st1 = (inr author, st2)
    ∧ bookStage row author st2 = (inr book, st3)
    ∧ inventoryStage row store book st3 = (inr tt, st').
Proof.
  rewrite processRow_eq.
  destruct (processRowBody row st) as [[m|[]] st1] eqn:Hbody; [done|].
  intros [= <-]. by apply processRowBody_returns_inv.
Qed.

Lemma processRow_restocks row n st st' :
  processRow row n st = (inr tt, st') →
  ∃ c,
    rowDecimal row = inr (DECIMAL.hundredths c) ∧ 0 <= c
    ∧ ((∃ existing,
          existing ∈ inventoryOf st
          ∧ StoreBook.copies existing + 1 <= maxInteger
          ∧ inventoryOf st'
            = map (restocked (DECIMAL.hundredths c) existing) (inventoryOf st)
          ∧ created_inventory (results st') = created_inventory (results st))
       ∨ (∃ s b,
            ((s, b) ∉ (λ sb, (StoreBook.store_id sb, StoreBook.book_id sb))
                      <$> inventoryOf st)
            ∧ inventoryOf st'
              = (inventoryOf st
                 ++ [StoreBook.mk s b (DECIMAL.hundredths c) 1 false])%list
            ∧ created_inventory (results st')
              = created_inventory (results st) + 1)).
Proof.
  intros Hrun. apply processRow_returns_inv in Hrun
    as (store & author & book & st1 & st2 & st3 & H1 & H2 & H3 & H4).
  pose proof (storeStage_spec row st) as S1. rewrite H1 in S1.
  pose proof (authorStage_spec row st1) as S2. rewrite H2 in S2.
  pose proof (bookStage_spec row author st2) as S3. rewrite H3 in S3.
  pose proof (inventoryStage_spec row store book st3) as S4. rewrite H4 in S4.
  destruct S1 as (_ & _ & I1 & T1 & _). destruct S2 as (_ & _ & I2 & T2 & _).
  destruct S3 as (_ & _ & I3 & T3 & _).
  destruct S4 as (_ & _ & _ & Hnan & Hneg & price & Hprice & S4).
  destruct (ofNumber_nonneg _ _ Hprice Hnan Hneg) as (c & -> & Hc & _).
  assert (Hinv : inventoryOf st3 = inventoryOf st) by congruence.
  assert (Hcount : created_inventory (results st3)
                   = created_inventory (results st))
    by (unfold tally in *; congruence).
  rewrite Hinv in S4. exists c. split; [done|]. split; [done|].
  destruct (StoreBook.findOne (Store.id store) (Book.id book) (inventoryOf st))
    as [existing|] eqn:Hfind.
  - destruct S4 as (Hmax & I4 & R4).
    left. exists existing. apply StoreBook_findOne_Some in Hfind as [Hin _].
    rewrite R4. simpl. split_and!; [done|lia|done|done].
  - destruct S4 as [I4 R4].
    right. exists (Store.id store), (Book.id book).
    apply StoreBook_findOne_None in Hfind. rewrite R4. simpl.
    split_and!; [done|done|lia].
Qed.

Lemma processRow_processed row n st :
  processed (results (processRow row n st).2) = processed (results st)
  ∧ errors (results (processRow row n st).2) = errors (results st).
Proof.
  pose proof (processRow_counts row n st) as H. simpl in H.
  destruct H as (? & ? & _). done.
Qed.

(** ** What ingestion writes is on offer *)

Lemma processRow_onOffer row n st (old : list StoreBook.t) :
  Forall (λ sb, 0 <= StoreBook.copies sb) (inventoryOf st) →
  Forall (λ sb, onOffer sb ∨ sb ∈ old) (inventoryOf st) →
  Forall (λ sb, 0 <= StoreBook.copies sb) (inventoryOf (processRow row n st).2)
  ∧ Forall (λ sb, onOffer sb ∨ sb ∈ old) (inventoryOf (processRow row n st).2).
Proof.
  intros Hcopies Hall.
  destruct (processRow row n st) as [[message|[]] st'] eqn:Hrun; simpl.
  - apply processRow_throws_tables in Hrun. unfold inventoryOf in *.
    by rewrite Hrun.
  - apply processRow_restocks in Hrun
      as (c & _ & Hc
          & [(existing & Hin & _ & -> & _)|(s & b & _ & -> & _)]).
    + rewrite Forall_forall in Hcopies, Hall.
      pose proof (Hcopies existing Hin) as Hexisting. simpl in Hexisting.
      split; apply Forall_forall; intros sb' Hsb';
        apply list_elem_of_In, in_map_iff in Hsb' as (sb & <- & Hsb);
        apply list_elem_of_In in Hsb; unfold restocked;
        destruct (StoreBook.hasKey _ _ sb); simpl;
        [lia|by apply Hcopies| |by apply Hall].
      left. unfold onOffer. simpl. split_and!; [lia|done|]. by exists c.
    + split; (apply Forall_app; split; [done|]);
        (constructor; [|constructor]); simpl; [lia|].
      left. unfold onOffer. simpl. split_and!; [lia|done|]. by exists c.
Qed.

Lemma processRows_onOffer rows (old : list StoreBook.t) : ∀ st,
  Forall (λ sb, 0 <= StoreBook.copies sb) (inventoryOf st) →
  Forall (λ sb, onOffer sb ∨ sb ∈ old) (inventoryOf st) →
  Forall (λ sb, onOffer sb ∨ sb ∈ old) (inventoryOf (processRows rows st).2).
Proof.
  induction rows as [|v rows IH]; intros st Hcopies Hall; [done|].
  rewrite processRows_cons.
  pose proof (processRow_onOffer (data v) (rowNumber v) st old Hcopies Hall)
    as [Hcopies' Hall'].
  destruct (processRow (data v) (rowNumber v) st) as [[message|[]] st1];
    apply IH; done.
Qed.

(** X2. When no position has a negative number of copies,
    every position in the table after [processCSV] either is on offer (at
    least one copy, not sold out, a price that is a number and not
    negative) or is a row of the table as it was before: what ingestion
    writes is on offer. *)
Theorem processCSV_writes_on_offer (records : list Row) (database : Database) :
  Forall (λ sb, 0 <= StoreBook.copies sb) (store_books (tables database)) →
  Forall (λ sb, onOffer sb ∨ sb ∈ store_books (tables database))
    (store_books (tables (processCSV records database).2)).
Proof.
  intros Hcopies. rewrite processCSV_eq. simpl.
  apply (processRows_onOffer _ _ (initialState records database)); [done|].
  apply Forall_forall. intros sb Hsb. by right.
Qed.

Lemma processCSV_writes_on_offer_witness :
  Forall (λ sb, 0 <= StoreBook.copies sb) (store_books (tables stocked))
  ∧ ¬ Forall onOffer (store_books (tables stocked))
  ∧ Forall (λ sb, onOffer sb ∨ sb ∈ store_books (tables stocked))
      (store_books (tables (processCSV [gatsby] stocked).2)).
Proof.
  assert (H : Forall (λ sb, 0 <= StoreBook.copies sb)
                (store_books (tables stocked))).
  { repeat constructor. simpl. lia. }
  split; [exact H|]. split.
  - intros Hall. unfold stocked in Hall. cbn [store_books tables] in Hall.
    apply Forall_cons in Hall as [(_ & Hsold & _) _]. discriminate.
  - apply (processCSV_writes_on_offer [gatsby] stocked H).
Defined.

(** ** Every processed row adds one copy *)

Lemma restocked_elsewhere price existing l :
  (StoreBook.store_id existing, StoreBook.book_id existing)
    ∉ (λ sb, (StoreBook.store_id sb, StoreBook.book_id sb)) <$> l →
  map (restocked price existing) l = l.
Proof.
  induction l as [|x l IH]; intros Hfresh; [done|].
  rewrite fmap_cons, not_elem_of_cons in Hfresh. destruct Hfresh as [Hx Hl].
  simpl. rewrite IH by done. f_equal. unfold restocked, StoreBook.hasKey.
  destruct (StoreBook.store_id x =? StoreBook.store_id existing) eqn:Hs;
    [|done].
  destruct (StoreBook.book_id x =? StoreBook.book_id existing) eqn:Hb;
    [|done].
  apply Z.eqb_eq in Hs, Hb. congruence.
Qed.

Lemma SUM_restocked price existing l :
  NoDup ((λ sb, (StoreBook.store_id sb, StoreBook.book_id sb)) <$> l) →
  existing ∈ l →
  SUM (StoreBook.copies <$> map (restocked price existing) l)
  = SUM (StoreBook.copies <$> l) + 1.
Proof.
  induction l as [|x l IH]; intros Hkeys Hin; [by apply not_elem_of_nil in Hin|].
  rewrite fmap_cons in Hkeys. apply NoDup_cons in Hkeys as [Hx Hl].
  change (map (restocked price existing) (x :: l))
    with (restocked price existing x :: map (restocked price existing) l).
  rewrite !fmap_cons. unfold SUM in *. simpl.
  apply elem_of_cons in Hin as [->|Hin].
  - rewrite restocked_elsewhere by done.
    unfold restocked, StoreBook.hasKey. rewrite !Z.eqb_refl. simpl. lia.
  - rewrite IH by done.
    assert (Hne : restocked price existing x = x).
    { unfold restocked, StoreBook.hasKey.
      destruct (StoreBook.store_id x =? StoreBook.store_id existing) eqn:Hs;
        [|done].
      destruct (StoreBook.book_id x =? StoreBook.book_id existing) eqn:Hb;
        [|done].
      apply Z.eqb_eq in Hs, Hb. exfalso. apply Hx.
      apply list_elem_of_fmap. exists existing. split; [congruence|done]. }
    rewrite Hne. lia.
Qed.

Lemma processRow_copies row n st :
  NoDup ((λ sb, (StoreBook.store_id sb, StoreBook.book_id sb))
         <$> inventoryOf st) →
  let st' := (processRow row n st).2 in
  NoDup ((λ sb, (StoreBook.store_id sb, StoreBook.book_id sb))
         <$> inventoryOf st')
  ∧ SUM (StoreBook.copies <$> inventoryOf st')
    = SUM (StoreBook.copies <$> inventoryOf st)
      + match (processRow row n st).1 with inl _ => 0 | inr _ => 1 end.
Proof.
  intros Hkeys.
  destruct (processRow row n st) as [[message|[]] st'] eqn:Hrun; simpl.
  - apply processRow_throws_tables in Hrun. unfold inventoryOf in *.
    rewrite Hrun. split; [done|lia].
  - apply processRow_restocks in Hrun
      as (c & _ & _
          & [(existing & Hin & _ & -> & _)|(s & b & Hfresh & -> & _)]).
    + split; [|by apply SUM_restocked].
      rewrite (fmap_map_keys
                 (λ sb, (StoreBook.store_id sb, StoreBook.book_id sb)));
        [done|]. apply restocked_key.
    + rewrite !fmap_app. simpl. split; [by apply NoDup_snoc|].
      unfold SUM. rewrite foldr_app. simpl.
      generalize (StoreBook.copies <$> inventoryOf st). intros l.
      induction l as [|x l IH]; simpl; lia.
Qed.

Lemma processRows_copies rows : ∀ st,
  NoDup ((λ sb, (StoreBook.store_id sb, StoreBook.book_id sb))
         <$> inventoryOf st) →
  let st' := (processRows rows st).2 in
  SUM (StoreBook.copies <$> inventoryOf st') - processed (results st')
  = SUM (StoreBook.copies <$> inventoryOf st) - processed (results st).
Proof.
  induction rows as [|v rows IH]; intros st Hkeys; [done|].
  cbn zeta. rewrite processRows_cons.
  pose proof (processRow_copies (data v) (rowNumber v) st Hkeys)
    as [Hkeys' Hsum].
  pose proof (processRow_processed (data v) (rowNumber v) st) as [Hp _].
  destruct (processRow (data v) (rowNumber v) st) as [[message|[]] st1];
    simpl in *.
  - rewrite IH by done. unfold inventoryOf in *. simpl. lia.
  - rewrite IH by done. unfold inventoryOf in *. simpl. lia.
Qed.

(** X3. When no two positions share their (store, book) pair,
    the copies of all positions together grow by exactly the number of
    processed rows. *)
Theorem processCSV_adds_copies (records : list Row) (database : Database) :
  NoDup ((λ sb, (StoreBook.store_id sb, StoreBook.book_id sb))
         <$> store_books (tables database)) →
  copiesIn (tables (processCSV records database).2)
  = copiesIn (tables database) + processed (processCSV records database).1.
Proof.
  intros Hkeys. rewrite processCSV_eq. simpl.
  pose proof (processRows_copies
                (Worker.validatedRows (Worker.csvParserWorker records))
                (initialState records database) Hkeys) as H.
  simpl in H. unfold copiesIn, inventoryOf in *. simpl in H. lia.
Qed.

Lemma processCSV_adds_copies_witness :
  NoDup ((λ sb, (StoreBook.store_id sb, StoreBook.book_id sb))
         <$> store_books (tables stocked))
  ∧ copiesIn (tables (processCSV [gatsby; negativePrice; gatsby] stocked).2)
    = 4 + 2.
Proof.
  assert (H : NoDup ((λ sb, (StoreBook.store_id sb, StoreBook.book_id sb))
                     <$> store_books (tables stocked))).
  { apply (bool_decide_unpack _). vm_compute. exact I. }
  split; [exact H|].
  rewrite (processCSV_adds_copies [gatsby; negativePrice; gatsby] stocked H).
  vm_compute. reflexivity.
Defined.

(** ** The created counters and the sizes of the tables *)

Lemma storeStage_ahead row st :
  match storeStage row st with
  | (inl _, _) => True
  | (inr _, st1) => ahead st1 = ahead st
  end.
Proof.
  unfold storeStage, Store_findOrCreate, Store_create, whereValue,
    store_update_logo, store_update_address, when, validated, Store.validate,
    getTables, getSequences, setSequences, modifyTables, updateResults,
    bind, ret, throw, ahead, storesOf, authorsOf, booksOf, inventoryOf.
  destruct (row !! "store_name") as [n|]; cbn; [|done].
  destruct (Store.findOne n (stores (tables (db st)))) as [s|]; cbn.
  - destruct (JS.truthy (row !! "logo")
              && bool_decide (row !! "logo" ≠ Store.logo s));
    destruct (JS.truthy (row !! "store_address")
              && bool_decide (row !! "store_address" ≠ Store.address s));
      cbn; column_checks; rewrite ?length_map; done.
  - destruct (notEmpty n); cbn; [|done]. column_checks; try done.
    rewrite length_app. simpl. repeat apply (f_equal2 pair); lia.
Qed.

Lemma authorStage_ahead row st :
  match authorStage row st with
  | (inl _, _) => True
  | (inr _, st1) => ahead st1 = ahead st
  end.
Proof.
  unfold authorStage, Author_findOrCreate, Author_create, whereValue, when,
    validated, Author.validate, getTables, getSequences, setSequences,
    modifyTables, updateResults, bind, ret, throw, ahead, storesOf, authorsOf,
    booksOf, inventoryOf.
  destruct (row !! "author_name") as [n|]; cbn; [|done].
  destruct (Author.findOne n (authors (tables (db st)))) as [a|]; cbn; [done|].
  destruct (notEmpty n); cbn; [|done]. column_checks; try done.
  rewrite length_app. simpl. repeat apply (f_equal2 pair); lia.
Qed.

Lemma bookStage_ahead row author st :
  match bookStage row author st with
  | (inl _, _) => True
  | (inr _, st1) => ahead st1 = ahead st
  end.
Proof.
  unfold bookStage, Book_findOrCreate, Book_create, book_update_pages,
    integerOrNull, whereValue, when, validated, Book.validate,
    Book.validatePages, getTables, getSequences, setSequences, modifyTables,
    updateResults, bind, ret, throw, ahead, storesOf, authorsOf, booksOf,
    inventoryOf.
  destruct (row !! "book_name") as [n|]; cbn; [|done].
  destruct (Book.findOne n (Author.id author) (books (tables (db st))))
    as [b|]; cbn.
  - destruct (JS.truthy (row !! "pages")); cbn; [|done].
    destruct (JS.parseInt (JS.toString (row !! "pages"))) as [p|]; cbn; [|done].
    destruct (bool_decide (Some p ≠ Book.pages b)); cbn; [|done].
    destruct (1 <=? p); cbn; column_checks; rewrite ?length_map; done.
  - destruct (JS.truthy (row !! "pages")); cbn.
    + destruct (JS.parseInt (JS.toString (row !! "pages"))) as [p|]; cbn;
        [|destruct (notEmpty n); cbn; column_checks; done].
      destruct (notEmpty n); cbn; [|done].
      destruct (1 <=? p); cbn; [|done]. column_checks; try done.
      rewrite length_app. simpl. repeat apply (f_equal2 pair); lia.
    + destruct (notEmpty n); cbn; [|done]. column_checks; try done.
      rewrite length_app. simpl. repeat apply (f_equal2 pair); lia.
Qed.

Lemma inventoryStage_ahead row store book st :
  match inventoryStage row store book st with
  | (inl _, _) => True
  | (inr _, st1) => ahead st1 = ahead st
  end.
Proof.
  pose proof (inventoryStage_spec row store book st) as S.
  destruct (inventoryStage row store book st) as [[message|[]] st1]; [done|].
  destruct S as (R1 & A1 & B1 & _ & _ & price & _ & S). unfold ahead.
  rewrite R1, A1, B1.
  destruct (StoreBook.findOne _ _ _);
    [destruct S as (_ & -> & ->)|destruct S as [-> ->]]; simpl.
  - rewrite length_map. done.
  - rewrite length_app. simpl. repeat apply (f_equal2 pair); lia.
Qed.

Lemma processRow_returns_ahead row n st st' :
  processRow row n st = (inr tt, st') → ahead st' = ahead st.
Proof.
  intros Hrun. apply processRow_returns_inv in Hrun
    as (store & author & book & st1 & st2 & st3 & H1 & H2 & H3 & H4).
  pose proof (storeStage_ahead row st) as S1. rewrite H1 in S1.
  pose proof (authorStage_ahead row st1) as S2. rewrite H2 in S2.
  pose proof (bookStage_ahead row author st2) as S3. rewrite H3 in S3.
  pose proof (inventoryStage_ahead row store book st3) as S4.
  rewrite H4 in S4. congruence.
Qed.

(** Componentwise: the first three may grow, the fourth stays. *)
Lemma processRow_ahead row n st :
  let '(s, a, b, i) := ahead st in
  let '(s', a', b', i') := ahead (processRow row n st).2 in
  s <= s' ∧ a <= a' ∧ b <= b' ∧ i = i'.
Proof.
  destruct (processRow row n st) as [[message|[]] st'] eqn:Hrun.
  - pose proof (processRow_throws_tables _ _ _ _ _ Hrun) as Htables.
    pose proof (processRow_advances row n st) as Hadv.
    pose proof (processRow_counts row n st) as Hcounts.
    rewrite Hrun in Hadv, Hcounts. simpl in *.
    destruct Hcounts as (_ & _ & Hc & _).
    destruct Hadv as (_ & _ & _ & ? & ? & ?).
    unfold ahead, storesOf, authorsOf, booksOf, inventoryOf.
    rewrite Htables, Hc. lia.
  - apply processRow_returns_ahead in Hrun. cbn [snd]. rewrite Hrun.
    destruct (ahead st) as [[[s a] b] i]. lia.
Qed.

Lemma ahead_results st r :
  created_stores r = created_stores (results st) →
  created_authors r = created_authors (results st) →
  created_books r = created_books (results st) →
  created_inventory r = created_inventory (results st) →
  ahead (mkState (db st) r) = ahead st.
Proof. unfold ahead. simpl. intros -> -> -> ->. done. Qed.

Lemma processRows_processed_le rows : ∀ st,
  processed (results (processRows rows st).2)
  <= processed (results st) + Z.of_nat (length rows).
Proof.
  induction rows as [|v rows IH]; intros st; [simpl; lia|].
  rewrite processRows_cons.
  pose proof (processRow_processed (data v) (rowNumber v) st) as [Hp _].
  destruct (processRow (data v) (rowNumber v) st) as [[message|[]] st1];
    cbn [snd] in Hp;
    match goal with |- context [processRows rows ?s] => specialize (IH s) end;
    simpl in *; lia.
Qed.

Lemma processRows_ahead rows : ∀ st,
  let '(s, a, b, i) := ahead st in
  let '(s', a', b', i') := ahead (processRows rows st).2 in
  s <= s' ∧ a <= a' ∧ b <= b' ∧ i = i'
  ∧ (processed (results (processRows rows st).2)
     = processed (results st) + Z.of_nat (length rows) →
     s = s' ∧ a = a' ∧ b = b').
Proof.
  induction rows as [|v rows IH]; intros st.
  - simpl. destruct (ahead st) as [[[s a] b] i]. lia.
  - rewrite processRows_cons.
    pose proof (processRow_ahead (data v) (rowNumber v) st) as Hrow.
    pose proof (processRow_processed (data v) (rowNumber v) st) as [Hp _].
    destruct (processRow (data v) (rowNumber v) st) as [[message|[]] st1]
      eqn:Hrun; cbn [snd] in Hrow, Hp.
    + match goal with |- context [processRows rows ?s] =>
        specialize (IH s);
        pose proof (processRows_processed_le rows s) as Hle
      end.
      rewrite ahead_results in IH by done.
      destruct (ahead st) as [[[s a] b] i].
      destruct (ahead st1) as [[[s1 a1] b1] i1].
      destruct (ahead _) as [[[s' a'] b'] i'].
      simpl in *. split_and!; try lia.
    + match goal with |- context [processRows rows ?s] => specialize (IH s) end.
      rewrite ahead_results in IH by done.
      apply processRow_returns_ahead in Hrun. rewrite Hrun in IH.
      destruct (ahead st) as [[[s a] b] i].
      destruct (ahead _) as [[[s' a'] b'] i'].
      simpl in *. rewrite Hp in IH.
      split_and!; try lia.
Qed.

(** X4. The created-inventory counter is the number of
    positions added to the table.  The three other created counters are
    at least the numbers of rows added to their tables (a row that fails
    after creating a store leaves the counter incremented and the store
    rolled back), and exactly these numbers when no validated row
    failed. *)
Theorem created_counters_and_tables (records : list Row) (database : Database) :
  let r := (processCSV records database).1 in
  let t := tables database in
  let t' := tables (processCSV records database).2 in
  Z.of_nat (length (store_books t')) - Z.of_nat (length (store_books t))
  = created_inventory r
  ∧ Z.of_nat (length (stores t')) - Z.of_nat (length (stores t))
    <= created_stores r
  ∧ Z.of_nat (length (authors t')) - Z.of_nat (length (authors t))
    <= created_authors r
  ∧ Z.of_nat (length (books t')) - Z.of_nat (length (books t))
    <= created_books r
  ∧ (length (errors r)
     = length (Worker.validationErrors (Worker.csvParserWorker records)) →
     Z.of_nat (length (stores t')) - Z.of_nat (length (stores t))
     = created_stores r
     ∧ Z.of_nat (length (authors t')) - Z.of_nat (length (authors t))
       = created_authors r
     ∧ Z.of_nat (length (books t')) - Z.of_nat (length (books t))
       = created_books r).
Proof.
  rewrite processCSV_eq. cbn [fst snd].
  set (rows := Worker.validatedRows (Worker.csvParserWorker records)).
  set (st0 := initialState records database).
  pose proof (processRows_ahead rows st0) as Hahead.
  pose proof (processRows_accounts rows st0) as (_ & Hacc & _).
  unfold ahead, storesOf, authorsOf, booksOf, inventoryOf in Hahead.
  destruct (processRows rows st0) as [u st]. cbn [fst snd] in *.
  subst st0. unfold initialState in *. cbn [db results processed errors
    created_stores created_authors created_books created_inventory] in *.
  destruct Hahead as (Hs & Ha & Hb & Hi & Hall).
  split_and!; try lia.
  intros Herrors. rewrite Herrors in Hacc.
  destruct Hall as (? & ? & ?); [|lia]. simpl in Hacc. lia.
Qed.

(** ** A batch of valid rows *)














(** ** A batch that fails *)

Lemma processRows_none_processed rows : ∀ st,
  processed (results (processRows rows st).2) <= processed (results st) →
  tables (db (processRows rows st).2) = tables (db st).
Proof.
  induction rows as [|v rows IH]; intros st Hnone; [done|].
  rewrite processRows_cons in *.
  pose proof (processRow_processed (data v) (rowNumber v) st) as [Hp _].
  destruct (processRow (data v) (rowNumber v) st) as [[message|[]] st1]
    eqn:Hrun; cbn [snd] in Hp.
  - rewrite IH; [by apply processRow_throws_tables in Hrun|].
    simpl. lia.
  - exfalso.
    match type of Hnone with context [processRows rows ?s] =>
      pose proof (processRows_accounts rows s) as (_ & _ & Hle)
    end.
    simpl in Hle. lia.
Qed.

Lemma upload_400_tables records database :
  status (upload records database).1 = 400 →
  tables (upload records database).2 = tables database.
Proof.
  unfold upload. rewrite processCSV_eq. cbn [fst snd]. unfold respond.
  destruct (0 <? processed _) eqn:Hp; [done|]. intros _.
  apply Z.ltb_ge in Hp.
  apply (processRows_none_processed _ (initialState records database)).
  simpl. exact Hp.
Qed.

(** X6. An upload that the handler answers with status
    400 (no file, an empty file, or no row processed) has changed no
    table. *)
Theorem refused_upload_changes_nothing (file : option File)
    (database : Database) :
  replyStatus (uploadHandler file database).1 = 400 →
  tables (uploadHandler file database).2 = tables database.
Proof.
  unfold uploadHandler. destruct file as [file|]; [|done].
  destruct (file_size file =? 0); [done|].
  pose proof (upload_400_tables (file_records file) database) as Hupload.
  destruct (upload (file_records file) database) as [response database'].
  simpl in *. exact Hupload.
Qed.

Lemma refused_upload_changes_nothing_witness :
  replyStatus (uploadHandler (Some badBatch) stocked).1 = 400
  ∧ tables (uploadHandler (Some badBatch) stocked).2 = tables stocked.
Proof.
  assert (H : replyStatus (uploadHandler (Some badBatch) stocked).1 = 400)
    by (vm_compute; reflexivity).
  split; [exact H|]. apply refused_upload_changes_nothing, H.
Defined.

(** ** The order of the rows and of the errors *)

Lemma ascending_snoc (l : list Z) (x : Z) :
  StronglySorted Z.lt l → Forall (λ y, y < x) l →
  StronglySorted Z.lt (l ++ [x]) ∧ Forall (λ y, y < x + 1) (l ++ [x]).
Proof.
  intros Hl Hx. split.
  - apply StronglySorted_app_2; [|done|repeat constructor].
    intros y z Hy ->%list_elem_of_singleton.
    rewrite Forall_forall in Hx. by apply Hx.
  - apply Forall_app. split.
    + eapply Forall_impl; [exact Hx|]. simpl. intros; lia.
    + constructor; [lia|constructor].
Qed.

Lemma validateAll_ascending rows : ∀ i vs es,
  StronglySorted Z.lt (rowNumber <$> vs) →
  Forall (λ y, y < i + 2) (rowNumber <$> vs) →
  StronglySorted Z.lt (row <$> es) →
  Forall (λ y, y < i + 2) (row <$> es) →
  StronglySorted Z.lt (rowNumber <$> (Worker.validateAll rows i vs es).1)
  ∧ StronglySorted Z.lt (row <$> (Worker.validateAll rows i vs es).2).
Proof.
  induction rows as [|r rows IH]; intros i vs es Hvs Hvb Hes Heb; [done|].
  simpl. destruct (Worker.validateRow r (i + 2)) as [|msg].
  - destruct (ascending_snoc _ (i + 2) Hvs Hvb) as [Hs Hb].
    apply IH; rewrite ?fmap_app; simpl; try done.
    + replace (i + 1 + 2) with (i + 2 + 1) by lia. done.
    + eapply Forall_impl; [exact Heb|]. simpl. intros; lia.
  - destruct (ascending_snoc _ (i + 2) Hes Heb) as [Hs Hb].
    apply IH; rewrite ?fmap_app; simpl; try done.
    + eapply Forall_impl; [exact Hvb|]. simpl. intros; lia.
    + replace (i + 1 + 2) with (i + 2 + 1) by lia. done.
Qed.

(** X7. Both arrays that the worker returns are in the order
    of the file: their ordinals increase strictly. *)
Theorem worker_keeps_file_order (records : list Row) :
  let out := Worker.csvParserWorker records in
  StronglySorted Z.lt (rowNumber <$> Worker.validatedRows out)
  ∧ StronglySorted Z.lt (row <$> Worker.validationErrors out).
Proof.
  unfold Worker.csvParserWorker.
  pose proof (validateAll_ascending (Worker.parseCSV records) 0 [] [])
    as Hsorted.
  destruct (Worker.validateAll (Worker.parseCSV records) 0 [] []) as [vs es].
  simpl in *. apply Hsorted; constructor.
Qed.

Lemma processRows_errors rows : ∀ st,
  ∃ failed,
    errors (results (processRows rows st).2)
    = (errors (results st) ++ failed)%list
    ∧ sublist (errorKey <$> failed) (rowKey <$> rows).
Proof.
  induction rows as [|v rows IH]; intros st.
  - exists []. simpl. split; [by rewrite app_nil_r|constructor].
  - rewrite processRows_cons.
    pose proof (processRow_processed (data v) (rowNumber v) st) as [_ He].
    destruct (processRow (data v) (rowNumber v) st) as [[message|[]] st1];
      cbn [snd] in He;
      match goal with |- context [processRows rows ?s] =>
        destruct (IH s) as (failed & Herr & Hsub)
      end; simpl in Herr; rewrite He in Herr.
    + exists (mkRowError (rowNumber v) (data v) message :: failed). split.
      * rewrite Herr, <- app_assoc. done.
      * rewrite !fmap_cons. by constructor.
    + exists failed. split; [done|]. rewrite fmap_cons. by constructor.
Qed.

Lemma StronglySorted_sublist {A} (R : relation A) (l k : list A) :
  sublist l k → StronglySorted R k → StronglySorted R l.
Proof.
  intros Hsub. induction Hsub as [|x l k Hsub IH|x l k Hsub IH];
    intros Hk; [done| |].
  - apply StronglySorted_cons in Hk as [Hx Hk].
    apply StronglySorted_cons. split; [|by apply IH].
    apply Forall_forall. intros y Hy. rewrite Forall_forall in Hx.
    apply Hx. eapply elem_of_sublist; done.
  - apply StronglySorted_cons in Hk as [_ Hk]. by apply IH.
Qed.

(** X8. The error list of the result is the validation errors
    of the worker followed by the errors of reconciliation; the latter
    stand for validated rows; each of the two parts is in the order of
    the file, so the list as a whole need not be. *)
Theorem errors_in_two_runs (records : list Row) (database : Database) :
  let out := Worker.csvParserWorker records in
  ∃ failed,
    errors (processCSV records database).1
    = (Worker.validationErrors out ++ failed)%list
    ∧ sublist (errorKey <$> failed) (rowKey <$> Worker.validatedRows out)
    ∧ StronglySorted Z.lt (row <$> Worker.validationErrors out)
    ∧ StronglySorted Z.lt (row <$> failed).
Proof.
  intros out. rewrite processCSV_eq. cbn [fst].
  destruct (processRows_errors (Worker.validatedRows out)
              (initialState records database)) as (failed & Herr & Hsub).
  exists failed. split; [exact Herr|]. split; [exact Hsub|].
  pose proof (validateAll_ascending (Worker.parseCSV records) 0 [] [])
    as Hsorted.
  subst out. unfold Worker.csvParserWorker in *.
  destruct (Worker.validateAll (Worker.parseCSV records) 0 [] []) as [vs es].
  simpl in *. destruct Hsorted as [Hvs Hes]; [constructor..|].
  split; [exact Hes|].
  apply (StronglySorted_sublist _ _ (rowNumber <$> vs)); [|exact Hvs].
  assert (Hfst : ∀ (l : list RowError), row <$> l = fst <$> (errorKey <$> l)).
  { intros l. rewrite <- list_fmap_compose. done. }
  assert (Hfst' : ∀ (l : list ValidatedRow),
            rowNumber <$> l = fst <$> (rowKey <$> l)).
  { intros l. rewrite <- list_fmap_compose. done. }
  rewrite Hfst, Hfst'. by apply fmap_sublist.
Qed.

(** ** The names of the columns *)

Lemma lowerChar_isWhiteSpace c :
  JS.isWhiteSpace (JS.lowerChar c) = JS.isWhiteSpace c.
Proof. destruct c as [[] [] [] [] [] [] [] []]; reflexivity. Qed.

Lemma lowerChar_idempotent c :
  JS.lowerChar (JS.lowerChar c) = JS.lowerChar c.
Proof. destruct c as [[] [] [] [] [] [] [] []]; reflexivity. Qed.

Lemma toLowerCase_idempotent s :
  JS.toLowerCase (JS.toLowerCase s) = JS.toLowerCase s.
Proof.
  induction s as [|c s IH]; simpl; [done|].
  by rewrite lowerChar_idempotent, IH.
Qed.

Lemma toLowerCase_underscoreRuns inRun s :
  JS.toLowerCase (Worker.underscoreRuns inRun s)
  = Worker.underscoreRuns inRun (JS.toLowerCase s).
Proof.
  revert inRun. induction s as [|c s IH]; intros inRun; simpl; [done|].
  rewrite lowerChar_isWhiteSpace.
  destruct (JS.isWhiteSpace c); [destruct inRun|]; simpl; by rewrite IH.
Qed.

Lemma underscoreRuns_no_whiteSpace inRun s :
  forallb (λ c, negb (JS.isWhiteSpace c))
    (list_ascii_of_string (Worker.underscoreRuns inRun s)) = true.
Proof.
  revert inRun. induction s as [|c s IH]; intros inRun; simpl; [done|].
  destruct (JS.isWhiteSpace c) eqn:Hc; [destruct inRun|]; simpl;
    rewrite ?Hc, IH; done.
Qed.

Lemma underscoreRuns_unchanged inRun s :
  forallb (λ c, negb (JS.isWhiteSpace c)) (list_ascii_of_string s) = true →
  Worker.underscoreRuns inRun s = s.
Proof.
  revert inRun. induction s as [|c s IH]; intros inRun; simpl; [done|].
  intros [Hc Hs]%andb_true_iff. apply negb_true_iff in Hc. rewrite Hc.
  by rewrite IH.
Qed.

Lemma trim_unchanged s :
  forallb (λ c, negb (JS.isWhiteSpace c)) (list_ascii_of_string s) = true →
  JS.trim s = s.
Proof.
  intros Hs. unfold JS.trim.
  assert (Hstart : JS.trimStart s = s).
  { destruct s as [|c s]; simpl in *; [done|].
    apply andb_true_iff in Hs as [Hc _]. apply negb_true_iff in Hc.
    by rewrite Hc. }
  rewrite Hstart. clear Hstart.
  induction s as [|c s IH]; simpl in *; [done|].
  apply andb_true_iff in Hs as [Hc Hs]. apply negb_true_iff in Hc.
  rewrite IH by done. rewrite Hc. by destruct s.
Qed.

(** X9. A column name as the worker maps it holds no white
    space, and mapping it again changes nothing. *)
Theorem mapHeaders_idempotent (header : string) :
  forallb (λ c, negb (JS.isWhiteSpace c))
    (list_ascii_of_string (Worker.mapHeaders header)) = true
  ∧ Worker.mapHeaders (Worker.mapHeaders header) = Worker.mapHeaders header.
Proof.
  pose proof (underscoreRuns_no_whiteSpace false
                (JS.toLowerCase (JS.trim header))) as Hclean.
  split; [exact Hclean|].
  unfold Worker.mapHeaders at 1. fold (Worker.mapHeaders header) in Hclean.
  rewrite trim_unchanged by done.
  unfold Worker.mapHeaders at 1.
  rewrite toLowerCase_underscoreRuns, toLowerCase_idempotent.
  fold (Worker.mapHeaders header).
  by apply underscoreRuns_unchanged.
Qed.

Example mapHeaders_store_name :
  Worker.mapHeaders "  Store   Name " = "store_name".
Proof. reflexivity. Qed.

(** ** The last row wins *)

(** X10. When a row returns and its store was there,
    the store is found afterwards with its id and name, with the row's
    address and logo where the row has them, and with the stored ones
    where the row's cells are empty. *)
Theorem existing_store_takes_row_values (row : Row) (n : Z) (st st' : State)
    (name : string) (s : Store.t) :
  processRow row n st = (inr tt, st') →
  row !! "store_name" = Some name →
  Store.findOne name (storesOf st) = Some s →
  Store.findOne name (storesOf st')
  = Some (Store.mk (Store.id s) (Store.name s)
            (if JS.truthy (row !! "store_address") then row !! "store_address"
             else Store.address s)
            (if JS.truthy (row !! "logo") then row !! "logo"
             else Store.logo s)).
Proof.
  intros Hrun Hname Hfind. apply processRow_returns_inv in Hrun
    as (store & author & book & st1 & st2 & st3 & H1 & H2 & H3 & H4).
  pose proof (storeStage_spec row st) as S1. rewrite H1 in S1.
  pose proof (authorStage_spec row st1) as S2. rewrite H2 in S2.
  pose proof (bookStage_spec row author st2) as S3. rewrite H3 in S3.
  pose proof (inventoryStage_spec row store book st3) as S4. rewrite H4 in S4.
  destruct S1 as (_ & _ & _ & _ & name' & Hname' & S1).
  destruct S2 as (R2 & _). destruct S3 as (R3 & _). destruct S4 as (R4 & _).
  assert (name' = name) as -> by congruence.
  rewrite Hfind in S1. destruct S1 as (-> & R1 & _).
  rewrite R4, R3, R2, R1, Store_findOne_refreshed, Hfind. simpl.
  unfold refreshed. rewrite Z.eqb_refl. f_equal. f_equal.
  - destruct (JS.truthy (row !! "store_address")); [|done]. simpl.
    case_bool_decide as Hsame; congruence.
  - destruct (JS.truthy (row !! "logo")); [|done]. simpl.
    case_bool_decide as Hsame; congruence.
Qed.

Lemma existing_store_takes_row_values_witness :
  let st := mkState stocked newResults in
  let st' := (processRow gatsbyMoved 2 st).2 in
  processRow gatsbyMoved 2 st = (inr tt, st')
  ∧ Store.findOne "BookWorld" (storesOf st')
    = Some (Store.mk 1 "BookWorld" (Some "5 Elm St") None).
Proof.
  intros st st'.
  assert (Hrun : processRow gatsbyMoved 2 st = (inr tt, st'))
    by (vm_compute; reflexivity).
  split; [exact Hrun|].
  rewrite (existing_store_takes_row_values gatsbyMoved 2 st st' "BookWorld"
             (Store.mk 1 "BookWorld" (Some "12 Main St") None) Hrun);
    vm_compute; reflexivity.
Defined.

(** X11. When a row returns and its author and its book
    were there, the book is found afterwards with its id, name and
    author, with the row's page count when the row has one, and with the
    stored one when the row's cell is empty. *)
Theorem existing_book_takes_row_pages (row : Row) (n : Z) (st st' : State)
    (authorName bookName : string) (a : Author.t) (b : Book.t) :
  processRow row n st = (inr tt, st') →
  row !! "author_name" = Some authorName →
  Author.findOne authorName (authorsOf st) = Some a →
  row !! "book_name" = Some bookName →
  Book.findOne bookName (Author.id a) (booksOf st) = Some b →
  Book.findOne bookName (Author.id a) (booksOf st')
  = Some (Book.mk (Book.id b) (Book.name b)
            (match rowPages row with
             | Some p => Some p
             | None => Book.pages b
             end)
            (Book.author_id b)).
Proof.
  intros Hrun Han Hfa Hbn Hfb. apply processRow_returns_inv in Hrun
    as (store & author & book & st1 & st2 & st3 & H1 & H2 & H3 & H4).
  pose proof (storeStage_spec row st) as S1. rewrite H1 in S1.
  pose proof (authorStage_spec row st1) as S2. rewrite H2 in S2.
  pose proof (bookStage_spec row author st2) as S3. rewrite H3 in S3.
  pose proof (inventoryStage_spec row store book st3) as S4. rewrite H4 in S4.
  destruct S1 as (A1 & B1 & _).
  destruct S2 as (_ & B2 & _ & _ & an & Han' & S2).
  destruct S3 as (_ & _ & _ & _ & bn & Hbn' & S3).
  destruct S4 as (_ & _ & B4 & _).
  assert (an = authorName) as -> by congruence.
  assert (bn = bookName) as -> by congruence.
  rewrite A1, Hfa in S2. destruct S2 as (-> & _).
  rewrite B2, B1, Hfb in S3. destruct S3 as (-> & B3).
  rewrite B4, B3, Book_findOne_repaged, Hfb. simpl.
  unfold repaged. rewrite Z.eqb_refl.
  destruct (rowPages row) as [p|]; [|by destruct b].
  case_bool_decide as Hsame; [done|]. destruct b. simpl in *. congruence.
Qed.

Lemma existing_book_takes_row_pages_witness :
  let st := mkState stocked newResults in
  let st' := (processRow gatsbyMoved 2 st).2 in
  processRow gatsbyMoved 2 st = (inr tt, st')
  ∧ Book.findOne "Gatsby" 1 (booksOf st')
    = Some (Book.mk 1 "Gatsby" (Some 200) 1).
Proof.
  intros st st'.
  assert (Hrun : processRow gatsbyMoved 2 st = (inr tt, st'))
    by (vm_compute; reflexivity).
  split; [exact Hrun|].
  etransitivity;
    [apply (existing_book_takes_row_pages gatsbyMoved 2 st st' "Fitzgerald"
              "Gatsby" (Author.mk 1 "Fitzgerald")
              (Book.mk 1 "Gatsby" (Some 180) 1) Hrun)|];
    vm_compute; reflexivity.
Defined.

(** ** What a validated row can still fail on *)




(** ** The same file again *)












(** * Further properties of the reports and of the routes *)

(** ** The reports on a consistent database *)

Lemma find_id_is_Some {A} (id : A → Z) (l : list A) (i : Z) :
  i ∈ id <$> l → is_Some (List.find (λ x, id x =? i) l).
Proof.
  intros Hin. apply list_elem_of_fmap in Hin as (x & -> & Hx).
  destruct (List.find (λ y, id y =? id x) l) as [y|] eqn:Hfind; [by eexists|].
  apply list_elem_of_In in Hx.
  pose proof (find_none _ _ Hfind x Hx) as Hne. simpl in Hne.
  by rewrite Z.eqb_refl in Hne.
Qed.

Lemma pricedBook_is_Some d sb :
  consistent d → sb ∈ store_books (tables d) →
  is_Some (pricedBook (tables d) sb).
Proof.
  intros [_ _ [_ _ _ Hauthor] [_ _ Hbook]] Hsb. unfold pricedBook.
  rewrite Forall_forall in Hbook, Hauthor.
  destruct (find_id_is_Some Book.id (books (tables d)) (StoreBook.book_id sb))
    as [b Hb].
  { apply Hbook. apply list_elem_of_fmap. eauto. }
  rewrite Hb. simpl.
  destruct (find_id_is_Some Author.id (authors (tables d)) (Book.author_id b))
    as [a Ha].
  { apply Hauthor. apply list_elem_of_fmap. exists b. split; [done|].
    apply find_some in Hb as [Hb _]. by apply list_elem_of_In. }
  rewrite Ha. simpl. by eexists.
Qed.

(** X14. On a consistent database the priciest-books report
    never fails on a missing book or author: every answer is a list, as
    long as the positions on offer in the store allow, five at most. *)
Theorem priciest_books_never_fail (d : Database) (storeId : Z)
    (result : option (list PricedBook)) :
  consistent d →
  getTopPriciestBooks (tables d) storeId result →
  ∃ out, result = Some out
         ∧ length out
           = min 5 (length (filter (λ sb, available storeId sb = true)
                              (store_books (tables d)))).
Proof.
  intros Hd (storeBooks & Hfind & ->).
  destruct (orderedLimit_spec _ _ _ _ Hfind) as (Hlen & _ & Hin).
  assert (Hsome : is_Some (mapM (pricedBook (tables d)) storeBooks)).
  { apply mapM_is_Some. apply Forall_forall. intros sb Hsb. simpl.
    apply pricedBook_is_Some; [done|].
    apply Hin, list_elem_of_filter in Hsb as [_ Hsb]. done. }
  destruct Hsome as [out Hout]. exists out. split; [done|].
  apply length_mapM in Hout. lia.
Qed.

Lemma priciest_books_never_fail_witness :
  consistent austenShelf
  ∧ ∃ out,
      mapM (pricedBook tiedPrices)
        (sortLimit priceDesc 5
           (filter (λ sb, available 1 sb = true) (store_books tiedPrices)))
      = Some out
      ∧ length out = 2%nat.
Proof.
  split; [apply consistent_austenShelf|].
  destruct (priciest_books_never_fail austenShelf 1
              (mapM (pricedBook tiedPrices)
                 (sortLimit priceDesc 5
                    (filter (λ sb, available 1 sb = true)
                       (store_books tiedPrices)))))
    as (out & Hout & Hlen).
  - apply consistent_austenShelf.
  - eexists. split; [|reflexivity].
    apply (orderedLimit_exists priceDesc).
  - exists out. split; [exact Hout|]. rewrite Hlen. vm_compute. reflexivity.
Defined.

(** ** The entries of the prolific-authors report *)

Lemma joinedRows_available t storeId r :
  r ∈ joinedRows t storeId →
  r.2 ∈ store_books t ∧ available storeId r.2 = true.
Proof.
  unfold joinedRows. intros Hr.
  apply list_elem_of_bind in Hr as (a & Hr & _).
  apply list_elem_of_bind in Hr as (b & Hr & _).
  apply list_elem_of_bind in Hr as (sb & Hr & Hsb).
  apply list_elem_of_singleton in Hr as ->. simpl.
  apply list_elem_of_filter in Hsb as [[_ Hav] Hsb]. done.
Qed.

Lemma SUM_at_least_length (l : list Z) :
  Forall (λ x, 1 <= x) l → Z.of_nat (length l) <= SUM l.
Proof.
  unfold SUM. induction 1 as [|x l Hx Hl IH]; simpl; lia.
Qed.

Lemma length_remove_dups `{EqDecision A} (l : list A) :
  (length (remove_dups l) <= length l)%nat.
Proof.
  induction l as [|x l IH]; simpl; [done|]. case_decide; simpl; lia.
Qed.

Lemma COUNT_DISTINCT_bounds (l : list Z) :
  l ≠ [] → 1 <= COUNT_DISTINCT l <= Z.of_nat (length l).
Proof.
  intros Hl. unfold COUNT_DISTINCT.
  pose proof (length_remove_dups l) as Hle.
  destruct l as [|x l]; [done|].
  assert (Hx : x ∈ remove_dups (x :: l)) by (apply elem_of_remove_dups; by left).
  destruct (remove_dups (x :: l)); [by apply not_elem_of_nil in Hx|].
  simpl in *. lia.
Qed.

(** X15. The prolific-authors list has five entries at most,
    and every author on it has at least one book there; when no position
    on offer is without copies, every author on it has at least as many
    copies as books. *)
Theorem prolific_entries_have_books (t : Tables) (storeId : Z)
    (result : list ProlificAuthor) :
  getTopProlificAuthors t storeId result →
  ((length result <= 5)%nat ∧ Forall (λ e, 1 <= bookCount e) result)
  ∧ (Forall (λ sb, StoreBook.sold_out sb = false → 1 <= StoreBook.copies sb)
       (store_books t) →
     Forall (λ e, bookCount e <= totalCopies e) result).
Proof.
  intros (rows & Hrows & ->).
  destruct (orderedLimit_spec _ _ _ _ Hrows) as (Hlen & _ & Hin).
  assert (Hgroups : ∀ x, x ∈ rows →
            ∃ group,
              (∀ r', r' ∈ group → r' ∈ joinedRows t storeId)
              ∧ (λ r', StoreBook.book_id r'.2) <$> group ≠ []
              ∧ book_count x
                = COUNT_DISTINCT ((λ r', StoreBook.book_id r'.2) <$> group)
              ∧ total_copies x
                = SUM ((λ r', StoreBook.copies r'.2) <$> group)).
  { intros x Hx. apply Hin in Hx. unfold groupedRows in Hx.
    apply list_elem_of_fmap in Hx as (key & -> & Hkey).
    apply elem_of_remove_dups, list_elem_of_fmap in Hkey as (r & -> & Hr).
    exists (filter (λ r', groupKey r' = groupKey r) (joinedRows t storeId)).
    split; [|split; [|done]].
    - intros r' Hr'. by apply list_elem_of_filter in Hr' as [_ Hr'].
    - intros Hnil. apply fmap_nil_inv in Hnil.
      assert (Hgroup : r ∈ filter (λ r', groupKey r' = groupKey r)
                             (joinedRows t storeId))
        by (apply list_elem_of_filter; done).
      rewrite Hnil in Hgroup. by apply not_elem_of_nil in Hgroup. }
  split; [split; [rewrite length_fmap; lia|]|intros Hcopies].
  - apply Forall_fmap, Forall_forall. intros x Hx. simpl.
    destruct (Hgroups x Hx) as (group & _ & Hne & -> & _).
    by apply COUNT_DISTINCT_bounds.
  - apply Forall_fmap, Forall_forall. intros x Hx. simpl.
    destruct (Hgroups x Hx) as (group & Hsub & Hne & -> & ->).
    pose proof (COUNT_DISTINCT_bounds _ Hne) as [_ Hcount].
    rewrite length_fmap in Hcount.
    etransitivity; [exact Hcount|].
    rewrite <- (length_fmap (λ r', StoreBook.copies r'.2)).
    apply SUM_at_least_length, Forall_fmap, Forall_forall.
    intros r' Hr'. simpl.
    apply Hsub, joinedRows_available in Hr' as [Hsb Hav].
    rewrite Forall_forall in Hcopies. apply Hcopies; [done|].
    unfold available in Hav. apply andb_true_iff in Hav as [_ Hso].
    by apply negb_true_iff in Hso.
Qed.

Lemma prolific_entries_have_books_witness :
  getTopProlificAuthors twoAuthors 1
    [mkProlificAuthor "B" 2 5; mkProlificAuthor "A" 2 3]
  ∧ Forall (λ e, 1 <= bookCount e)
      [mkProlificAuthor "B" 2 5; mkProlificAuthor "A" 2 3].
Proof.
  assert (H : getTopProlificAuthors twoAuthors 1
                [mkProlificAuthor "B" 2 5; mkProlificAuthor "A" 2 3]).
  { exists (sortLimit prolificDesc 5 (groupedRows twoAuthors 1)).
    split; [apply (orderedLimit_exists prolificDesc)|].
    vm_compute. reflexivity. }
  split; [exact H|].
  apply (prolific_entries_have_books twoAuthors 1 _ H).
Defined.

(** ** The report of a store *)

Lemma Store_findByPk_Some id rows s :
  Store_findByPk id rows = Some s → s ∈ rows ∧ Store.id s = id.
Proof.
  intros H. apply find_some in H as [Hin Heq].
  split; [by apply list_elem_of_In|by apply Z.eqb_eq].
Qed.

Lemma Store_findByPk_None id rows :
  Store_findByPk id rows = None → id ∉ Store.id <$> rows.
Proof.
  intros H Hin. apply list_elem_of_fmap in Hin as (s & -> & Hs).
  apply list_elem_of_In in Hs.
  pose proof (find_none _ _ H s Hs) as Hne. simpl in Hne.
  by rewrite Z.eqb_refl in Hne.
Qed.

Lemma getTopPriciestBooks_is_Some d storeId result :
  consistent d → getTopPriciestBooks (tables d) storeId result →
  is_Some result.
Proof.
  intros Hd (storeBooks & Hfind & ->).
  destruct (orderedLimit_spec _ _ _ _ Hfind) as (_ & _ & Hin).
  apply mapM_is_Some. apply Forall_forall. intros sb Hsb. simpl.
  apply pricedBook_is_Some; [done|].
  apply Hin, list_elem_of_filter in Hsb as [_ Hsb]. done.
Qed.

(** X16. On a consistent database the report of a store
    fails only when there is no store with that id, with the reason that
    the store was not found; for a store that is there it returns the
    document made from that store and from answers of the two queries,
    under the file name made from the store's name and the date. *)
Theorem generateStoreReport_outcome {Buffer : Type}
    (createPDF : Store.t → list PricedBook → list ProlificAuthor → Buffer)
    (d : Database) (today : string) (storeId : Z) :
  consistent d →
  (∃ result, generateStoreReport createPDF (tables d) today storeId result)
  ∧ ∀ result,
      generateStoreReport createPDF (tables d) today storeId result →
      (storeId ∉ Store.id <$> stores (tables d) →
       result = inl "Store not found")
      ∧ (storeId ∈ Store.id <$> stores (tables d) →
         ∃ store topBooks topAuthors,
           store ∈ stores (tables d) ∧ Store.id store = storeId
           ∧ getTopPriciestBooks (tables d) storeId (Some topBooks)
           ∧ getTopProlificAuthors (tables d) storeId topAuthors
           ∧ result
             = inr (createPDF store topBooks topAuthors,
                    reportFilename (Store.name store) today)).
Proof.
  intros Hd. unfold generateStoreReport.
  destruct (Store_findByPk storeId (stores (tables d))) as [store|] eqn:Hfind.
  - apply Store_findByPk_Some in Hfind as [Hin Hid]. split.
    + assert (Hbooks : getTopPriciestBooks (tables d) storeId
                         (mapM (pricedBook (tables d))
                            (sortLimit priceDesc 5
                               (filter (λ sb, available storeId sb = true)
                                  (store_books (tables d)))))).
      { eexists. split; [|reflexivity].
        apply (orderedLimit_exists priceDesc). }
      destruct (getTopPriciestBooks_is_Some d storeId _ Hd Hbooks)
        as [topBooks HtopBooks].
      eexists. exists (Some topBooks). split; [by rewrite <- HtopBooks|].
      eexists. split; [|reflexivity].
      eexists. split; [apply (orderedLimit_exists prolificDesc)|reflexivity].
    + intros result (topPriciestBooks & Hbooks & Hresult). split.
      * intros Hnone. exfalso. apply Hnone.
        apply list_elem_of_fmap. eauto.
      * intros _.
        destruct (getTopPriciestBooks_is_Some d storeId _ Hd Hbooks)
          as [topBooks ->].
        destruct Hresult as (topAuthors & Hauthors & ->).
        exists store, topBooks, topAuthors. done.
  - apply Store_findByPk_None in Hfind. split; [by eexists|].
    intros result ->. split; [done|]. intros Hin. done.
Qed.

Lemma generateStoreReport_outcome_witness :
  consistent austenShelf
  ∧ (∃ result,
       generateStoreReport (λ _ _ _, tt) (tables austenShelf) "2026-11-02"
         1 result)
  ∧ ∀ result,
      generateStoreReport (λ _ _ _, tt) (tables austenShelf) "2026-11-02"
        7 result →
      result = inl "Store not found".
Proof.
  split; [apply consistent_austenShelf|].
  destruct (generateStoreReport_outcome (λ _ _ _, tt) austenShelf
              "2026-11-02" 1 consistent_austenShelf) as [Hsome _].
  split; [exact Hsome|].
  intros result Hresult.
  destruct (generateStoreReport_outcome (λ _ _ _, tt) austenShelf
              "2026-11-02" 7 consistent_austenShelf) as [_ Hall].
  apply (Hall result Hresult). simpl.
  apply not_elem_of_cons. split; [done|]. apply not_elem_of_nil.
Defined.

(** ** Truncated cells *)

Lemma length_append (s t : string) :
  String.length (s +:+ t) = (String.length s + String.length t)%nat.
Proof. induction s as [|c s IH]; simpl; [done|]. by rewrite IH. Qed.

Lemma length_substring_0 (n : nat) (s : string) :
  String.length (String.substring 0 n s) = Nat.min n (String.length s).
Proof.
  revert n. induction s as [|c s IH]; intros [|n]; simpl; try done.
  by rewrite IH.
Qed.

Lemma prefix_substring_0 (n : nat) (s : string) :
  String.prefix (String.substring 0 n s) s = true.
Proof.
  revert n. induction s as [|c s IH]; intros [|n]; simpl; try done.
  rewrite IH. by destruct (ascii_dec c c).
Qed.

Lemma substring_from_0 (s : string) (k : Z) :
  JS.substring s 0 k = String.substring 0 (Z.to_nat k) s.
Proof.
  unfold JS.substring, JS.length.
  replace (Z.min (Z.max 0 0) (Z.of_nat (String.length s))) with 0 by lia.
  set (b := Z.min (Z.max k 0) (Z.of_nat (String.length s))).
  replace (Z.min 0 b) with 0 by lia. replace (Z.max 0 b - 0) with b by lia.
  change (Z.to_nat 0) with 0%nat.
  assert (Hgen : ∀ (n m : nat) t,
            Nat.min n (String.length t) = Nat.min m (String.length t) →
            String.substring 0 n t = String.substring 0 m t).
  { clear. intros n m t. revert n m.
    induction t as [|c t IH]; intros [|n] [|m]; simpl; try done.
    intros [= H]. f_equal. by apply IH. }
  apply Hgen. subst b. lia.
Qed.

(** X17. A truncated text is never longer than the width asked
    for, or than three characters when less than three are asked for; a
    missing text gives the empty text, a text that fits is unchanged, and
    a longer one is cut to a prefix followed by three dots. *)
Theorem truncateText_fits (text : option string) (maxLength : Z) :
  let out := truncateText text maxLength in
  JS.length out <= Z.max maxLength 3
  ∧ (JS.truthy text = false → out = "")
  ∧ (∀ s, text = Some s → JS.length s <= maxLength → out = s)
  ∧ (∀ s, text = Some s → s ≠ "" → maxLength < JS.length s →
       ∃ p, out = p +:+ "..." ∧ String.prefix p s = true
            ∧ JS.length p = Z.max (maxLength - 3) 0).
Proof.
  unfold truncateText.
  destruct text as [[|c s]|]; simpl JS.truthy; cbn iota.
  - change (JS.length "") with 0. split_and!; try done.
    + lia.
    + intros s [= <-]. done.
    + intros s [= <-]. done.
  - set (t := String c s). simpl JS.toString.
    destruct (maxLength <? JS.length t) eqn:Hlong.
    + apply Z.ltb_lt in Hlong. rewrite substring_from_0.
      assert (Hlen : JS.length (String.substring 0 (Z.to_nat (maxLength - 3)) t)
                     = Z.max (maxLength - 3) 0).
      { unfold JS.length in *. rewrite length_substring_0. lia. }
      split_and!.
      * unfold JS.length in *. rewrite length_append, Nat2Z.inj_add, Hlen.
        change (String.length "...") with 3%nat. lia.
      * done.
      * intros s' [= <-]. lia.
      * intros s' [= <-] _ _. eexists. split; [done|].
        split; [apply prefix_substring_0|done].
    + apply Z.ltb_ge in Hlong. split_and!; try done.
      * lia.
      * intros s' [= <-] _. done.
      * intros s' [= <-] _. lia.
  - change (JS.length "") with 0. split_and!; try done. lia.
Qed.

Example truncateText_title :
  truncateText (Some "The Great Gatsby and Other Stories") 25
  = "The Great Gatsby and O...".
Proof. reflexivity. Qed.

(** ** The name of the report file *)

Lemma forallb_chars_append (p : ascii → bool) (s t : string) :
  forallb p (list_ascii_of_string (s +:+ t))
  = forallb p (list_ascii_of_string s) && forallb p (list_ascii_of_string t).
Proof.
  induction s as [|c s IH]; simpl; [done|]. rewrite IH.
  by rewrite andb_assoc.
Qed.

Lemma dashed_chars (name : string) :
  forallb (λ c, isAlphaNumeric c || (JS.code c =? 45))
    (list_ascii_of_string (dashed name)) = true.
Proof.
  induction name as [|c name IH]; simpl; [done|]. rewrite IH, andb_true_r.
  destruct (isAlphaNumeric c) eqn:Hc; [by rewrite Hc|done].
Qed.

(** X18. With a date made of digits and dashes, the name of the
    report file is made of letters, digits, dashes and dots only, whatever
    the name of the store; its length is that of the store name and the
    date plus twelve. *)
Theorem reportFilename_chars (storeName today : string) :
  forallb dateChar (list_ascii_of_string today) = true →
  forallb fileNameChar (list_ascii_of_string (reportFilename storeName today))
  = true
  ∧ String.length (reportFilename storeName today)
    = (String.length storeName + String.length today + 12)%nat.
Proof.
  intros Htoday. unfold reportFilename. split.
  - rewrite !forallb_chars_append. apply andb_true_iff. split.
    + pose proof (dashed_chars storeName) as H.
      rewrite forallb_forall in *. intros c Hc. specialize (H c Hc).
      unfold fileNameChar. by rewrite H.
    + apply andb_true_iff. split; [done|].
      apply andb_true_iff. split; [|done].
      rewrite forallb_forall in *. intros c Hc. specialize (Htoday c Hc).
      unfold fileNameChar, dateChar, isAlphaNumeric, JS.isDigit in *.
      apply orb_true_iff in Htoday as [->| ->]; [done|].
      by rewrite orb_true_r.
  - rewrite !length_append. simpl.
    assert (Hd : String.length (dashed storeName) = String.length storeName).
    { induction storeName as [|c s IH]; simpl; [done|]. by rewrite IH. }
    rewrite Hd. lia.
Qed.

Lemma reportFilename_chars_witness :
  forallb dateChar (list_ascii_of_string "2026-11-02") = true
  ∧ reportFilename "Book World & Co." "2026-11-02"
    = "Book-World---Co--Report-2026-11-02.pdf"
  ∧ forallb fileNameChar
      (list_ascii_of_string (reportFilename "Book World & Co." "2026-11-02"))
    = true.
Proof.
  split; [reflexivity|]. split; [reflexivity|].
  apply (reportFilename_chars "Book World & Co." "2026-11-02"). reflexivity.
Defined.

(** ** The answers of the error middleware *)

(** X19. The error middleware never reports success; in
    production the text it sends is one of seven fixed texts, whatever
    the message of the error; and its status is 400, 409, 500 or 503
    unless the error carries a status code of its own. *)
Theorem errorHandler_answers (production : bool) (err : ErrorObject) :
  let reply := errorHandler production err in
  er_success reply = false
  ∧ (production = true →
     er_error reply
     ∈ ["File size exceeds the maximum limit of 10MB.";
        "Only CSV files are allowed"; "Validation error";
        "A record with this data already exists.";
        "Database error occurred."; "Unable to connect to database.";
        "An error occurred"])
  ∧ (er_status reply ∈ [400; 409; 500; 503]
     ∨ (err_statusCode err = Some (er_status reply) ∧ er_status reply ≠ 0)).
Proof.
  unfold errorHandler.
  repeat case_bool_decide; simpl.
  - split_and!; [done| |left]; intros; set_solver.
  - match goal with H : err_message err = _ |- _ => rewrite H end. simpl.
    split_and!; [done| |left]; intros; set_solver.
  - split_and!; [done| |left]; intros; set_solver.
  - split_and!; [done| |left]; intros; set_solver.
  - split_and!; [done| |left]; intros; set_solver.
  - split_and!; [done| |left]; intros; set_solver.
  - split_and!; [done| |].
    + intros ->. set_solver.
    + destruct (err_statusCode err) as [code|]; [|left; set_solver].
      destruct (code =? 0) eqn:Hcode; [left; set_solver|].
      right. apply Z.eqb_neq in Hcode. done.
Qed.

(** ** Which files the upload route takes *)

Lemma toLowerCase_append s t :
  JS.toLowerCase (s +:+ t) = JS.toLowerCase s +:+ JS.toLowerCase t.
Proof. induction s as [|c s IH]; simpl; [done|]. by rewrite IH. Qed.

Lemma toLowerCase_split s x y :
  JS.toLowerCase s = x +:+ y →
  ∃ a b, s = a +:+ b ∧ JS.toLowerCase a = x ∧ JS.toLowerCase b = y.
Proof.
  revert s. induction x as [|c x IH]; intros s Hs.
  - exists "", s. done.
  - destruct s as [|d s]; [done|]. simpl in Hs. injection Hs as Hc Hs.
    destruct (IH s Hs) as (a & b & -> & Ha & Hb).
    exists (String d a), b. simpl. by rewrite Hc, Ha.
Qed.

Lemma substring_all s : String.substring 0 (String.length s) s = s.
Proof. induction s as [|c s IH]; simpl; [done|]. by rewrite IH. Qed.

Lemma substring_append_r stem suffix :
  String.substring (String.length stem) (String.length suffix)
    (stem +:+ suffix) = suffix.
Proof.
  induction stem as [|c stem IH]; simpl; [apply substring_all|exact IH].
Qed.

Lemma substring_tail (k : nat) s :
  (k <= String.length s)%nat →
  ∃ stem, s = stem +:+ String.substring k (String.length s - k) s.
Proof.
  revert k. induction s as [|c s IH]; intros [|k] Hk; simpl in *.
  - by exists "".
  - lia.
  - exists "". simpl. by rewrite substring_all.
  - destruct (IH k) as [stem Hstem]; [lia|].
    exists (String c stem). simpl. rewrite Hstem at 1. reflexivity.
Qed.

Lemma endsWith_true s suffix :
  JS.endsWith s suffix = true ↔ ∃ stem, s = stem +:+ suffix.
Proof.
  unfold JS.endsWith. split.
  - intros [Hlen Heq]%andb_true_iff.
    apply Nat.leb_le in Hlen. apply String.eqb_eq in Heq.
    destruct (substring_tail (String.length s - String.length suffix) s)
      as [stem Hstem]; [lia|].
    exists stem.
    replace (String.length s - (String.length s - String.length suffix))%nat
      with (String.length suffix) in Hstem by lia.
    rewrite Heq in Hstem. exact Hstem.
  - intros [stem ->]. rewrite length_append. apply andb_true_iff. split.
    + apply Nat.leb_le. lia.
    + replace (String.length stem + String.length suffix
               - String.length suffix)%nat
        with (String.length stem) by lia.
      rewrite substring_append_r. apply String.eqb_refl.
Qed.

(** X20. The filter of the upload route takes a file when
    its declared type is text/csv or its name ends in .csv, in any letter
    case, and no other; the error it raises for a file it refuses is
    answered by the error middleware with status 400 and the filter's
    message, in production as in development. *)
Theorem fileFilter_type_or_extension (production : bool) (file : File) :
  match fileFilter file with
  | None =>
      mimetype file = "text/csv"
      ∨ ∃ stem extension,
          originalname file = stem +:+ extension
          ∧ JS.toLowerCase extension = ".csv"
  | Some err =>
      mimetype file ≠ "text/csv"
      ∧ (∀ stem extension,
           originalname file = stem +:+ extension →
           JS.toLowerCase extension ≠ ".csv")
      ∧ errorHandler production err
        = mkErrorReply 400 false "Only CSV files are allowed" None
  end.
Proof.
  unfold fileFilter.
  destruct (String.eqb (mimetype file) "text/csv") eqn:Htype; simpl.
  { left. by apply String.eqb_eq. }
  destruct (JS.endsWith (JS.toLowerCase (originalname file)) ".csv")
    eqn:Hname.
  - right. apply endsWith_true in Hname as [stem Hname].
    apply toLowerCase_split in Hname as (a & b & Hab & _ & Hb). eauto.
  - split_and!.
    + by apply String.eqb_neq.
    + intros stem extension Hsplit Hext.
      assert (Hends : JS.endsWith (JS.toLowerCase (originalname file)) ".csv"
                      = true).
      { apply endsWith_true. exists (JS.toLowerCase stem).
        by rewrite Hsplit, toLowerCase_append, Hext. }
      congruence.
    + reflexivity.
Qed.

Example fileFilter_upper_case :
  fileFilter (mkFile "application/octet-stream" "STOCK.CSV" 64 []) = None.
Proof. reflexivity. Qed.

Example fileFilter_notes :
  fileFilter (mkFile "text/plain" "notes.csv.txt" 12 [])
  = Some (newError "Only CSV files are allowed").
Proof. reflexivity. Qed.
